(** * Suguru generator: board model, propagation solver, puzzle generator

    A shallow embedding of [models.py], [solver.py], [difficulty.py],
    [group_generator.py] and [generator.py], and the properties of the
    design document checked against it.

    Two models are used.

    - The _arena_ model ([Grid], [Cell], [Group]): the board is the
      [rows] x [cols] matrix of cells, and a cell object is identified with
      its position [(row, col)]; groups hold the positions of their member
      cells.  [build_cells] and [clone] create [cells[r][c]] with
      [row = r] and [col = c], and make every group hold the cells of the
      board it belongs to, so a reference to a cell is its position.
      Mutation of a cell is an update of the matrix, threaded through the
      code as explicit state.
    - The _heap_ model (module [Heap]): objects with identity, used for what
      [Grid.clone] allocates and shares. *)

From Stdlib Require Import ZArith QArith Lia.
From Stdlib Require SpecFloat.
From stdpp Require Import base tactics option list numbers strings sets relations.

Local Open Scope nat_scope.
Local Open Scope list_scope.

(** ** Outcomes

    [Contradiction] is the exception of [solver.py].  The recursive and
    looping functions are written with fuel; [OutOfFuel] is the outcome of a
    run that exhausts it, and is shown below not to occur for the fuel the
    entry points supply. *)

Inductive exn := Contradiction | FillTimeout.

Inductive outcome (A : Type) : Type :=
  | Ret (a : A)
  | Raise (e : exn)
  | OutOfFuel.
Arguments Ret {A} a.
Arguments Raise {A} e.
Arguments OutOfFuel {A}.

Definition obind {A B} (m : outcome A) (k : A → outcome B) : outcome B :=
  match m with
  | Ret a => k a
  | Raise e => Raise e
  | OutOfFuel => OutOfFuel
  end.

#[global] Instance outcome_ret : MRet outcome := λ A a, Ret a.
#[global] Instance outcome_bind : MBind outcome := λ A B k m, obind m k.

(** Monadic left fold: a [for] loop whose body may raise. *)
Fixpoint foldM {A S} (body : S → A → outcome S) (s : S) (l : list A) : outcome S :=
  match l with
  | [] => Ret s
  | x :: l' => s' ← body s x; foldM body s' l'
  end.

(** ** Python sets of small integers

    A [set] of candidate values is kept as a duplicate-free list.  The code
    never depends on the order in which a set is iterated (it counts, tests
    membership, or takes the only element of a one-element set). *)

Definition discard (v : nat) (s : list nat) : list nat :=
  filter (λ x, x ≠ v) s.

(** [s.discard(x)] where [x] may be [None]. *)
Definition discard_opt (ov : option nat) (s : list nat) : list nat :=
  match ov with
  | Some v => discard v s
  | None => s
  end.

(** [s -= t] *)
Definition set_minus (s t : list nat) : list nat :=
  filter (λ x, x ∉ t) s.

(** [s |= t] *)
Definition set_union (s t : list nat) : list nat :=
  s ++ filter (λ x, x ∉ s) t.

(** [set(range(1, n + 1))] *)
Definition full_range (n : nat) : list nat := seq 1 n.

(** ** Data model ([models.py]) *)

Definition pos : Type := nat * nat.

Record Cell := mkCell {
  value : option nat;
  candidates : list nat;
  group_id : nat
}.

Record Group := mkGroup {
  g_id : nat;
  g_size : nat;
  g_cells : list pos
}.

Record Grid := mkGrid {
  rows : nat;
  cols : nat;
  cells : list (list Cell);
  groups : list Group
}.

(** [self.cells[r][c]] *)
Definition cell_at (g : Grid) (p : pos) : option Cell :=
  row ← cells g !! p.1; row !! p.2.

Definition value_at (g : Grid) (p : pos) : option nat :=
  c ← cell_at g p; value c.

Definition cands_at (g : Grid) (p : pos) : list nat :=
  from_option candidates [] (cell_at g p).

Definition is_empty_at (g : Grid) (p : pos) : bool :=
  match cell_at g p with
  | Some c => bool_decide (value c = None)
  | None => false
  end.

(** In-place update of the cell at [p]. *)
Definition upd (g : Grid) (p : pos) (f : Cell → Cell) : Grid :=
  mkGrid (rows g) (cols g) (alter (alter f p.2) p.1 (cells g)) (groups g).

Definition set_value (ov : option nat) (c : Cell) : Cell :=
  mkCell ov (candidates c) (group_id c).

Definition set_candidates (s : list nat) (c : Cell) : Cell :=
  mkCell (value c) s (group_id c).

Definition map_candidates (f : list nat → list nat) (c : Cell) : Cell :=
  mkCell (value c) (f (candidates c)) (group_id c).

(** The positions visited by
    [for r in range(rows): for c in range(cols)]. *)
Definition positions (nrows mcols : nat) : list pos :=
  r ← seq 0 nrows; c ← seq 0 mcols; [(r, c)].

(** *** [Grid.get_neighbors] *)

Definition offsets : list (Z * Z) :=
  i ← [-1; 0; 1]%Z; j ← [-1; 0; 1]%Z; [(i, j)].

Definition out_of_bounds (g : Grid) (x y : Z) : bool :=
  (x <? 0)%Z || (Z.of_nat (rows g) <=? x)%Z
  || (y <? 0)%Z || (Z.of_nat (cols g) <=? y)%Z.

(** One iteration of the inner loop: the state is [(neig, oob)], where
    [neig] holds the [index] cells stored so far. *)
Definition neighbor_step (g : Grid) (p : pos) (st : list pos * nat) (d : Z * Z)
  : list pos * nat :=
  let x := (Z.of_nat p.1 + d.1)%Z in
  let y := (Z.of_nat p.2 + d.2)%Z in
  if out_of_bounds g x y then (st.1, S st.2)
  else if bool_decide (d.1 ≠ 0%Z ∨ d.2 ≠ 0%Z)
       then (st.1 ++ [(Z.to_nat x, Z.to_nat y)], st.2)
       else st.

(** [neig[:8 - oob]]: for a cell of the board the centre is in bounds, so
    [index = 8 - oob] and the slice is exactly the cells stored. *)
Definition get_neighbors (g : Grid) (p : pos) : list pos :=
  let st := fold_left (neighbor_step g p) offsets ([], 0) in
  take (8 - st.2) st.1.

(** *** [Grid.get_group], [Grid.get_group_peers] *)

Definition get_group (g : Grid) (gid : nat) : option Group :=
  List.find (λ G, g_id G =? gid) (groups g).

Definition group_of (g : Grid) (p : pos) : option Group :=
  c ← cell_at g p; get_group g (group_id c).

(** The members of the cell's group other than the cell itself
    ([c is not cell]).  The code writes them into a list preallocated with
    [size - 1] slots: on a board whose group sizes equal the member counts
    (every well-formed board) the slots are filled exactly, and the list is
    the one below.  Where a size differs from the member count the code
    fails, on the write past the last slot or on a slot left unfilled; the
    properties of this function and of its callers are stated for
    well-formed boards. *)
Definition get_group_peers (g : Grid) (p : pos) : list pos :=
  match group_of g p with
  | Some G => filter (λ q, q ≠ p) (g_cells G)
  | None => []
  end.

(** *** [Grid.is_complete] *)

Definition is_complete (g : Grid) : bool :=
  forallb (forallb (λ c, bool_decide (value c ≠ None))) (cells g).

(** *** [Grid.get_candidates_for_cell] *)

Definition get_candidates_for_cell (g : Grid) (p : pos) : list nat :=
  let start := full_range (from_option g_size 0 (group_of g p)) in
  let after_peers :=
    fold_left (λ s q, discard_opt (value_at g q) s) (get_group_peers g p) start in
  fold_left (λ s q, discard_opt (value_at g q) s) (get_neighbors g p) after_peers.

(** *** [Grid.find_best_empty_cell]

    [min_candidates] starts at infinity ([None] here). *)
Definition best_step (g : Grid) (st : option (pos * nat)) (p : pos)
  : option (pos * nat) :=
  if is_empty_at g p then
    let n := length (get_candidates_for_cell g p) in
    match st with
    | None => Some (p, n)
    | Some (_, m) => if n <? m then Some (p, n) else st
    end
  else st.

Definition find_best_empty_cell (g : Grid) : option pos :=
  fst <$> fold_left (best_step g) (positions (rows g) (cols g)) None.

(** *** [Grid.is_valid] *)

Definition values_of (g : Grid) (ps : list pos) : list nat :=
  omap (value_at g) ps.

Definition is_valid (g : Grid) : bool :=
  forallb (λ G, bool_decide (NoDup (values_of g (g_cells G)))) (groups g)
  && forallb (λ p,
       match value_at g p with
       | Some v => bool_decide (v ∉ values_of g (get_neighbors g p))
       | None => true
       end) (positions (rows g) (cols g)).

(** *** [Grid.clone]

    In the arena model a copy of a board is the board read back cell by
    cell over [range(rows)] x [range(cols)], and each group rebuilt from the
    positions of its members; what the copy allocates is the subject of
    module [Heap]. *)
Definition copy_cell (c : Cell) : Cell :=
  mkCell (value c) (candidates c) (group_id c).

Definition clone (g : Grid) : Grid :=
  mkGrid (rows g) (cols g)
    (map (λ r, map (λ c, copy_cell (default (mkCell None [] 0) (cell_at g (r, c))))
                   (seq 0 (cols g))) (seq 0 (rows g)))
    (map (λ G, mkGroup (g_id G) (g_size G) (map (λ q, (q.1, q.2)) (g_cells G)))
         (groups g)).

(** *** [Grid.build_cells] *)

(** [group_sizes[gid] = group_sizes.get(gid, 0) + 1] on an insertion-ordered
    dictionary. *)
Fixpoint dict_incr (gid : nat) (d : list (nat * nat)) : list (nat * nat) :=
  match d with
  | [] => [(gid, 1)]
  | (k, n) :: d' => if k =? gid then (k, S n) :: d' else (k, n) :: dict_incr gid d'
  end.

Definition layout_at (layout : list (list nat)) (p : pos) : nat :=
  default 0 (row ← layout !! p.1; row !! p.2).

(** [groups_dict[gid].cells.append(cell)] *)
Definition group_append (gid : nat) (p : pos) (G : Group) : Group :=
  if g_id G =? gid then mkGroup (g_id G) (g_size G) (g_cells G ++ [p]) else G.

Definition build_cells (nrows mcols : nat) (group_map : list (list nat)) : Grid :=
  let group_sizes := fold_left (λ d gid, dict_incr gid d) (concat group_map) [] in
  let groups0 := map (λ kv, mkGroup kv.1 kv.2 []) group_sizes in
  let gs := fold_left
      (λ gs p, map (group_append (layout_at group_map p) p) gs)
      (positions nrows mcols) groups0 in
  let cs := map (λ r, map (λ c, mkCell None [] (layout_at group_map (r, c)))
                          (seq 0 mcols)) (seq 0 nrows) in
  mkGrid nrows mcols cs gs.

(** ** Propagation solver ([solver.py]) *)

Record SolverState := mkState {
  grid : Grid;
  techniques_used : list string
}.

Record SolveResult := mkResult {
  solved : bool;
  result_grid : Grid;
  result_techniques : list string;
  difficulty : Z
}.

(** [self.techniques_used.add(name)] *)
Definition tech_add (name : string) (st : SolverState) : SolverState :=
  mkState (grid st)
    (if bool_decide (name ∈ techniques_used st) then techniques_used st
     else techniques_used st ++ [name]).

Definition with_grid (st : SolverState) (g : Grid) : SolverState :=
  mkState g (techniques_used st).

(** *** [Solver._init_candidates] *)

Definition init_cell (g : Grid) (p : pos) : Grid :=
  if is_empty_at g p then
    let start := full_range (from_option g_size 0 (group_of g p)) in
    let after_peers :=
      fold_left (λ s q, discard_opt (value_at g q) s) (get_group_peers g p) start in
    let after_neigh :=
      fold_left (λ s q, discard_opt (value_at g q) s) (get_neighbors g p) after_peers in
    upd g p (set_candidates after_neigh)
  else g.

Definition init_candidates (g : Grid) : Grid :=
  fold_left init_cell (positions (rows g) (cols g)) g.

(** *** [Solver._place_value] *)

Definition propagate (v : nat) (g : Grid) (q : pos) : outcome Grid :=
  let g' := upd g q (map_candidates (discard v)) in
  if is_empty_at g' q && bool_decide (length (cands_at g' q) = 0)
  then Raise Contradiction
  else Ret g'.

Definition place_value (g : Grid) (p : pos) (v : nat) : outcome Grid :=
  let g0 := upd g p (λ c, mkCell (Some v) [] (group_id c)) in
  g1 ← foldM (propagate v) g0 (get_group_peers g0 p);
  foldM (propagate v) g1 (get_neighbors g1 p).

(** *** [Solver._naked_single] *)

Definition naked_single_step (acc : SolverState * bool) (p : pos)
  : outcome (SolverState * bool) :=
  let st := acc.1 in
  if is_empty_at (grid st) p && bool_decide (length (cands_at (grid st) p) = 1) then
    g' ← place_value (grid st) p (default 0 (head (cands_at (grid st) p)));
    Ret (tech_add "naked_single" (with_grid st g'), true)
  else Ret acc.

Definition naked_single (st : SolverState) : outcome (SolverState * bool) :=
  foldM naked_single_step (st, false)
        (positions (rows (grid st)) (cols (grid st))).

(** *** [Solver._hidden_single] *)

(** The empty members of a group that still have [v] as a candidate. *)
Definition holders (g : Grid) (G : Group) (v : nat) : list pos :=
  filter (λ q, is_empty_at g q = true ∧ v ∈ cands_at g q) (g_cells G).

(** [vals[v]] after the counting loop. *)
Definition cand_count (g : Grid) (G : Group) (v : nat) : nat :=
  length (holders g G v).

(** The inner [for cell in group.cells: ... break]: place [v] in the first
    empty member that has it as a candidate. *)
Definition hidden_single_value (G : Group) (acc : SolverState * bool) (v : nat)
  : outcome (SolverState * bool) :=
  let st := acc.1 in
  match holders (grid st) G v with
  | q :: _ =>
      g' ← place_value (grid st) q v;
      Ret (tech_add "hidden_single" (with_grid st g'), true)
  | [] => Ret acc
  end.

Definition hidden_single_group (acc : SolverState * bool) (G : Group)
  : outcome (SolverState * bool) :=
  let g := grid acc.1 in
  let to_place := filter (λ v, cand_count g G v = 1) (seq 0 (S (g_size G))) in
  foldM (hidden_single_value G) acc to_place.

Definition hidden_single (st : SolverState) : outcome (SolverState * bool) :=
  foldM hidden_single_group (st, false) (groups (grid st)).

(** *** [Solver._neighbor_elimination] *)

(** The keys of [common_cands]: every candidate of an empty member. *)
Definition group_candidates (g : Grid) (G : Group) : list nat :=
  remove_dups
    (q ← filter (λ q, is_empty_at g q = true) (g_cells G); cands_at g q).

(** The intersection of the neighbour sets of [cells]. *)
Definition common_neighbors (g : Grid) (cs : list pos) : list pos :=
  match cs with
  | [] => []
  | c0 :: rest =>
      fold_left (λ acc c, list_intersection acc (get_neighbors g c))
                rest (remove_dups (get_neighbors g c0))
  end.

Definition eliminate (val : nat) (acc : SolverState * bool) (q : pos)
  : SolverState * bool :=
  let st := acc.1 in
  if is_empty_at (grid st) q && bool_decide (val ∈ cands_at (grid st) q) then
    (tech_add "neighbor_elimination"
       (with_grid st (upd (grid st) q (map_candidates (discard val)))), true)
  else acc.

(** [entry] is an item [(val, cells)] of [common_cands], computed before
    the group is processed. *)
Definition neighbor_elimination_value (acc : SolverState * bool)
    (entry : nat * list pos) : SolverState * bool :=
  if 1 <? length entry.2 then
    fold_left (eliminate entry.1) (common_neighbors (grid acc.1) entry.2) acc
  else acc.

Definition neighbor_elimination_group (acc : SolverState * bool) (G : Group)
  : SolverState * bool :=
  let g := grid acc.1 in
  let common_cands := map (λ v, (v, holders g G v)) (group_candidates g G) in
  fold_left neighbor_elimination_value common_cands acc.

Definition neighbor_elimination (st : SolverState) : SolverState * bool :=
  fold_left neighbor_elimination_group (groups (grid st)) (st, false).

(** *** [Solver._naked_subsets_generalized] *)

(** [itertools.combinations(l, k)], in its lexicographic order. *)
Fixpoint combinations {A} (k : nat) (l : list A) : list (list A) :=
  match k, l with
  | 0, _ => [[]]
  | S _, [] => []
  | S k', x :: l' => map (cons x) (combinations k' l') ++ combinations k l'
  end.

Definition strip (name : string) (remove : list nat) (acc : SolverState * bool)
    (q : pos) : SolverState * bool :=
  let st := acc.1 in
  let before := length (cands_at (grid st) q) in
  let g' := upd (grid st) q (map_candidates (λ s, set_minus s remove)) in
  if length (cands_at g' q) <? before
  then (tech_add name (with_grid st g'), true)
  else (with_grid st g', acc.2).

Definition naked_subsets_combo (G : Group) (size : nat)
    (acc : SolverState * bool) (combo : list pos) : SolverState * bool :=
  let g := grid acc.1 in
  let union := fold_left (λ u q, set_union u (cands_at g q)) combo [] in
  if length union =? size then
    fold_left (strip "naked_subsets" union)
      (filter (λ q, (q ∉ combo) ∧ is_empty_at g q = true) (g_cells G)) acc
  else acc.

Definition naked_subsets_group (max_size : nat) (acc : SolverState * bool)
    (G : Group) : SolverState * bool :=
  let empty_cells := filter (λ q, is_empty_at (grid acc.1) q = true) (g_cells G) in
  let hi := min (max_size + 1) (length empty_cells + 1) in
  fold_left
    (λ acc size,
       fold_left (naked_subsets_combo G size) (combinations size empty_cells) acc)
    (seq 2 (hi - 2)) acc.

Definition naked_subsets_generalized (st : SolverState) : SolverState * bool :=
  fold_left (naked_subsets_group 3) (groups (grid st)) (st, false).

(** *** [Solver._hidden_pairs] *)

(** [frozenset(a) == frozenset(b)] *)
Definition same_cells (a b : list pos) : bool :=
  bool_decide (a ⊆ b) && bool_decide (b ⊆ a).

(** [comb_appear[comb] += 1] on an insertion-ordered dictionary keyed by
    frozensets of cells. *)
Fixpoint comb_incr (comb : list pos) (d : list (list pos * nat))
  : list (list pos * nat) :=
  match d with
  | [] => [(comb, 1)]
  | (k, n) :: d' =>
      if same_cells k comb then (k, S n) :: d' else (k, n) :: comb_incr comb d'
  end.

Definition hidden_pairs_key (G : Group)
    (cands_to_cells : list (nat * list pos)) (acc : SolverState * bool)
    (entry : list pos * nat) : SolverState * bool :=
  let key := entry.1 in
  let item := entry.2 in
  if item <? 2 then acc
  else if negb (item =? length key) then acc
  else
    let keep := map fst (filter (λ kv, same_cells key kv.2 = true) cands_to_cells) in
    let cands_to_remove := set_minus (full_range (g_size G)) keep in
    fold_left (strip "hidden_pairs" cands_to_remove) key acc.

Definition hidden_pairs_group (max_size : nat) (acc : SolverState * bool)
    (G : Group) : SolverState * bool :=
  let g := grid acc.1 in
  let cands_to_cells :=
    map (λ v, (v, remove_dups (holders g G v))) (full_range (g_size G)) in
  let comb_appear :=
    fold_left (λ d kv, if length kv.2 <=? max_size then comb_incr kv.2 d else d)
              cands_to_cells [] in
  fold_left (hidden_pairs_key G cands_to_cells) comb_appear acc.

Definition hidden_pairs (st : SolverState) : SolverState * bool :=
  fold_left (hidden_pairs_group 3) (groups (grid st)) (st, false).

(** *** [Solver.solve] *)

(** The measure that bounds the loops: every empty cell counts one, every
    candidate counts one. *)
Definition weight (c : Cell) : nat :=
  length (candidates c) + (if bool_decide (value c = None) then 1 else 0).

Definition measure (g : Grid) : nat :=
  sum_list (map (λ row, sum_list (map weight row)) (cells g)).

(** [while self._naked_single() or self._hidden_single(): changed = True] *)
Fixpoint level1_loop (fuel : nat) (st : SolverState) (changed : bool)
  : outcome (SolverState * bool) :=
  match fuel with
  | 0 => OutOfFuel
  | S fuel' =>
      '(st1, placed) ← naked_single st;
      if placed : bool then level1_loop fuel' st1 true
      else
        '(st2, placed) ← hidden_single st1;
        if placed : bool then level1_loop fuel' st2 true
        else Ret (st2, changed)
  end.

(** One pass of the body of [while changed]; the result is the state and
    whether the loop goes round again ([changed] and no [break]). *)
Definition solve_pass (max_difficulty : Z) (st : SolverState)
  : outcome (SolverState * bool) :=
  r1 ← level1_loop (S (measure (grid st))) st false;
  let r1 : SolverState * bool := r1 in
  if is_complete (grid r1.1) then Ret (r1.1, false)
  else
    let r2 := if (2 <=? max_difficulty)%Z
              then let r := neighbor_elimination r1.1 in (r.1, r1.2 || r.2)
              else r1 in
    if is_complete (grid r2.1) then Ret (r2.1, false)
    else
      let r3 := if (3 <=? max_difficulty)%Z
                then
                  let r := naked_subsets_generalized r2.1 in
                  if r.2 then (r.1, true)
                  else let r' := hidden_pairs r.1 in (r'.1, r2.2 || r'.2)
                else r2 in
      if is_complete (grid r3.1) then Ret (r3.1, false)
      else Ret r3.

Fixpoint solve_loop (fuel : nat) (max_difficulty : Z) (st : SolverState)
  : outcome SolverState :=
  match fuel with
  | 0 => OutOfFuel
  | S fuel' =>
      '(st', again) ← solve_pass max_difficulty st;
      if again : bool then solve_loop fuel' max_difficulty st' else Ret st'
  end.

Definition solve (g : Grid) (max_difficulty : Z) : outcome SolveResult :=
  let st0 := mkState (init_candidates (clone g)) [] in
  st ← solve_loop (S (measure (grid st0))) max_difficulty st0;
  Ret (mkResult (is_complete (grid st)) (grid st) (techniques_used st) 1).

(** *** [Solver.has_unique_solution], [Solver._count_solutions] *)

(** The number of empty cells: the depth the search can reach. *)
Definition empty_weight (c : Cell) : nat :=
  if bool_decide (value c = None) then 1 else 0.

Definition num_empty (g : Grid) : nat :=
  sum_list (map (λ row, sum_list (map empty_weight row)) (cells g)).

(** The board is mutated in place and handed back: the result carries the
    board as the call leaves it.

    [count_loop] is the loop [for value in best_candidates]; [rec] is the
    recursive call [self._count_solutions(grid, limit)]. *)
Fixpoint count_loop (rec : Grid → outcome (nat * Grid)) (limit : nat)
    (best_cell : pos) (vs : list nat) (g : Grid) (total_count : nat)
  : outcome (nat * Grid) :=
  match vs with
  | [] => Ret (total_count, g)
  | v :: vs' =>
      '(count, g1) ← rec (upd g best_cell (set_value (Some v)));
      let total_count := total_count + count in
      let g' := upd g1 best_cell (set_value None) in
      if limit <=? total_count then Ret (limit, g')
      else count_loop rec limit best_cell vs' g' total_count
  end.

Fixpoint count_solutions (fuel : nat) (g : Grid) (limit : nat)
  : outcome (nat * Grid) :=
  match fuel with
  | 0 => OutOfFuel
  | S fuel' =>
      if is_complete g then Ret (1, g)
      else
        match find_best_empty_cell g with
        | None => Ret (1, g)
        | Some best_cell =>
            count_loop (λ g', count_solutions fuel' g' limit) limit best_cell
                       (get_candidates_for_cell g best_cell) g 0
        end
  end.

Definition has_unique_solution (g : Grid) : outcome bool :=
  let cloned := clone g in
  '(count, _) ← count_solutions (S (num_empty cloned)) cloned 2;
  Ret (count =? 1).

(** ** Difficulty rater ([difficulty.py]) *)

Fixpoint rate_levels (g : Grid) (levels : list Z) : outcome Z :=
  match levels with
  | [] => Ret 4%Z
  | level :: rest =>
      result ← solve (clone g) level;
      if solved result then Ret level else rate_levels g rest
  end.

Definition rate (g : Grid) : outcome Z :=
  rate_levels g [1; 2; 3; 4]%Z.

(** ** Randomness

    The state of the process-wide generator of [random] is the tape of the
    raw draws it will produce; [random.seed] picks the tape.  An exhausted
    tape yields zeros. *)

Definition tape : Type := list nat.

Definition randbelow (n : nat) (t : tape) : nat * tape :=
  match t with
  | [] => (0, [])
  | x :: t' => (x mod n, t')
  end.

(** [x[i], x[j] = x[j], x[i]] *)
Definition swap {A} (l : list A) (i j : nat) : list A :=
  match l !! i, l !! j with
  | Some a, Some b => <[i:=b]> (<[j:=a]> l)
  | _, _ => l
  end.

(** [random.shuffle]:
    [for i in reversed(range(1, len(x))): j = randbelow(i + 1); swap]. *)
Fixpoint shuffle_from {A} (i : nat) (l : list A) (t : tape) : list A * tape :=
  match i with
  | 0 => (l, t)
  | S i' =>
      let '(j, t') := randbelow (S i) t in
      shuffle_from i' (swap l i j) t'
  end.

Definition shuffle {A} (l : list A) (t : tape) : list A * tape :=
  shuffle_from (length l - 1) l t.

(** ** Region layout generator ([group_generator.py]) *)

Module GroupGenerator.

Definition layout : Type := list (list nat).

(** [_merge_groups]: every occurrence of [group_b] becomes [group_a]. *)
Definition merge_groups (l : layout) (group_a group_b : nat) : layout :=
  map (map (λ x, if x =? group_b then group_a else x)) l.

(** [group_sizes] has the keys [0 .. rows*cols - 1], inserted in
    increasing order and never removed: it is kept as the list of sizes
    indexed by group id. *)
Definition size_of (group_sizes : list nat) (gid : nat) : nat :=
  default 0 (group_sizes !! gid).

Definition initial_layout (nrows mcols : nat) : layout :=
  map (λ r, map (λ c, r * mcols + c) (seq 0 mcols)) (seq 0 nrows).

Definition all_pairs (nrows mcols : nat) : list (pos * pos) :=
  (r ← seq 0 nrows; c ← seq 0 (mcols - 1); [((r, c), (r, c + 1))])
  ++ (r ← seq 0 (nrows - 1); c ← seq 0 mcols; [((r, c), (r + 1, c))]).

(** The body of [for (cell_a, cell_b) in pairs]. *)
Definition merge_pair (max_size : nat) (st : layout * list nat)
    (pr : pos * pos) : layout * list nat :=
  let '(l, group_sizes) := st in
  let group_a := layout_at l pr.1 in
  let group_b := layout_at l pr.2 in
  if group_a =? group_b then st
  else
    let merged_size := size_of group_sizes group_a + size_of group_sizes group_b in
    if merged_size <=? max_size then
      let '(group_a, group_b) :=
        if size_of group_sizes group_a <? size_of group_sizes group_b
        then (group_b, group_a) else (group_a, group_b) in
      (merge_groups l group_a group_b,
       <[group_b := 0]>
         (<[group_a := size_of group_sizes group_a + size_of group_sizes group_b]>
            group_sizes))
    else st.

(** [_get_adjacent_groups]: the result is a set; it is kept in the order
    in which the scan meets the groups.  The order is only observed by
    [min], to break ties between neighbours of equal size. *)
Definition orthogonal (l : layout) (p : pos) : list pos :=
  let nrows := length l in
  let mcols := length (default [] (head l)) in
  (if 0 <? p.1 then [(p.1 - 1, p.2)] else [])
  ++ (if p.1 + 1 <? nrows then [(p.1 + 1, p.2)] else [])
  ++ (if 0 <? p.2 then [(p.1, p.2 - 1)] else [])
  ++ (if p.2 + 1 <? mcols then [(p.1, p.2 + 1)] else []).

Definition get_adjacent_groups (group_id : nat) (l : layout) : list nat :=
  remove_dups
    (p ← filter (λ p, layout_at l p = group_id)
                (positions (length l) (length (default [] (head l))));
     filter (λ x, x ≠ group_id) (map (layout_at l) (orthogonal l p))).

(** [min(neighbors, key=lambda gid: group_sizes[gid])]: the first
    element of least key. *)
Definition min_by (key : nat → nat) (l : list nat) : option nat :=
  fold_left
    (λ best x,
       match best with
       | None => Some x
       | Some b => if key x <? key b then Some x else best
       end) l None.

(** The body of [for small_gid in small_groups]. *)
Definition repair_group (st : layout * list nat) (small_gid : nat)
  : layout * list nat :=
  let '(l, group_sizes) := st in
  match min_by (size_of group_sizes) (get_adjacent_groups small_gid l) with
  | None => st
  | Some smallest_neighbor =>
      (merge_groups l smallest_neighbor small_gid,
       <[small_gid := 0]>
         (<[smallest_neighbor :=
              size_of group_sizes smallest_neighbor + size_of group_sizes small_gid]>
            group_sizes))
  end.

Definition small_groups (min_size : nat) (group_sizes : list nat) : list nat :=
  filter (λ gid, 0 < size_of group_sizes gid ∧ size_of group_sizes gid < min_size)
         (seq 0 (length group_sizes)).

(** The [while True] loop; [budget] is [MAX_ITERATIONS - iterations]. *)
Fixpoint repair (budget : nat) (min_size : nat) (st : layout * list nat)
  : option layout :=
  match small_groups min_size st.2 with
  | [] => Some st.1
  | small =>
      match budget with
      | 0 => None
      | S budget' => repair budget' min_size (fold_left repair_group small st)
      end
  end.

Definition generate (min_size max_size nrows mcols : nat) (t : tape)
  : option layout * tape :=
  let l := initial_layout nrows mcols in
  let '(pairs, t') := shuffle (all_pairs nrows mcols) t in
  let group_sizes := map (λ _, 1) (positions nrows mcols) in
  let st := fold_left (merge_pair max_size) pairs (l, group_sizes) in
  (repair (nrows * mcols) min_size st, t').

(** What the tests of the generator check on a layout. *)
Definition group_cells (l : layout) (gid : nat) : list pos :=
  filter (λ p, layout_at l p = gid)
         (positions (length l) (length (default [] (head l)))).

Definition layout_ids (l : layout) : list nat := remove_dups (concat l).

Definition sizes_within (min_size max_size : nat) (l : layout) : bool :=
  forallb (λ gid, let n := length (group_cells l gid) in
                  (min_size <=? n) && (n <=? max_size)) (layout_ids l).

End GroupGenerator.

(** ** Puzzle generator ([generator.py]) *)

Module Generator.

Record FillState := mkFill {
  f_grid : Grid;
  early_failures : nat;
  f_tape : tape
}.

(** The outcomes of [_fill_grid_recursive]: it returns [True] or
    [False], or raises [FillTimeout]; the generator state survives the
    exception. *)
Inductive fill_outcome :=
  | FillRet (b : bool) (s : FillState)
  | FillRaise (s : FillState)
  | FillFuel.

(** The loop [for value in candidates_list] of [_fill_grid_recursive];
    [rec] is the recursive call. *)
Fixpoint fill_loop (rec : FillState → fill_outcome) (cell : pos)
    (vs : list nat) (s : FillState) : fill_outcome :=
  match vs with
  | [] => FillRet false s
  | v :: vs' =>
      let s1 := mkFill (upd (f_grid s) cell (set_value (Some v)))
                       (early_failures s) (f_tape s) in
      match rec s1 with
      | FillRet true s2 => FillRet true s2
      | FillRet false s2 =>
          fill_loop rec cell vs'
                    (mkFill (upd (f_grid s2) cell (set_value None))
                            (early_failures s2) (f_tape s2))
      | FillRaise s2 => FillRaise s2
      | FillFuel => FillFuel
      end
  end.

Fixpoint fill_grid_recursive (fuel : nat) (s : FillState) : fill_outcome :=
  match fuel with
  | 0 => FillFuel
  | S fuel' =>
      match find_best_empty_cell (f_grid s) with
      | None => FillRet true s
      | Some cell =>
          let candidates := get_candidates_for_cell (f_grid s) cell in
          if bool_decide (candidates = []) then
            let s1 := mkFill (f_grid s) (S (early_failures s)) (f_tape s) in
            if 100 <? early_failures s1 then FillRaise s1 else FillRet false s1
          else
            let '(candidates_list, t') := shuffle candidates (f_tape s) in
            fill_loop (fill_grid_recursive fuel') cell candidates_list
                      (mkFill (f_grid s) (early_failures s) t')
      end
  end.

(** [_fill_grid]: [FillTimeout] is caught and turned into [False]. *)
Definition fill_grid (g : Grid) (t : tape) : outcome (bool * Grid * tape) :=
  match fill_grid_recursive (S (num_empty g)) (mkFill g 0 t) with
  | FillRet b s => Ret (b, f_grid s, f_tape s)
  | FillRaise s => Ret (false, f_grid s, f_tape s)
  | FillFuel => OutOfFuel
  end.

(** [removal_percentage] is a Python float, a binary64.  A configuration
    names it by a fraction [n / d]: the float is [float(n) / float(d)], the
    binary64 nearest to the fraction when [n] and [d] are below [2^53],
    which is the float the literal [0.29] denotes for [29 / 100].
    Conversion, quotient and product round to nearest, ties to even, as
    [SpecFloat] defines them for [prec = 53] and [emax = 1024]. *)
Definition binary64_of_int (n : Z) : SpecFloat.spec_float :=
  SpecFloat.binary_normalize 53 1024 n 0 false.

Definition binary64_of_fraction (q : Q) : SpecFloat.spec_float :=
  SpecFloat.SFdiv 53 1024 (binary64_of_int (Qnum q))
                  (binary64_of_int (Z.pos (Qden q))).

(** [total_cells * removal_percentage]: the integer is converted to a
    float, the product is a float. *)
Definition removal_product (total_cells : nat) (removal_percentage : Q)
  : SpecFloat.spec_float :=
  SpecFloat.SFmul 53 1024 (binary64_of_int (Z.of_nat total_cells))
                  (binary64_of_fraction removal_percentage).

(** [int(x)] truncates towards zero; [None] is where it raises,
    [OverflowError] on an infinity and [ValueError] on a NaN. *)
Definition int_of_binary64 (x : SpecFloat.spec_float) : option Z :=
  match x with
  | SpecFloat.S754_zero _ => Some 0%Z
  | SpecFloat.S754_finite s m e =>
      Some (SpecFloat.cond_Zopp s
              (if (0 <=? e)%Z then Z.pos m * 2 ^ e else Z.pos m / 2 ^ (- e))%Z)
  | SpecFloat.S754_infinity _ | SpecFloat.S754_nan => None
  end.

(** [max_removals = int(total_cells * removal_percentage)].  The product
    is finite for every percentage below 1e290 on a board that fits in
    memory (the argument is documented as a fraction between 0.0 and 1.0);
    beyond, where [int] raises, the limit is taken as 0. *)
Definition max_removals_of (total_cells : nat) (removal_percentage : Q) : Z :=
  default 0%Z (int_of_binary64 (removal_product total_cells removal_percentage)).

(** One tentative removal: the body of the loop of [_remove_clues] after
    the early stop.  The result is the board and whether the removal was
    kept. *)
Definition try_removal (target_difficulty : Z) (g : Grid) (cell : pos)
  : outcome (Grid * bool) :=
  let val := value_at g cell in
  let g1 := upd g cell (set_value None) in
  result ← solve (clone g1) target_difficulty;
  unique ← (if solved result then has_unique_solution g1 else Ret false);
  if unique : bool then Ret (g1, true)
  else Ret (upd g1 cell (set_value val), false).

Fixpoint remove_loop (target_difficulty : Z) (max_removals : Z)
    (filled_cells : list pos) (g : Grid) (removed_count : nat)
  : outcome (Grid * nat) :=
  match filled_cells with
  | [] => Ret (g, removed_count)
  | cell :: rest =>
      if (max_removals <=? Z.of_nat removed_count)%Z then Ret (g, removed_count)
      else
        '(g', kept) ← try_removal target_difficulty g cell;
        remove_loop target_difficulty max_removals rest g'
                    (if kept : bool then S removed_count else removed_count)
  end.

Definition remove_clues (g : Grid) (target_difficulty : Z)
    (removal_percentage : Q) (t : tape) : outcome (Grid * nat * tape) :=
  let filled := filter (λ p, is_Some (value_at g p))
                       (positions (rows g) (cols g)) in
  let '(filled_cells, t') := shuffle filled t in
  let max_removals := max_removals_of (length filled_cells) removal_percentage in
  '(g', n) ← remove_loop target_difficulty max_removals filled_cells g 0;
  Ret (g', n, t').

Record Config := mkConfig {
  cfg_rows : nat;
  cfg_cols : nat;
  cfg_difficulty : Z;
  removal_percentage : Q;
  max_group_size : nat;
  min_group_size : nat
}.

Definition MAX_ATTEMPTS : nat := 25.

(** The body of [for attempt in range(MAX_ATTEMPTS)]: [Some] is
    [return grid] (the board and its [solution]), [None] is [continue]. *)
Definition attempt (cfg : Config) (t : tape)
  : outcome (option (Grid * Grid) * tape) :=
  let '(lay, t1) := GroupGenerator.generate (min_group_size cfg) (max_group_size cfg)
                                           (cfg_rows cfg) (cfg_cols cfg) t in
  match lay with
  | None => Ret (None, t1)
  | Some lay =>
      let g := build_cells (cfg_rows cfg) (cfg_cols cfg) lay in
      '(filled, g1, t2) ← fill_grid g t1;
      if negb filled then Ret (None, t2)
      else
        let solution := clone g1 in
        '(g2, _, t3) ← remove_clues g1 (cfg_difficulty cfg) (removal_percentage cfg) t2;
        actual_difficulty ← rate g2;
        if (actual_difficulty =? cfg_difficulty cfg)%Z
        then Ret (Some (g2, solution), t3)
        else Ret (None, t3)
  end.

Fixpoint attempts (n : nat) (cfg : Config) (t : tape)
  : outcome (option (Grid * Grid)) :=
  match n with
  | 0 => Ret None
  | S n' =>
      '(r, t') ← attempt cfg t;
      match r with
      | Some board => Ret (Some board)
      | None => attempts n' cfg t'
      end
  end.

Definition generate (cfg : Config) (t : tape) : outcome (option (Grid * Grid)) :=
  attempts MAX_ATTEMPTS cfg t.

End Generator.

(** ** Objects with identity: what [Grid.clone] allocates

    A heap is the list of the objects allocated so far; the address of an
    object is its index, and allocation appends.  A program is a function
    from the heap to a result and the new heap, or [None] when the
    interpreter would raise (an index out of range, a field read from an
    object of another class). *)

Module Heap.

Abbreviation loc := nat (only parsing).

Inductive obj :=
  | OCell (row col : nat) (val : option nat) (cands : loc) (gid : nat)
  | OSet (elems : list nat)
  | OList (items : list loc)
  | OGroup (id size : nat) (members : loc)
  | OGrid (nrows mcols : nat) (cell_rows : loc) (grps : loc) (solution : option loc).

Abbreviation heap := (list obj) (only parsing).

Definition prog (A : Type) : Type := heap → option (A * heap).

Definition ret {A} (a : A) : prog A := λ h, Some (a, h).

Definition bind {A B} (m : prog A) (k : A → prog B) : prog B :=
  λ h, match m h with
       | Some (a, h') => k a h'
       | None => None
       end.

Definition alloc (o : obj) : prog loc := λ h, Some (length h, h ++ [o]).

Definition read (l : loc) : prog obj := λ h, o ← h !! l; Some (o, h).

Definition write (l : loc) (o : obj) : prog unit :=
  λ h, if decide (l < length h) then Some (tt, <[l:=o]> h) else None.

Definition fail {A} : prog A := λ _, None.

(** [lst[i]] *)
Definition list_get (lst : loc) (i : nat) : prog loc :=
  bind (read lst) (λ o,
    match o with
    | OList items => match items !! i with Some x => ret x | None => fail end
    | _ => fail
    end).

(** [lst.append(x)] *)
Definition list_append (lst : loc) (x : loc) : prog unit :=
  bind (read lst) (λ o,
    match o with
    | OList items => write lst (OList (items ++ [x]))
    | _ => fail
    end).

(** [for x in xs: body], threading an accumulator-free body. *)
Fixpoint for_each {A} (xs : list A) (body : A → prog unit) : prog unit :=
  match xs with
  | [] => ret tt
  | x :: xs' => bind (body x) (λ _, for_each xs' body)
  end.

(** [Cell(row, col, group_id, value)]: the constructor creates an empty
    candidate set. *)
Definition new_cell (row col gid : nat) (val : option nat) : prog loc :=
  bind (alloc (OSet [])) (λ s, alloc (OCell row col val s gid)).

(** [Group(id, size)]: the constructor creates an empty member list. *)
Definition new_group (id size : nat) : prog loc :=
  bind (alloc (OList [])) (λ ms, alloc (OGroup id size ms)).

(** [Grid(nrows, mcols)] *)
Definition new_grid (nrows mcols : nat) : prog loc :=
  bind (alloc (OList [])) (λ cs,
  bind (alloc (OList [])) (λ gs,
  alloc (OGrid nrows mcols cs gs None))).

(** Step 1 of [clone], the body of the inner loop:
    copy [self.cells[r][c]] and append the copy to [row]. *)
Definition clone_cell (self_cells : loc) (row : loc) (r c : nat) : prog unit :=
  bind (list_get self_cells r) (λ old_row,
  bind (list_get old_row c) (λ old_cell,
  bind (read old_cell) (λ o,
    match o with
    | OCell orow ocol oval ocands ogid =>
        bind (new_cell orow ocol ogid oval) (λ new_c,
        bind (read ocands) (λ s,
          match s with
          | OSet elems =>
              bind (alloc (OSet elems)) (λ new_s,
              bind (write new_c (OCell orow ocol oval new_s ogid)) (λ _,
              list_append row new_c))
          | _ => fail
          end))
    | _ => fail
    end))).

Definition clone_row (self_cells new_cells : loc) (mcols r : nat) : prog unit :=
  bind (alloc (OList [])) (λ row,
  bind (for_each (seq 0 mcols) (clone_cell self_cells row r)) (λ _,
  list_append new_cells row)).

(** Step 2 of [clone], the body of the inner loop:
    [new_group.cells.append(new_grid.cells[cell.row][cell.col])]. *)
Definition clone_member (new_cells : loc) (new_members : loc) (cell : loc)
  : prog unit :=
  bind (read cell) (λ o,
    match o with
    | OCell crow ccol _ _ _ =>
        bind (list_get new_cells crow) (λ new_row,
        bind (list_get new_row ccol) (λ target,
        list_append new_members target))
    | _ => fail
    end).

Definition clone_group (new_cells new_groups : loc) (group : loc) : prog unit :=
  bind (read group) (λ o,
    match o with
    | OGroup id size members =>
        bind (new_group id size) (λ ng,
        bind (read ng) (λ ngo,
          match ngo with
          | OGroup _ _ new_members =>
              bind (read members) (λ ms,
                match ms with
                | OList cells_of_group =>
                    bind (for_each cells_of_group
                                   (clone_member new_cells new_members)) (λ _,
                    list_append new_groups ng)
                | _ => fail
                end)
          | _ => fail
          end))
    | _ => fail
    end).

Definition clone (self : loc) : prog loc :=
  bind (read self) (λ o,
    match o with
    | OGrid nrows mcols self_cells self_groups _ =>
        bind (new_grid nrows mcols) (λ ng,
        bind (read ng) (λ ngo,
          match ngo with
          | OGrid _ _ new_cells new_groups _ =>
              bind (for_each (seq 0 nrows)
                             (clone_row self_cells new_cells mcols)) (λ _,
              bind (read self_groups) (λ gs,
                match gs with
                | OList group_list =>
                    bind (for_each group_list
                                   (clone_group new_cells new_groups)) (λ _,
                    ret ng)
                | _ => fail
                end))
          | _ => fail
          end))
    | _ => fail
    end).

(** The references an object holds. *)
Definition pointers (o : obj) : list loc :=
  match o with
  | OCell _ _ _ cands _ => [cands]
  | OSet _ => []
  | OList items => items
  | OGroup _ _ members => [members]
  | OGrid _ _ cs gs sol => cs :: gs :: option_list sol
  end.

(** [reach h l l']: the object at [l'] can be reached from [l] by
    following references. *)
Inductive reach (h : heap) : loc → loc → Prop :=
  | reach_here l : reach h l l
  | reach_next l o l' l'' :
      h !! l = Some o → l' ∈ pointers o → reach h l' l'' → reach h l l''.

(** [extends h0 h]: [h] is [h0] with new objects after it, and no new
    object refers to an object of [h0]. *)
Definition extends (h0 h : heap) : Prop :=
  (∃ new, h = h0 ++ new)
  ∧ ∀ l o, length h0 ≤ l → h !! l = Some o →
           ∀ p, p ∈ pointers o → length h0 ≤ p.

(** A board in the heap, for the examples: one cell with candidates
    [{1, 2}], in a group of its own. *)
Definition sample : heap :=
  [ OSet [1; 2]; OCell 0 0 (Some 1) 0 7; OList [1]; OList [2];
    OList [1]; OGroup 7 1 4; OList [5]; OGrid 1 1 3 6 None ].

(** [l] is the address of an object allocated after [h0]. *)
Definition fresh (h0 : heap) (l : loc) : Prop := length h0 ≤ l.

Definition fresh_obj (h0 : heap) (o : obj) : Prop :=
  ∀ p, p ∈ pointers o → fresh h0 p.

(** [m] keeps the objects of [h0] as they are, makes no new object refer
    to them, and its result satisfies [Q]. *)
Definition safe {A} (h0 : heap) (m : prog A) (Q : A → Prop) : Prop :=
  ∀ h a h', extends h0 h → m h = Some (a, h') → extends h0 h' ∧ Q a.

End Heap.

(** ** Vocabulary of the properties *)

(** [p] is the position of a cell of the board. *)
Definition in_grid (g : Grid) (p : pos) : Prop :=
  p.1 < rows g ∧ p.2 < cols g.

(** [q] is 8-directionally adjacent to [p] (and is not [p]). *)
Definition adjacent (p q : pos) : Prop :=
  q ≠ p ∧ q.1 ≤ p.1 + 1 ∧ p.1 ≤ q.1 + 1 ∧ q.2 ≤ p.2 + 1 ∧ p.2 ≤ q.2 + 1.

(** Boards used in the examples: clues written on a built board. *)
Definition with_clues (g : Grid) (clues : list (pos * nat)) : Grid :=
  fold_left (λ g pv, upd g pv.1 (set_value (Some pv.2))) clues g.

(** The cells [get_neighbors] stores: the offsets that stay in bounds and
    are not the centre, applied to the cell. *)
Definition shift (p : pos) (d : Z * Z) : pos :=
  (Z.to_nat (Z.of_nat p.1 + d.1), Z.to_nat (Z.of_nat p.2 + d.2)).

Definition oob_at (g : Grid) (p : pos) (d : Z * Z) : bool :=
  out_of_bounds g (Z.of_nat p.1 + d.1) (Z.of_nat p.2 + d.2).

Definition off_center (d : Z * Z) : Prop := d.1 ≠ 0%Z ∨ d.2 ≠ 0%Z.

Definition stored (g : Grid) (p : pos) (ds : list (Z * Z)) : list pos :=
  shift p <$> filter (λ d, oob_at g p d = false ∧ off_center d) ds.

(** A complete assignment [sol] of values to the cells that agrees with the
    values the board holds and satisfies every constraint: the cells of
    each group hold a permutation of [1 .. size], and no two 8-adjacent
    cells share a value. *)
Definition is_solution (g : Grid) (sol : pos → nat) : Prop :=
  (∀ p v, value_at g p = Some v → sol p = v)
  ∧ (∀ G, G ∈ groups g → sol <$> g_cells G ≡ₚ full_range (g_size G))
  ∧ (∀ p q, in_grid g p → in_grid g q → adjacent p q → sol p ≠ sol q).

(** Two assignments are the same assignment when they agree on the cells
    of the board. *)
Definition same_on (g : Grid) (sol sol' : pos → nat) : Prop :=
  ∀ p, in_grid g p → sol p = sol' p.

Definition unique_solution (g : Grid) : Prop :=
  ∃ sol, is_solution g sol ∧ ∀ sol', is_solution g sol' → same_on g sol sol'.

(** The boards of the counterexamples. *)
Definition stuck_board : Grid :=
  with_clues (build_cells 2 2 [[0; 0]; [1; 1]]) [((1, 0), 1)].

Definition clashing_board : Grid :=
  with_clues (build_cells 1 2 [[0; 0]]) [((0, 0), 1); ((0, 1), 1)].

(** ** Vocabulary of the proofs about the solver *)

(** [m] does not run out of fuel, and what it returns satisfies [Q]; it
    may raise. *)
Definition ensures {A} (m : outcome A) (Q : A → Prop) : Prop :=
  match m with
  | Ret a => Q a
  | Raise _ => True
  | OutOfFuel => False
  end.

(** [m] returns, and what it returns satisfies [Q]. *)
Definition returns {A} (m : outcome A) (Q : A → Prop) : Prop :=
  match m with
  | Ret a => Q a
  | _ => False
  end.

(** The state of a technique, against the measure [m0] of the board it
    started from: the measure has not grown, and it has shrunk if the
    technique reports progress. *)
Definition progress (m0 : nat) (acc : SolverState * bool) : Prop :=
  measure (grid acc.1) ≤ m0 ∧ (acc.2 = true → measure (grid acc.1) < m0).

(** ** Well-formed boards

    What [build_cells] establishes and no operation changes: the matrix
    has [rows] rows of [cols] cells, group ids are distinct, every cell is
    a member of the group its [group_id] names, the members of a group are
    cells of the board carrying its id, without repetition, and the size of
    a group is the number of its members. *)
Definition wf_grid (g : Grid) : Prop :=
  length (cells g) = rows g
  ∧ (∀ row, row ∈ cells g → length row = cols g)
  ∧ NoDup (g_id <$> groups g)
  ∧ (∀ p c, cell_at g p = Some c →
       ∃ G, G ∈ groups g ∧ g_id G = group_id c ∧ p ∈ g_cells G)
  ∧ (∀ G q, G ∈ groups g → q ∈ g_cells G →
       ∃ c, cell_at g q = Some c ∧ group_id c = g_id G)
  ∧ (∀ G, G ∈ groups g → NoDup (g_cells G) ∧ g_size G = length (g_cells G)).

(** The cells that constrain [p]: the other members of its group and its
    neighbours. *)
Definition related (g : Grid) (p q : pos) : Prop :=
  q ∈ get_group_peers g p ∨ q ∈ get_neighbors g p.

(** [f] changes the value or the candidates of a cell, never its group. *)
Definition keeps_group (f : Cell → Cell) : Prop :=
  ∀ c, group_id (f c) = group_id c.

(** ** The invariant of the solver on a board that has a solution

    [sound sol g]: the board is well formed, [sol] is a solution of it,
    every empty cell still has its solution value among its candidates,
    the value of a filled cell is a candidate of none of the empty cells it
    constrains, and the candidates of an empty cell lie in [1 .. size] of
    its group. *)
Definition sound (sol : pos → nat) (g : Grid) : Prop :=
  wf_grid g ∧ is_solution g sol
  ∧ (∀ p, is_empty_at g p = true → sol p ∈ cands_at g p)
  ∧ (∀ p v q, value_at g p = Some v → related g p q →
              is_empty_at g q = true → v ∉ cands_at g q)
  ∧ (∀ p G v, is_empty_at g p = true → group_of g p = Some G →
              v ∈ cands_at g p → v ∈ full_range (g_size G)).

(** [g'] is [g] after some cells were filled and some candidates removed. *)
Definition reduct (g g' : Grid) : Prop :=
  rows g' = rows g ∧ cols g' = cols g ∧ groups g' = groups g
  ∧ (∀ p, is_empty_at g' p = true → is_empty_at g p = true)
  ∧ (∀ p x, x ∈ cands_at g' p → x ∈ cands_at g p).

(** [g'] is [g] after some candidates were removed, no cell filled. *)
Definition narrowed (g g' : Grid) : Prop :=
  rows g' = rows g ∧ cols g' = cols g ∧ groups g' = groups g
  ∧ (∀ p, is_empty_at g' p = is_empty_at g p)
  ∧ (∀ p x, x ∈ cands_at g' p → x ∈ cands_at g p).

(** The candidate sets after [value] was discarded at the cells [qs]. *)
Definition discard_all (v : nat) (qs : list pos) (g : Grid) : Grid :=
  fold_left (λ g q, upd g q (map_candidates (discard v))) qs g.

(** [m] does not raise, and what it returns satisfies [Q]. *)
Definition noraise {A} (m : outcome A) (Q : A → Prop) : Prop :=
  match m with
  | Ret a => Q a
  | Raise _ => False
  | OutOfFuel => True
  end.

(** ** Boards whose clues are consistent

    Every value on the board lies in [1 .. size] of the group of its cell
    and differs from the value of every cell that constrains it. *)
Definition consistent (g : Grid) : Prop :=
  ∀ p v, value_at g p = Some v →
    (∀ G, group_of g p = Some G → v ∈ full_range (g_size G))
    ∧ (∀ q, related g p q → value_at g q ≠ Some v).

(** What a count [n] up to the limit 2 says about the solutions of [g]
    whose value at [p] is one of [vals]. *)
Definition counts_in (g : Grid) (p : pos) (vals : list nat) (n : nat) : Prop :=
  (n = 0 ∧ ∀ sol, is_solution g sol → sol p ∉ vals)
  ∨ (n = 1 ∧ ∃ sol, is_solution g sol ∧ sol p ∈ vals
            ∧ ∀ sol', is_solution g sol' → sol' p ∈ vals → same_on g sol sol')
  ∨ (n = 2 ∧ ∃ s1 s2, is_solution g s1 ∧ is_solution g s2 ∧ ¬ same_on g s1 s2).

(** What a count [n] up to the limit 2 says about the solutions of [g]. *)
Definition counts (g : Grid) (n : nat) : Prop :=
  (n = 0 ∧ ¬ ∃ sol, is_solution g sol)
  ∨ (n = 1 ∧ unique_solution g)
  ∨ (n = 2 ∧ ∃ s1 s2, is_solution g s1 ∧ is_solution g s2 ∧ ¬ same_on g s1 s2).

(** ** Layouts

    A layout has the shape of the board when it has one row per row of the
    board and one id per cell. *)
Definition shaped (nrows mcols : nat) (layout : list (list nat)) : Prop :=
  length layout = nrows ∧ ∀ row, row ∈ layout → length row = mcols.

(** [group_sizes.get(gid)] *)
Definition dict_get (gid : nat) (d : list (nat * nat)) : option nat :=
  snd <$> List.find (λ kv, kv.1 =? gid) d.

(** The number of occurrences of [k]. *)
Definition occurrences (k : nat) (l : list nat) : nat :=
  length (filter (λ x, x = k) l).

(** What [_fill_grid_recursive] leaves of the board [g] it was given: a
    complete board when it returns [True], the board [g] itself when it
    returns [False]. *)
Definition fill_post (g : Grid) (o : Generator.fill_outcome) : Prop :=
  match o with
  | Generator.FillRet true s =>
      wf_grid (Generator.f_grid s) ∧ consistent (Generator.f_grid s)
      ∧ is_complete (Generator.f_grid s) = true
      ∧ rows (Generator.f_grid s) = rows g ∧ cols (Generator.f_grid s) = cols g
  | Generator.FillRet false s => Generator.f_grid s = g
  | Generator.FillRaise _ => True
  | Generator.FillFuel => False
  end.

(** The first [n] attempts of a run of [generate] that starts with the
    tape [t] all end in [continue], and leave the tape [t']. *)
Fixpoint failed_attempts (n : nat) (cfg : Generator.Config) (t t' : tape) : Prop :=
  match n with
  | 0 => t' = t
  | S n' => ∃ t1, Generator.attempt cfg t = Ret (None, t1)
                  ∧ failed_attempts n' cfg t1 t'
  end.

(** The board of the examples: one row of two cells in one group, the
    first cell filled. *)
Definition pair_board : Grid := build_cells 1 2 [[0; 0]].

Definition pair_solution (p : pos) : nat := if p.2 =? 0 then 1 else 2.

Definition pair_puzzle : Grid := with_clues pair_board [((0, 0), 1)].

(** [g'] is [g] with some of its empty cells filled: the same shape, the
    same groups and group ids, and every value of [g] still in place. *)
Definition filled_from (g g' : Grid) : Prop :=
  rows g' = rows g ∧ cols g' = cols g ∧ groups g' = groups g
  ∧ (∀ p, group_id <$> cell_at g' p = group_id <$> cell_at g p)
  ∧ (∀ p v, value_at g p = Some v → value_at g' p = Some v).

(** The dictionary [group_sizes] of the region generator agrees with the
    layout: it has one entry per cell of the grid, and the entry of an id
    is the number of cells that carry the id. *)
Definition tracked (nrows mcols : nat)
    (st : GroupGenerator.layout * list nat) : Prop :=
  shaped nrows mcols st.1 ∧ length st.2 = nrows * mcols
  ∧ ∀ gid, GroupGenerator.size_of st.2 gid = occurrences gid (concat st.1).

(** [q] is orthogonally adjacent to [p]. *)
Definition orth_adjacent (p q : pos) : Prop :=
  (q.2 = p.2 ∧ (q.1 + 1 = p.1 ∨ q.1 = p.1 + 1))
  ∨ (q.1 = p.1 ∧ (q.2 + 1 = p.2 ∨ q.2 = p.2 + 1)).

(** The cell [q] is empty and has no candidate other than [v]: discarding
    [v] there leaves it without candidates. *)
Definition starved (v : nat) (g : Grid) (q : pos) : Prop :=
  is_empty_at g q = true ∧ discard v (cands_at g q) = [].

(** ** Serializer ([serializer.py])

    [save_puzzle] builds the dictionary [data], rates the board, and writes
    the entries [rows], [cols], [groups], [layout], [puzzle] and [solution]
    of [data] as JSON text; [load_puzzle] reads the text back with
    [json.load] and uses the entries [rows], [cols], [layout], [puzzle] and
    [solution].  The model is in terms of what the file holds: the text
    itself and its parsing are the [json] library's.  The [solution]
    attribute of a board is passed beside the board. *)
Record PuzzleFile := mkFile {
  file_rows : nat;
  file_cols : nat;
  file_groups : list (nat * nat);
  file_layout : list (list nat);
  file_puzzle : list (list (option nat));
  file_solution : option (list (list (option nat)))
}.

(** What the two functions end with: a result, an [IndexError] of a list
    access, or what [rate] raised. *)
Inductive io_outcome (A : Type) : Type :=
  | Done (a : A)
  | IndexError
  | SolverRaise (e : exn)
  | SolverFuel.
Arguments Done {A} a.
Arguments IndexError {A}.
Arguments SolverRaise {A} e.
Arguments SolverFuel {A}.

(** [m[r][c]] *)
Definition matrix_at {A} (m : list (list A)) (p : pos) : option A :=
  row ← m !! p.1; row !! p.2.

(** The loops [for r in range(grid.rows): for c in range(grid.cols)]
    that read a field of [grid.cells[r][c]]. *)
Definition read_matrix {A} (g : Grid) (f : Cell → A) : option (list (list A)) :=
  mapM (λ r, mapM (λ c, f <$> cell_at g (r, c)) (seq 0 (cols g))) (seq 0 (rows g)).

Definition save_puzzle (g : Grid) (solution : option Grid) : io_outcome PuzzleFile :=
  let groups_data := map (λ G, (g_id G, g_size G)) (groups g) in
  match read_matrix g group_id with
  | None => IndexError
  | Some layout =>
      match read_matrix g value with
      | None => IndexError
      | Some puzzle =>
          let sol := (λ s, map (map value) (cells s)) <$> solution in
          match rate g with
          | Ret _ => Done (mkFile (rows g) (cols g) groups_data layout puzzle sol)
          | Raise e => SolverRaise e
          | OutOfFuel => SolverFuel
          end
      end
  end.

(** [Grid(rows, cols)] followed by [build_cells(layout)]: the access
    [group_map[r][c]] fails outside the layout. *)
Definition build_cells_checked (nrows mcols : nat) (layout : list (list nat))
  : option Grid :=
  if forallb (λ p, bool_decide (is_Some (matrix_at layout p)))
             (positions nrows mcols)
  then Some (build_cells nrows mcols layout)
  else None.

(** [grid.cells[r][c].value = values[r][c]] over the board. *)
Definition set_values (g : Grid) (values : list (list (option nat))) : option Grid :=
  fold_left (λ og p, g ← og; v ← matrix_at values p; Some (upd g p (set_value v)))
            (positions (rows g) (cols g)) (Some g).

Definition load_board (d : PuzzleFile) (values : list (list (option nat)))
  : option Grid :=
  g ← build_cells_checked (file_rows d) (file_cols d) (file_layout d);
  set_values g values.

Definition load_puzzle (d : PuzzleFile) : io_outcome (Grid * option Grid) :=
  match load_board d (file_puzzle d) with
  | None => IndexError
  | Some grid =>
      match file_solution d with
      | None => Done (grid, None)
      | Some values =>
          match load_board d values with
          | None => IndexError
          | Some solution => Done (grid, Some solution)
          end
      end
  end.

(** The cell as the file keeps it: its value and its group id. *)
Definition stored_cell (c : Cell) : Cell := mkCell (value c) [] (group_id c).

(** One orthogonal step between two cells of the grid that carry the same
    group id [gid]. *)
Definition group_step (nrows mcols : nat) (l : GroupGenerator.layout)
    (gid : nat) (p q : pos) : Prop :=
  orth_adjacent p q
  ∧ p ∈ positions nrows mcols ∧ q ∈ positions nrows mcols
  ∧ layout_at l p = gid ∧ layout_at l q = gid.

(** The group [gid] is orthogonally connected: any two of its cells are
    joined by a path of orthogonal steps through cells of the group. *)
Definition connected_group (nrows mcols : nat) (l : GroupGenerator.layout)
    (gid : nat) : Prop :=
  ∀ p q, p ∈ positions nrows mcols → q ∈ positions nrows mcols →
         layout_at l p = gid → layout_at l q = gid →
         rtc (group_step nrows mcols l gid) p q.

(** *** [GroupGenerator._is_connected]

    The four [neighbors] of the loop.  [(row - 1, col)] on row 0 and
    [(row, col - 1)] on column 0 have a negative coordinate: they are in no
    set of cells of a grid, and are left out. *)
Definition bfs_neighbors (p : pos) : list pos :=
  (if 0 <? p.1 then [(p.1 - 1, p.2)] else [])
  ++ [(p.1 + 1, p.2)]
  ++ (if 0 <? p.2 then [(p.1, p.2 - 1)] else [])
  ++ [(p.1, p.2 + 1)].

(** The loop [while queue]: the state is the set [visited] and the list
    [queue]; the result is [visited] when the queue is empty. *)
Fixpoint bfs_loop (fuel : nat) (cells_set visited queue : list pos)
  : option (list pos) :=
  match fuel with
  | 0 => None
  | S fuel' =>
      match queue with
      | [] => Some visited
      | current :: rest =>
          if bool_decide (current ∈ visited)
          then bfs_loop fuel' cells_set visited rest
          else
            let visited' := visited ++ [current] in
            bfs_loop fuel' cells_set visited'
              (rest ++ filter (λ n, n ∈ cells_set ∧ n ∉ visited')
                              (bfs_neighbors current))
      end
  end.

(** [None] is running out of fuel. *)
Definition is_connected (cells : list pos) : option bool :=
  match cells with
  | [] => Some true
  | first :: _ =>
      visited ← bfs_loop (4 * length cells + 2) cells [] [first];
      Some (length visited =? length cells)
  end.

(** One orthogonal step between two cells of [cells]. *)
Definition cell_step (cells : list pos) (p q : pos) : Prop :=
  orth_adjacent p q ∧ p ∈ cells ∧ q ∈ cells.

(** *** [test_groups_are_connected]

    [groups[gid]] of the test: the cells that carry [gid], collected row by
    row over [range(len(layout))] and [range(len(layout[0]))]. *)
Definition cells_of_group (layout : GroupGenerator.layout) (gid : nat)
  : list pos :=
  filter (λ p, layout_at layout p = gid)
    (positions (length layout) (length (default [] (head layout)))).

(** The technique names a run of [solve] with ceiling [max_difficulty] may
    record: the two of level 1 always, the one of level 2 from ceiling 2,
    the two of level 3 from ceiling 3. *)
Definition within_ceiling (max_difficulty : Z) (name : string) : Prop :=
  name ∈ ["naked_single"; "hidden_single"]
  ∨ ((2 ≤ max_difficulty)%Z ∧ name = "neighbor_elimination")
  ∨ ((3 ≤ max_difficulty)%Z ∧ name ∈ ["naked_subsets"; "hidden_pairs"]).

(** Every technique the state has recorded satisfies [P]. *)
Definition recorded (P : string → Prop) (st : SolverState) : Prop :=
  Forall P (techniques_used st).

(** The removal loop as the design document words it.  The shuffled
    cells are taken in order, with the board and the number of removals
    accepted so far; the loop ends with the cells, or stops once
    [max_removals] removals are accepted.  A cell is tentatively blanked;
    the removal is accepted if (a) the propagation solver with the target
    level as ceiling fully solves the blanked board and (b) the blanked
    board has exactly one completion; otherwise the board is the board
    before the removal. *)
Inductive removal_run (target_difficulty max_removals : Z)
  : list pos → Grid → nat → Grid → nat → Prop :=
  | run_end g n :
      removal_run target_difficulty max_removals [] g n g n
  | run_stop cell rest g n :
      (max_removals ≤ Z.of_nat n)%Z →
      removal_run target_difficulty max_removals (cell :: rest) g n g n
  | run_accept cell rest g n g' n' result :
      (Z.of_nat n < max_removals)%Z →
      solve (clone (upd g cell (set_value None))) target_difficulty = Ret result →
      solved result = true →
      unique_solution (upd g cell (set_value None)) →
      removal_run target_difficulty max_removals rest
                  (upd g cell (set_value None)) (S n) g' n' →
      removal_run target_difficulty max_removals (cell :: rest) g n g' n'
  | run_restore cell rest g n g' n' result :
      (Z.of_nat n < max_removals)%Z →
      solve (clone (upd g cell (set_value None))) target_difficulty = Ret result →
      ¬ (solved result = true ∧ unique_solution (upd g cell (set_value None))) →
      removal_run target_difficulty max_removals rest g n g' n' →
      removal_run target_difficulty max_removals (cell :: rest) g n g' n'.


(** * Properties *)

(** ** Reasoning about outcomes *)

Lemma bind_Ret_inv {A B} (m : outcome A) (k : A → outcome B) (b : B) :
  m ≫= k = Ret b → ∃ a, m = Ret a ∧ k a = Ret b.
Proof. destruct m; cbn; intros; try done. eauto. Qed.

Lemma bind_Ret {A B} (a : A) (k : A → outcome B) : Ret a ≫= k = k a.
Proof. done. Qed.

Lemma bind_Raise {A B} (e : exn) (k : A → outcome B) : Raise e ≫= k = Raise e.
Proof. done. Qed.

(** ** The technique ladder stops at level 3 *)

Lemma solve_pass_ceiling (st : SolverState) :
  solve_pass 4 st = solve_pass 3 st.
Proof. reflexivity. Qed.

Lemma solve_loop_ceiling (fuel : nat) (st : SolverState) :
  solve_loop fuel 4 st = solve_loop fuel 3 st.
Proof.
  revert st. induction fuel as [|fuel IH]; intros st; [reflexivity|].
  cbn [solve_loop]. rewrite solve_pass_ceiling.
  destruct (solve_pass 3 st) as [[st' again]| |]; [|done..].
  rewrite !bind_Ret. destruct again; [apply IH|done].
Qed.

Lemma solve_ceiling (g : Grid) : solve g 4 = solve g 3.
Proof. unfold solve. by rewrite solve_loop_ceiling. Qed.

Lemma rate_levels_cons (g : Grid) (level : Z) (rest : list Z) (n : Z) :
  rate_levels g (level :: rest) = Ret n →
  ∃ r, solve (clone g) level = Ret r
       ∧ (solved r = true ∧ n = level ∨ solved r = false ∧ rate_levels g rest = Ret n).
Proof.
  cbn [rate_levels]. intros (r & Hs & Hr)%bind_Ret_inv.
  exists r. split; [done|]. destruct (solved r); [left|right]; split; congruence.
Qed.

(** C9.  [solve] with [max_difficulty = 4] returns what it returns with
    [max_difficulty = 3] (same solved flag, board and techniques), and
    [rate] returns 4 only by its fallback: then no level solves the board,
    level 4 included. *)
Theorem solve_level4_is_level3 (g : Grid) :
  solve g 4 = solve g 3
  ∧ (rate g = Ret 4%Z →
     ∀ level, level ∈ [1; 2; 3; 4]%Z →
       ∃ r, solve (clone g) level = Ret r ∧ solved r = false).
Proof.
  split; [apply solve_ceiling|].
  intros Hrate level Hin. unfold rate in Hrate.
  apply rate_levels_cons in Hrate as (r1 & H1 & [[_ ?]|[S1 Hrate]]); [done|].
  apply rate_levels_cons in Hrate as (r2 & H2 & [[_ ?]|[S2 Hrate]]); [done|].
  apply rate_levels_cons in Hrate as (r3 & H3 & [[_ ?]|[S3 Hrate]]); [done|].
  assert (H4 : solve (clone g) 4 = Ret r3) by (by rewrite solve_ceiling).
  repeat (apply elem_of_cons in Hin as [->|Hin]); eauto.
  by apply elem_of_nil in Hin.
Qed.

(** A board no technique completes: two empty cells in one group. *)
Lemma solve_level4_is_level3_witness :
  let g := build_cells 1 2 [[0; 0]] in
  rate g = Ret 4%Z
  ∧ ∀ level, level ∈ [1; 2; 3; 4]%Z →
      ∃ r, solve (clone g) level = Ret r ∧ solved r = false.
Proof.
  intros g. split; [by vm_compute|].
  apply (solve_level4_is_level3 g). by vm_compute.
Defined.

(** C10.  The [difficulty] field of every result [solve] returns is the
    constant 1, whatever the board, the ceiling and the techniques used. *)
Theorem solve_difficulty_constant (g : Grid) (max_difficulty : Z) (r : SolveResult) :
  solve g max_difficulty = Ret r → difficulty r = 1%Z.
Proof.
  unfold solve. intros (st & _ & H)%bind_Ret_inv. by inversion H.
Qed.

Lemma solve_difficulty_constant_witness :
  match solve (build_cells 1 2 [[0; 0]]) 3 with
  | Ret r => difficulty r = 1%Z
  | _ => False
  end.
Proof.
  destruct (solve (build_cells 1 2 [[0; 0]]) 3) as [r| |] eqn:E.
  - exact (solve_difficulty_constant _ _ _ E).
  - by vm_compute in E.
  - by vm_compute in E.
Defined.

(** ** [get_neighbors] *)

Lemma out_of_bounds_false g x y :
  out_of_bounds g x y = false ↔
  (0 ≤ x < Z.of_nat (rows g))%Z ∧ (0 ≤ y < Z.of_nat (cols g))%Z.
Proof.
  unfold out_of_bounds. rewrite !orb_false_iff, !Z.ltb_ge, !Z.leb_gt. lia.
Qed.

Lemma neighbor_fold g p ds acc n :
  fold_left (neighbor_step g p) ds (acc, n)
  = (acc ++ stored g p ds, n + length (filter (λ d, oob_at g p d = true) ds)).
Proof.
  revert acc n. induction ds as [|d ds IH]; intros acc n.
  { cbn. by rewrite app_nil_r, Nat.add_0_r. }
  cbn [fold_left]. unfold stored. rewrite !filter_cons.
  unfold neighbor_step at 2. fold (oob_at g p d). cbn [fst snd].
  destruct (oob_at g p d) eqn:Hoob.
  - rewrite IH. rewrite (decide_True (P := true = true)) by done.
    rewrite (decide_False (P := true = false ∧ _)) by (intros [? ?]; done).
    cbn [length]. f_equal. lia.
  - rewrite (decide_False (P := false = true)) by done.
    fold (off_center d). case_bool_decide as Hc.
    + rewrite IH. rewrite (decide_True (P := false = false ∧ _)) by done.
      unfold stored. rewrite fmap_cons. unfold shift at 2. by rewrite <- app_assoc.
    + rewrite IH. rewrite (decide_False (P := false = false ∧ _)) by (intros [? ?]; done). done.
Qed.

Lemma stored_count g p ds :
  oob_at g p (0, 0)%Z = false →
  length (stored g p ds) + length (filter (λ d, oob_at g p d = true) ds)
  = length (filter off_center ds).
Proof.
  intros Hc. unfold stored. rewrite length_fmap.
  induction ds as [|d ds IH]; [done|].
  rewrite !filter_cons.
  destruct (decide (off_center d)) as [Hd|Hd].
  - destruct (oob_at g p d) eqn:Hoob.
    + rewrite (decide_False (P := true = false ∧ _)) by (intros [? ?]; done).
      rewrite (decide_True (P := true = true)) by done. cbn. lia.
    + rewrite (decide_True (P := false = false ∧ _)) by done.
      rewrite (decide_False (P := false = true)) by done. cbn. lia.
  - assert (d = (0, 0)%Z) as ->.
    { destruct d as [a b]. unfold off_center in Hd. cbn in Hd. f_equal; lia. }
    rewrite Hc. rewrite (decide_False (P := false = false ∧ _)) by (intros [? ?]; done).
    rewrite (decide_False (P := false = true)) by done. done.
Qed.

Lemma in_grid_center g p : in_grid g p → oob_at g p (0, 0)%Z = false.
Proof.
  intros [? ?]. unfold oob_at. apply out_of_bounds_false. cbn. lia.
Qed.

Lemma get_neighbors_stored g p :
  in_grid g p → get_neighbors g p = stored g p offsets.
Proof.
  intros Hp. unfold get_neighbors. rewrite neighbor_fold. cbn [fst snd app].
  apply take_ge.
  pose proof (stored_count g p offsets (in_grid_center g p Hp)) as Hc.
  assert (length (filter off_center offsets) = 8) as Hlen by (by vm_compute).
  lia.
Qed.

Lemma elem_of_offsets d :
  d ∈ offsets ↔ (-1 ≤ d.1 ≤ 1)%Z ∧ (-1 ≤ d.2 ≤ 1)%Z.
Proof.
  destruct d as [a b]. unfold offsets. cbn. rewrite !elem_of_cons, elem_of_nil.
  split.
  - intros H. repeat destruct H as [H|H]; try done; inversion H; lia.
  - intros [? ?].
    assert (a = -1 ∨ a = 0 ∨ a = 1)%Z as Ha by lia.
    assert (b = -1 ∨ b = 0 ∨ b = 1)%Z as Hb by lia.
    destruct Ha as [-> | [-> | ->]]; destruct Hb as [-> | [-> | ->]]; tauto.
Qed.

Lemma get_neighbors_spec g p q :
  in_grid g p → q ∈ get_neighbors g p ↔ in_grid g q ∧ adjacent p q.
Proof.
  intros Hp. rewrite get_neighbors_stored by done. unfold stored.
  rewrite list_elem_of_fmap. setoid_rewrite list_elem_of_filter.
  setoid_rewrite elem_of_offsets. unfold oob_at.
  setoid_rewrite out_of_bounds_false.
  destruct p as [r c], q as [a b]. unfold in_grid, adjacent, off_center, shift in *. cbn in *.
  split.
  - intros ([d1 d2] & Heq & ([? ?] & Hoff) & ? & ?). cbn in *.
    inversion Heq; subst. split; [lia|].
    split; [|lia]. intros Heq'. inversion Heq'. lia.
  - intros ([? ?] & Hne & ?).
    exists (Z.of_nat a - Z.of_nat r, Z.of_nat b - Z.of_nat c)%Z. cbn.
    split; [f_equal; lia|]. split; [|lia]. split; [lia|].
    destruct (decide (a = r)) as [->|]; [|lia].
    destruct (decide (b = c)) as [->|]; [done|lia].
Qed.

Lemma get_neighbors_NoDup g p : in_grid g p → NoDup (get_neighbors g p).
Proof.
  intros Hp. rewrite get_neighbors_stored by done. unfold stored.
  apply NoDup_fmap_2_strong.
  - intros [a1 b1] [a2 b2] [[H1 _] _]%list_elem_of_filter [[H2 _] _]%list_elem_of_filter Heq.
    unfold oob_at in *. apply out_of_bounds_false in H1, H2.
    unfold shift in Heq. cbn in *. inversion Heq. f_equal; lia.
  - apply NoDup_filter. apply (bool_decide_unpack _). by vm_compute.
Qed.

Lemma get_neighbors_length g p :
  in_grid g p →
  length (get_neighbors g p) ≤ 8
  ∧ (2 ≤ rows g → 2 ≤ cols g → 3 ≤ length (get_neighbors g p)).
Proof.
  intros Hp. split.
  - rewrite get_neighbors_stored by done.
    pose proof (stored_count g p offsets (in_grid_center g p Hp)) as Hc.
    assert (length (filter off_center offsets) = 8) as Hlen by (by vm_compute).
    lia.
  - intros Hr Hc. destruct p as [r c]. destruct Hp as [Hpr Hpc]. cbn in *.
    set (r' := if decide (r = 0) then 1 else r - 1).
    set (c' := if decide (c = 0) then 1 else c - 1).
    assert (r' < rows g ∧ r' ≠ r ∧ r' ≤ r + 1 ∧ r ≤ r' + 1) as (?&?&?&?)
      by (unfold r'; case_decide; lia).
    assert (c' < cols g ∧ c' ≠ c ∧ c' ≤ c + 1 ∧ c ≤ c' + 1) as (?&?&?&?)
      by (unfold c'; case_decide; lia).
    change 3 with (length [(r', c); (r, c'); (r', c')]).
    apply submseteq_length, NoDup_submseteq.
    + repeat (apply NoDup_cons_2 || apply NoDup_nil_2);
        rewrite ?elem_of_cons, ?elem_of_nil; intros Hx;
        repeat destruct Hx as [Hx|Hx]; try done; inversion Hx; lia.
    + intros q Hq. apply get_neighbors_spec; [done|].
      unfold in_grid, adjacent.
      repeat (apply elem_of_cons in Hq as [->|Hq]); cbn;
        [| | |by apply elem_of_nil in Hq];
        (split; [lia|]); (split; [intros Heq; inversion Heq; lia|lia]).
Qed.

(** C8, as amended.  For every cell of a board, [get_neighbors] returns
    exactly the in-bounds cells 8-directionally adjacent to it, each once:
    never the cell itself, never a position out of bounds, at most 8 cells,
    and at least 3 when the board has at least two rows and two columns. *)
Theorem get_neighbors_adjacent_cells (g : Grid) (p : pos) :
  in_grid g p →
  (∀ q, q ∈ get_neighbors g p ↔ in_grid g q ∧ adjacent p q)
  ∧ NoDup (get_neighbors g p)
  ∧ (p ∉ get_neighbors g p)
  ∧ length (get_neighbors g p) ≤ 8
  ∧ (2 ≤ rows g → 2 ≤ cols g → 3 ≤ length (get_neighbors g p)).
Proof.
  intros Hp. split; [|split; [|split]].
  - intros q. by apply get_neighbors_spec.
  - by apply get_neighbors_NoDup.
  - intros [_ [Hne _]]%get_neighbors_spec; done.
  - by apply get_neighbors_length.
Qed.

Lemma get_neighbors_adjacent_cells_witness :
  let g := build_cells 2 2 [[0; 0]; [1; 1]] in
  in_grid g (0, 0) ∧ 3 ≤ length (get_neighbors g (0, 0)) ≤ 8.
Proof.
  intros g.
  assert (Hp : in_grid g (0, 0)) by (split; cbn; lia).
  destruct (get_neighbors_adjacent_cells g (0, 0) Hp) as (_ & _ & _ & Hle & Hge).
  split; [done|]. split; [apply Hge; cbn; lia|done].
Defined.

(** C8 as stated fails on a board with a single row or column: the only
    cell of a 1 x 1 board has no neighbour. *)
Lemma get_neighbors_single_cell :
  let g := build_cells 1 1 [[0]] in
  in_grid g (0, 0) ∧ ¬ (3 ≤ length (get_neighbors g (0, 0))).
Proof.
  intros g. split; [split; cbn; lia|].
  assert (length (get_neighbors g (0, 0)) = 0) as -> by (by vm_compute). lia.
Qed.

(** ** Layout generation *)

(** C2, at a failing input.  With [min_size = max_size = 2] on a 1 x 3
    grid, whatever the shuffle, the first pass merges one pair and the
    repair loop then merges the remaining single cell into it: the layout
    returned has a group of 3 cells, above [max_size]. *)
Theorem generate_exceeds_max_size (t : tape) :
  ∃ l, (GroupGenerator.generate 2 2 1 3 t).1 = Some l
       ∧ GroupGenerator.sizes_within 2 2 l = false.
Proof.
  destruct t as [|x t].
  { eexists. split; by vm_compute. }
  unfold GroupGenerator.generate, shuffle.
  change (length (GroupGenerator.all_pairs 1 3) - 1) with 1.
  cbn [shuffle_from randbelow].
  assert (x mod 2 = 0 ∨ x mod 2 = 1) as [-> | ->]
    by (pose proof (Nat.mod_upper_bound x 2); lia).
  - eexists. split; by vm_compute.
  - eexists. split; by vm_compute.
Qed.

(** The same defect with the default bounds [2 .. 5], on a 1 x 6 grid when
    the shuffle leaves the pairs in order: the result is one group of 6. *)
Example generate_exceeds_default_max :
  (GroupGenerator.generate 2 5 1 6 [4; 3; 2; 1]).1 = Some [[0; 0; 0; 0; 0; 0]]
  ∧ GroupGenerator.sizes_within 2 5 [[0; 0; 0; 0; 0; 0]] = false.
Proof. split; by vm_compute. Qed.

(** ** Contradictions and clashing clues *)

(** C5 as stated fails: [solve] has no handler.  On this 2 x 2 board the
    clue 1 at (1,0) leaves the two cells of the top group with the single
    candidate 2; placing it in (0,0) empties the candidates of (0,1). *)
Lemma solve_raises_contradiction :
  solve stuck_board 1 = Raise Contradiction.
Proof. by vm_compute. Qed.

(** C1 as stated fails on a board whose clues clash: the complete board
    with 1 in both cells of a group of two counts as one solution, and no
    valid assignment agrees with it. *)
Lemma has_unique_solution_clashing_clues :
  has_unique_solution clashing_board = Ret true
  ∧ ¬ unique_solution clashing_board.
Proof.
  split; [by vm_compute|].
  intros (sol & (Hval & _ & Hadj) & _).
  apply (Hadj (0, 0) (0, 1)).
  - split; cbn; lia.
  - split; cbn; lia.
  - unfold adjacent. cbn. split; [done|lia].
  - rewrite (Hval (0, 0) 1), (Hval (0, 1) 1); [done|by vm_compute..].
Qed.

(** ** Difficulty targeting *)

Lemma attempt_matches_difficulty (cfg : Generator.Config) (t t' : tape)
    (g sol : Grid) :
  Generator.attempt cfg t = Ret (Some (g, sol), t') →
  rate g = Ret (Generator.cfg_difficulty cfg).
Proof.
  unfold Generator.attempt.
  destruct (GroupGenerator.generate _ _ _ _ t) as [[lay|] t1]; [|done].
  intros ([[filled g1] t2] & _ & H)%bind_Ret_inv.
  destruct filled; cbn [negb] in H; [|done].
  apply bind_Ret_inv in H as ([[g2 n] t3] & _ & H).
  apply bind_Ret_inv in H as (actual & Hrate & H).
  destruct (actual =? Generator.cfg_difficulty cfg)%Z eqn:Heq; [|done].
  apply Z.eqb_eq in Heq. inversion H; subst. done.
Qed.

Lemma attempts_match_difficulty (n : nat) (cfg : Generator.Config) (t : tape)
    (g sol : Grid) :
  Generator.attempts n cfg t = Ret (Some (g, sol)) →
  rate g = Ret (Generator.cfg_difficulty cfg).
Proof.
  revert t. induction n as [|n IH]; intros t; [done|].
  cbn [Generator.attempts].
  intros ([[[g' sol']|] t'] & Ha & H)%bind_Ret_inv.
  - inversion H; subst. by eapply attempt_matches_difficulty.
  - by eapply IH.
Qed.

(** C3.  A board [generate] returns has exactly the requested difficulty:
    [rate] of the returned board is the target, so an attempt whose board
    rates differently is never the one returned. *)
Theorem generate_matches_difficulty (cfg : Generator.Config) (t : tape)
    (g sol : Grid) :
  Generator.generate cfg t = Ret (Some (g, sol)) →
  rate g = Ret (Generator.cfg_difficulty cfg).
Proof. apply attempts_match_difficulty. Qed.

Lemma generate_matches_difficulty_witness :
  match Generator.generate (Generator.mkConfig 2 2 1 1%Q 5 2) [] with
  | Ret (Some (g, _)) => rate g = Ret 1%Z
  | _ => False
  end.
Proof.
  destruct (Generator.generate (Generator.mkConfig 2 2 1 1%Q 5 2) [])
    as [[[g sol]|]| |] eqn:E.
  - exact (generate_matches_difficulty _ _ _ _ E).
  - by vm_compute in E.
  - by vm_compute in E.
  - by vm_compute in E.
Defined.

(** ** [Grid.clone] allocates a board of its own *)

Section clone_heap.
Import Heap.

Lemma extends_refl h : extends h h.
Proof.
  split; [exists []; by rewrite app_nil_r|].
  intros l o Hl Hlook. apply lookup_lt_Some in Hlook. lia.
Qed.

Lemma extends_length h0 h : extends h0 h → length h0 ≤ length h.
Proof. intros [[new ->] _]. rewrite length_app. lia. Qed.

Lemma extends_lookup h0 h l : extends h0 h → l < length h0 → h !! l = h0 !! l.
Proof. intros [[new ->] _] Hl. by rewrite lookup_app_l. Qed.

Lemma safe_ret {A} h0 (a : A) (Q : A → Prop) : Q a → safe h0 (ret a) Q.
Proof. intros HQ h a' h' Hext [= <- <-]. done. Qed.

Lemma safe_fail {A} h0 (Q : A → Prop) : safe h0 (@fail A) Q.
Proof. intros h a h' _ H. discriminate H. Qed.

Lemma safe_bind {A B} h0 (m : prog A) (k : A → prog B) (Q : A → Prop) (R : B → Prop) :
  safe h0 m Q → (∀ a, Q a → safe h0 (k a) R) → safe h0 (bind m k) R.
Proof.
  intros Hm Hk h b h' Hext Hrun. unfold bind in Hrun.
  destruct (m h) as [[a h1]|] eqn:Hmh; [|done].
  destruct (Hm _ _ _ Hext Hmh) as [Hext1 HQ].
  by apply (Hk a HQ h1).
Qed.

Lemma safe_weaken {A} h0 (m : prog A) (Q R : A → Prop) :
  safe h0 m Q → (∀ a, Q a → R a) → safe h0 m R.
Proof. intros Hm HQR h a h' Hext Hrun. destruct (Hm _ _ _ Hext Hrun). auto. Qed.

Lemma safe_alloc h0 o : fresh_obj h0 o → safe h0 (alloc o) (fresh h0).
Proof.
  intros Ho h a h' Hext [= <- <-].
  pose proof (extends_length _ _ Hext) as Hlen.
  split; [|done]. destruct Hext as [[new ->] Hptr]. split.
  - exists (new ++ [o]). by rewrite app_assoc.
  - intros l o' Hl Hlook p Hp.
    destruct (decide (l < length (h0 ++ new))) as [Hlt|Hge].
    + rewrite lookup_app_l in Hlook by done. by eapply Hptr.
    + rewrite lookup_app_r in Hlook by lia.
      apply list_lookup_singleton_Some in Hlook as [_ <-]. by apply Ho.
Qed.

Lemma safe_read_any h0 l : safe h0 (read l) (λ _, True).
Proof.
  intros h a h' Hext Hrun. unfold read in Hrun.
  destruct (h !! l) eqn:E; cbn in Hrun; [|done].
  by inversion Hrun; subst.
Qed.

Lemma safe_read h0 l : fresh h0 l → safe h0 (read l) (fresh_obj h0).
Proof.
  intros Hl h a h' Hext Hrun. unfold read in Hrun.
  destruct (h !! l) eqn:E; cbn in Hrun; [|done].
  inversion Hrun; subst. split; [done|].
  intros p Hp. destruct Hext as [_ Hptr]. by eapply Hptr.
Qed.

Lemma safe_write h0 l o :
  fresh h0 l → fresh_obj h0 o → safe h0 (write l o) (λ _, True).
Proof.
  intros Hl Ho h a h' Hext Hrun. unfold write in Hrun.
  case_decide as Hlt; [|done]. inversion Hrun; subst. split; [|done].
  destruct Hext as [[new ->] Hptr]. split.
  - exists (<[l - length h0 := o]> new). by rewrite insert_app_r_alt.
  - intros l' o' Hl' Hlook p Hp.
    destruct (decide (l' = l)) as [->|Hne].
    + rewrite list_lookup_insert_eq in Hlook by done.
      inversion Hlook; subst. by apply Ho.
    + rewrite list_lookup_insert_ne in Hlook by done. by eapply Hptr.
Qed.

Lemma safe_list_get h0 lst i : fresh h0 lst → safe h0 (list_get lst i) (fresh h0).
Proof.
  intros Hl. unfold list_get. eapply safe_bind; [by apply safe_read|].
  intros [| |items| |] Ho; try apply safe_fail.
  destruct (items !! i) as [x|] eqn:E; [|apply safe_fail].
  apply safe_ret. apply Ho. cbn. by eapply list_elem_of_lookup_2.
Qed.

Lemma safe_list_append h0 lst x :
  fresh h0 lst → fresh h0 x → safe h0 (list_append lst x) (λ _, True).
Proof.
  intros Hl Hx. unfold list_append. eapply safe_bind; [by apply safe_read|].
  intros [| |items| |] Ho; try apply safe_fail.
  apply safe_write; [done|]. intros p Hp. cbn in Hp.
  apply elem_of_app in Hp as [Hp|Hp]; [by apply Ho|].
  by apply list_elem_of_singleton in Hp as ->.
Qed.

Lemma safe_for_each {A} h0 (xs : list A) (body : A → prog unit) :
  (∀ x, x ∈ xs → safe h0 (body x) (λ _, True)) →
  safe h0 (for_each xs body) (λ _, True).
Proof.
  induction xs as [|x xs IH]; intros Hbody; cbn.
  - by apply safe_ret.
  - eapply safe_bind; [apply Hbody; left|].
    intros _ _. apply IH. intros y Hy. apply Hbody. by right.
Qed.

Lemma fresh_obj_nil_set h0 elems : fresh_obj h0 (OSet elems).
Proof. intros p Hp. cbn in Hp. by apply elem_of_nil in Hp. Qed.

Lemma fresh_obj_nil_list h0 : fresh_obj h0 (OList []).
Proof. intros p Hp. cbn in Hp. by apply elem_of_nil in Hp. Qed.

Lemma fresh_obj_cell h0 r c v s gid : fresh h0 s → fresh_obj h0 (OCell r c v s gid).
Proof. intros Hs p Hp. cbn in Hp. by apply list_elem_of_singleton in Hp as ->. Qed.

Lemma fresh_obj_group h0 id size ms : fresh h0 ms → fresh_obj h0 (OGroup id size ms).
Proof. intros Hs p Hp. cbn in Hp. by apply list_elem_of_singleton in Hp as ->. Qed.

Lemma safe_new_cell h0 r c gid v : safe h0 (new_cell r c gid v) (fresh h0).
Proof.
  unfold new_cell. eapply safe_bind; [apply safe_alloc, fresh_obj_nil_set|].
  intros s Hs. by apply safe_alloc, fresh_obj_cell.
Qed.

Lemma safe_new_group h0 id size : safe h0 (new_group id size) (fresh h0).
Proof.
  unfold new_group. eapply safe_bind; [apply safe_alloc, fresh_obj_nil_list|].
  intros s Hs. by apply safe_alloc, fresh_obj_group.
Qed.

Lemma safe_new_grid h0 nrows mcols : safe h0 (new_grid nrows mcols) (fresh h0).
Proof.
  unfold new_grid. eapply safe_bind; [apply safe_alloc, fresh_obj_nil_list|].
  intros cs Hcs. eapply safe_bind; [apply safe_alloc, fresh_obj_nil_list|].
  intros gs Hgs. apply safe_alloc. intros p Hp. cbn in Hp.
  repeat (apply elem_of_cons in Hp as [->|Hp]); try done.
  by apply elem_of_nil in Hp.
Qed.

Lemma safe_list_get_any h0 lst i : safe h0 (list_get lst i) (λ _, True).
Proof.
  unfold list_get. eapply safe_bind; [by apply safe_read_any|].
  intros [| |items| |] _; try apply safe_fail.
  destruct (items !! i) as [x|] eqn:E; [|apply safe_fail].
  by apply safe_ret.
Qed.

Lemma safe_clone_cell h0 self_cells row r c :
  fresh h0 row → safe h0 (clone_cell self_cells row r c) (λ _, True).
Proof.
  intros Hrow. unfold clone_cell.
  eapply safe_bind; [apply safe_list_get_any|]. intros old_row _.
  eapply safe_bind; [apply safe_list_get_any|]. intros old_cell _.
  eapply safe_bind; [apply safe_read_any|]. intros o _.
  destruct o as [orow ocol oval ocands ogid| | | |]; try apply safe_fail.
  eapply safe_bind; [apply safe_new_cell|]. intros new_c Hc.
  eapply safe_bind; [apply safe_read_any|]. intros s _.
  destruct s as [|elems| | |]; try apply safe_fail.
  eapply safe_bind; [apply safe_alloc, fresh_obj_nil_set|]. intros new_s Hs.
  eapply safe_bind; [by apply safe_write, fresh_obj_cell|]. intros _ _.
  by apply safe_list_append.
Qed.

Lemma safe_clone_row h0 self_cells new_cells mcols r :
  fresh h0 new_cells → safe h0 (clone_row self_cells new_cells mcols r) (λ _, True).
Proof.
  intros Hnew. unfold clone_row.
  eapply safe_bind; [apply safe_alloc, fresh_obj_nil_list|]. intros row Hrow.
  eapply safe_bind.
  { apply safe_for_each. intros c _. by apply safe_clone_cell. }
  intros _ _. by apply safe_list_append.
Qed.

Lemma safe_clone_member h0 new_cells new_members cell :
  fresh h0 new_cells → fresh h0 new_members →
  safe h0 (clone_member new_cells new_members cell) (λ _, True).
Proof.
  intros Hc Hm. unfold clone_member.
  eapply safe_bind; [apply safe_read_any|]. intros o _.
  destruct o as [crow ccol ? ? ?| | | |]; try apply safe_fail.
  eapply safe_bind; [by apply safe_list_get|]. intros new_row Hrow.
  eapply safe_bind; [by apply safe_list_get|]. intros target Ht.
  by apply safe_list_append.
Qed.

Lemma safe_clone_group h0 new_cells new_groups group :
  fresh h0 new_cells → fresh h0 new_groups →
  safe h0 (clone_group new_cells new_groups group) (λ _, True).
Proof.
  intros Hc Hg. unfold clone_group.
  eapply safe_bind; [apply safe_read_any|]. intros o _.
  destruct o as [| | |id size members|]; try apply safe_fail.
  eapply safe_bind; [apply safe_new_group|]. intros ng Hng.
  eapply safe_bind; [by apply safe_read|]. intros ngo Hngo.
  destruct ngo as [| | |? ? new_members|]; try apply safe_fail.
  assert (fresh h0 new_members) as Hnm by (apply Hngo; cbn; left).
  eapply safe_bind; [apply safe_read_any|]. intros ms _.
  destruct ms as [| |cells_of_group| |]; try apply safe_fail.
  eapply safe_bind.
  { apply safe_for_each. intros c _. by apply safe_clone_member. }
  intros _ _. by apply safe_list_append.
Qed.

Lemma safe_clone h0 self : safe h0 (clone self) (fresh h0).
Proof.
  unfold clone.
  eapply safe_bind; [apply safe_read_any|]. intros o _.
  destruct o as [| | | |nrows mcols self_cells self_groups ?]; try apply safe_fail.
  eapply safe_bind; [apply safe_new_grid|]. intros ng Hng.
  eapply safe_bind; [by apply safe_read|]. intros ngo Hngo.
  destruct ngo as [| | | |? ? new_cells new_groups ?]; try apply safe_fail.
  assert (fresh h0 new_cells) as Hnc by (apply Hngo; cbn; left).
  assert (fresh h0 new_groups) as Hngs by (apply Hngo; cbn; right; left).
  eapply safe_bind.
  { apply safe_for_each. intros r _. by apply safe_clone_row. }
  intros _ _.
  eapply safe_bind; [apply safe_read_any|]. intros gs _.
  destruct gs as [| |group_list| |]; try apply safe_fail.
  eapply safe_bind.
  { apply safe_for_each. intros grp _. by apply safe_clone_group. }
  intros _ _. by apply safe_ret.
Qed.

Lemma reach_fresh h0 h l l' :
  extends h0 h → fresh h0 l → reach h l l' → fresh h0 l'.
Proof.
  intros Hext Hl Hreach. induction Hreach as [|l o l' l'' Hlook Hp _ IH]; [done|].
  apply IH. destruct Hext as [_ Hptr]. by eapply Hptr.
Qed.

(** C7.  [clone] returns a board none of whose objects existed before:
    the source heap is a prefix of the heap after the call, every object
    reachable from the clone (grid, row lists, cells, candidate sets, group
    list, groups and their member lists) is newly created, and overwriting
    any object reachable from the clone leaves every object of the source
    heap, hence every field of the source board, as it was. *)
Theorem clone_independent (h h' : heap) (self new_grid : loc) :
  clone self h = Some (new_grid, h') →
  (∀ l, l < length h → h' !! l = h !! l)
  ∧ (∀ l, reach h' new_grid l → length h ≤ l)
  ∧ (∀ l o l0, reach h' new_grid l → l0 < length h → <[l:=o]> h' !! l0 = h !! l0).
Proof.
  intros Hrun.
  destruct (safe_clone h self h new_grid h' (extends_refl h) Hrun) as [Hext Hfresh].
  assert (Hreach : ∀ l, reach h' new_grid l → length h ≤ l).
  { intros l Hl. by apply (reach_fresh h h' new_grid l). }
  split; [|split; [done|]].
  - intros l Hl. by apply extends_lookup.
  - intros l o l0 Hl Hl0. specialize (Hreach l Hl).
    rewrite list_lookup_insert_ne by lia. by apply extends_lookup.
Qed.

Lemma clone_independent_witness :
  match clone 7 sample with
  | Some (new_grid, h') =>
      (∀ l, l < length sample → h' !! l = sample !! l)
      ∧ (∀ l, reach h' new_grid l → length sample ≤ l)
      ∧ (∀ l o l0, reach h' new_grid l → l0 < length sample →
                   <[l:=o]> h' !! l0 = sample !! l0)
  | None => False
  end.
Proof.
  destruct (clone 7 sample) as [[new_grid h']|] eqn:E.
  - exact (clone_independent _ _ _ _ E).
  - by vm_compute in E.
Defined.

End clone_heap.

(** ** Updates of the board *)

Lemma cell_at_upd g p q f :
  cell_at (upd g p f) q = if decide (p = q) then f <$> cell_at g q else cell_at g q.
Proof.
  destruct p as [r c], q as [r' c']. unfold cell_at, upd. cbn.
  rewrite list_lookup_alter.
  destruct (decide (r = r')) as [->|Hr].
  - destruct (cells g !! r') as [row|]; cbn.
    + rewrite list_lookup_alter. destruct (decide (c = c')) as [->|Hc].
      * by rewrite decide_True.
      * rewrite decide_False by congruence. done.
    + by case_decide.
  - rewrite decide_False by congruence. done.
Qed.

Lemma cell_at_upd_eq g p f : cell_at (upd g p f) p = f <$> cell_at g p.
Proof. rewrite cell_at_upd. by rewrite decide_True. Qed.

Lemma cell_at_upd_ne g p q f : p ≠ q → cell_at (upd g p f) q = cell_at g q.
Proof. intros. rewrite cell_at_upd. by rewrite decide_False. Qed.

Lemma alter_None {A} (f : A → A) (l : list A) i : l !! i = None → alter f i l = l.
Proof.
  revert i. induction l as [|x l IH]; intros [|i] H; cbn in *; try done.
  f_equal. by apply IH.
Qed.

Lemma upd_None g p f : cell_at g p = None → upd g p f = g.
Proof.
  destruct g as [nr mc cs gs], p as [r c]. unfold cell_at, upd. cbn.
  intros H. f_equal.
  destruct (cs !! r) as [row|] eqn:Hrow; cbn in H.
  - rewrite (list_alter_ext _ id cs cs r); [by apply list_alter_id| |done].
    intros row' Hrow'. rewrite Hrow in Hrow'. inversion Hrow'; subst.
    by apply alter_None.
  - by apply alter_None.
Qed.

Lemma is_empty_at_Some g p :
  is_empty_at g p = true ↔ ∃ c, cell_at g p = Some c ∧ value c = None.
Proof.
  unfold is_empty_at. destruct (cell_at g p) as [c|].
  - rewrite bool_decide_eq_true. split; [eauto|]. by intros (c' & [= <-] & ?).
  - split; [done|]. by intros (c' & ? & ?).
Qed.

(** ** The measure *)

Lemma sum_list_alter {A} (w : A → nat) (f : A → A) (l : list A) i x :
  l !! i = Some x →
  sum_list (map w (alter f i l)) + w x = sum_list (map w l) + w (f x).
Proof.
  revert i. induction l as [|y l IH]; intros [|i] H; cbn in *; try done.
  - inversion H; subst. lia.
  - specialize (IH i H). lia.
Qed.

Lemma measure_upd g p f c :
  cell_at g p = Some c →
  measure (upd g p f) + weight c = measure g + weight (f c).
Proof.
  destruct p as [r k]. unfold cell_at, measure, upd. cbn.
  destruct (cells g !! r) as [row|] eqn:Hrow; cbn; [|done]. intros Hc.
  pose proof (sum_list_alter (λ row, sum_list (map weight row)) (alter f k)
                (cells g) r row Hrow) as H1.
  pose proof (sum_list_alter weight f row k c Hc) as H2.
  cbn in H1. lia.
Qed.

Lemma measure_upd_le g p f :
  (∀ c, cell_at g p = Some c → weight (f c) ≤ weight c) →
  measure (upd g p f) ≤ measure g.
Proof.
  intros Hw. destruct (cell_at g p) as [c|] eqn:Hc.
  - pose proof (measure_upd g p f c Hc). specialize (Hw c eq_refl). lia.
  - by rewrite upd_None.
Qed.

Lemma measure_upd_lt g p f c :
  cell_at g p = Some c → weight (f c) < weight c →
  measure (upd g p f) < measure g.
Proof. intros Hc Hw. pose proof (measure_upd g p f c Hc). lia. Qed.

Lemma length_discard v s : length (discard v s) ≤ length s.
Proof. apply length_filter. Qed.

Lemma length_discard_lt v s : v ∈ s → length (discard v s) < length s.
Proof. intros H. apply (length_filter_lt _ _ v); [done|]. by intros []. Qed.

Lemma length_set_minus s t : length (set_minus s t) ≤ length s.
Proof. apply length_filter. Qed.

Lemma weight_map_candidates F c :
  length (F (candidates c)) ≤ length (candidates c) →
  weight (map_candidates F c) ≤ weight c.
Proof. unfold weight, map_candidates. cbn. lia. Qed.

(** ** Outcomes *)

Lemma ensures_bind {A B} (m : outcome A) (k : A → outcome B) (Q : A → Prop)
    (R : B → Prop) :
  ensures m Q → (∀ a, Q a → ensures (k a) R) → ensures (m ≫= k) R.
Proof. destruct m; cbn; auto. Qed.

Lemma ensures_weaken {A} (m : outcome A) (Q R : A → Prop) :
  ensures m Q → (∀ a, Q a → R a) → ensures m R.
Proof. destruct m; cbn; auto. Qed.

Lemma ensures_foldM {A S} (body : S → A → outcome S) (I : S → Prop) l s :
  (∀ s x, x ∈ l → I s → ensures (body s x) I) → I s → ensures (foldM body s l) I.
Proof.
  revert s. induction l as [|x l IH]; intros s Hbody Hs; [done|].
  cbn [foldM]. eapply ensures_bind.
  - apply Hbody; [left|done].
  - intros s' Hs'. apply IH; [|done]. intros s'' y Hy. apply Hbody. by right.
Qed.

Lemma returns_bind {A B} (m : outcome A) (k : A → outcome B) (Q : A → Prop)
    (R : B → Prop) :
  returns m Q → (∀ a, Q a → returns (k a) R) → returns (m ≫= k) R.
Proof. destruct m; cbn; auto. Qed.

Lemma returns_weaken {A} (m : outcome A) (Q R : A → Prop) :
  returns m Q → (∀ a, Q a → R a) → returns m R.
Proof. destruct m; cbn; auto. Qed.

Lemma returns_foldM {A S} (body : S → A → outcome S) (I : S → Prop) l s :
  (∀ s x, x ∈ l → I s → returns (body s x) I) → I s → returns (foldM body s l) I.
Proof.
  revert s. induction l as [|x l IH]; intros s Hbody Hs; [done|].
  cbn [foldM]. eapply returns_bind.
  - apply Hbody; [left|done].
  - intros s' Hs'. apply IH; [|done]. intros s'' y Hy. apply Hbody. by right.
Qed.

Lemma returns_inv {A} (m : outcome A) (Q : A → Prop) :
  returns m Q → ∃ a, m = Ret a ∧ Q a.
Proof. destruct m; cbn; [eauto|done..]. Qed.

Lemma fold_left_inv {A S} (step : S → A → S) (I : S → Prop) l s :
  (∀ s x, x ∈ l → I s → I (step s x)) → I s → I (fold_left step l s).
Proof.
  revert s. induction l as [|x l IH]; intros s Hstep Hs; [done|].
  cbn. apply IH.
  - intros s' y Hy. apply Hstep. by right.
  - apply Hstep; [left|done].
Qed.

(** ** Every technique shrinks the measure when it reports progress *)

Lemma propagate_measure v g q :
  ensures (propagate v g q) (λ g', measure g' ≤ measure g).
Proof.
  unfold propagate. case_match; [done|]. cbn.
  apply measure_upd_le. intros c _. apply weight_map_candidates, length_discard.
Qed.

Lemma propagate_all_measure v g qs :
  ensures (foldM (propagate v) g qs) (λ g', measure g' ≤ measure g).
Proof.
  apply (ensures_foldM _ (λ g', measure g' ≤ measure g)); [|done].
  intros g1 q _ Hle. eapply ensures_weaken; [apply propagate_measure|].
  intros g2 Hg2. cbv beta in *. lia.
Qed.

Lemma place_value_measure g p v :
  is_empty_at g p = true →
  ensures (place_value g p v) (λ g', measure g' < measure g).
Proof.
  intros (c & Hc & Hv)%is_empty_at_Some. unfold place_value.
  assert (measure (upd g p (λ c, mkCell (Some v) [] (group_id c))) < measure g) as Hlt.
  { apply (measure_upd_lt _ _ _ c Hc). unfold weight. cbn.
    rewrite Hv. rewrite bool_decide_eq_true_2 by done. cbn. lia. }
  eapply ensures_bind; [apply propagate_all_measure|].
  intros g1 Hg1. eapply ensures_weaken; [apply propagate_all_measure|].
  intros g2 Hg2. cbv beta in *. lia.
Qed.

Lemma progress_tech_add m0 st name g' :
  measure g' < m0 → progress m0 (tech_add name (with_grid st g'), true).
Proof. intros. split; cbn [fst snd tech_add with_grid grid]; lia. Qed.

Lemma progress_with_grid m0 st g' b :
  measure g' ≤ m0 → (b = true → measure g' < m0) →
  progress m0 (with_grid st g', b).
Proof. intros. split; cbn [fst snd with_grid grid]; done. Qed.

Lemma progress_false m0 st b : progress m0 (st, b) → progress m0 (st, false).
Proof. intros [? _]. by split. Qed.

Lemma progress_start st : progress (measure (grid st)) (st, false).
Proof. split; cbn [fst snd]; [lia|done]. Qed.

Lemma progress_le m0 m1 acc : progress m0 acc → m0 ≤ m1 → progress m1 acc.
Proof. intros [? H] ?. split; [lia|]. intros E. specialize (H E). lia. Qed.

Lemma naked_single_progress m0 st :
  measure (grid st) ≤ m0 → ensures (naked_single st) (progress m0).
Proof.
  intros Hm. unfold naked_single.
  apply (ensures_foldM _ (progress m0));
    [|by eapply progress_le; [apply progress_start|]].
  intros [st1 b] p _ [Hle Hlt]. unfold naked_single_step. cbn [fst snd] in *.
  destruct (is_empty_at (grid st1) p) eqn:He; cbn [andb]; [|by split].
  case_bool_decide; [|by split].
  eapply ensures_bind; [by apply place_value_measure|].
  intros g' Hg'. apply progress_tech_add. cbv beta in Hg'. lia.
Qed.

Lemma holders_empty g G v q : q ∈ holders g G v → is_empty_at g q = true ∧ v ∈ cands_at g q.
Proof. unfold holders. by intros [? _]%list_elem_of_filter. Qed.

Lemma hidden_single_progress m0 st :
  measure (grid st) ≤ m0 → ensures (hidden_single st) (progress m0).
Proof.
  intros Hm. unfold hidden_single.
  apply (ensures_foldM _ (progress m0));
    [|by eapply progress_le; [apply progress_start|]].
  intros acc G _ Hacc. unfold hidden_single_group.
  apply (ensures_foldM _ (progress m0)); [|done].
  intros [st1 b] v _ [Hle Hlt]. unfold hidden_single_value. cbn [fst snd] in *.
  destruct (holders (grid st1) G v) as [|q qs] eqn:Hh; [by split|].
  assert (is_empty_at (grid st1) q = true) as He.
  { apply (holders_empty _ G v). rewrite Hh. left. }
  eapply ensures_bind; [by apply place_value_measure|].
  intros g' Hg'. apply progress_tech_add. cbv beta in Hg'. lia.
Qed.

Lemma eliminate_progress m0 val acc q :
  progress m0 acc → progress m0 (eliminate val acc q).
Proof.
  destruct acc as [st b]. intros [Hle Hlt]. unfold eliminate. cbn [fst snd] in *.
  destruct (is_empty_at (grid st) q) eqn:He; cbn [andb]; [|by split].
  case_bool_decide as Hin; [|by split].
  apply is_empty_at_Some in He as (c & Hc & Hv).
  unfold cands_at in Hin. rewrite Hc in Hin. cbn in Hin.
  assert (measure (upd (grid st) q (map_candidates (discard val))) < measure (grid st)).
  { apply (measure_upd_lt _ _ _ c Hc). unfold weight, map_candidates. cbn.
    pose proof (length_discard_lt val _ Hin). lia. }
  apply progress_tech_add. lia.
Qed.

Lemma neighbor_elimination_progress m0 st :
  measure (grid st) ≤ m0 → progress m0 (neighbor_elimination st).
Proof.
  intros Hm. unfold neighbor_elimination.
  apply (fold_left_inv _ (progress m0));
    [|by eapply progress_le; [apply progress_start|]].
  intros acc G _ Hacc. unfold neighbor_elimination_group.
  apply (fold_left_inv _ (progress m0)); [|done].
  intros acc' entry _ Hacc'. unfold neighbor_elimination_value.
  case_match; [|done].
  apply (fold_left_inv _ (progress m0)); [|done].
  intros acc'' q _. apply eliminate_progress.
Qed.

Lemma strip_progress m0 name remove acc q :
  progress m0 acc → progress m0 (strip name remove acc q).
Proof.
  destruct acc as [st b]. intros [Hle Hlt]. unfold strip. cbn [fst snd] in *.
  set (g' := upd (grid st) q (map_candidates (λ s, set_minus s remove))).
  assert (measure g' ≤ measure (grid st)) as Hle'.
  { apply measure_upd_le. intros c _. apply weight_map_candidates, length_set_minus. }
  destruct (length (cands_at g' q) <? length (cands_at (grid st) q)) eqn:Hcmp.
  - apply Nat.ltb_lt in Hcmp. apply progress_tech_add.
    destruct (cell_at (grid st) q) as [c|] eqn:Hc.
    + assert (measure g' < measure (grid st)); [|lia].
      apply (measure_upd_lt _ _ _ c Hc).
      unfold cands_at in Hcmp. subst g'. rewrite cell_at_upd_eq, Hc in Hcmp.
      cbn in Hcmp. unfold weight, map_candidates. cbn. lia.
    + subst g'. rewrite upd_None in Hcmp by done. lia.
  - apply progress_with_grid; [lia|]. intros E. specialize (Hlt E). lia.
Qed.

Lemma naked_subsets_progress m0 st :
  measure (grid st) ≤ m0 → progress m0 (naked_subsets_generalized st).
Proof.
  intros Hm. unfold naked_subsets_generalized.
  apply (fold_left_inv _ (progress m0));
    [|by eapply progress_le; [apply progress_start|]].
  intros acc G _ Hacc. unfold naked_subsets_group.
  apply (fold_left_inv _ (progress m0)); [|done].
  intros acc1 size _ Hacc1.
  apply (fold_left_inv _ (progress m0)); [|done].
  intros acc2 combo _ Hacc2. unfold naked_subsets_combo.
  case_match; [|done].
  apply (fold_left_inv _ (progress m0)); [|done].
  intros acc3 q _. apply strip_progress.
Qed.

Lemma hidden_pairs_progress m0 st :
  measure (grid st) ≤ m0 → progress m0 (hidden_pairs st).
Proof.
  intros Hm. unfold hidden_pairs.
  apply (fold_left_inv _ (progress m0));
    [|by eapply progress_le; [apply progress_start|]].
  intros acc G _ Hacc. unfold hidden_pairs_group.
  apply (fold_left_inv _ (progress m0)); [|done].
  intros acc1 entry _ Hacc1. unfold hidden_pairs_key.
  case_match; [done|]. case_match; [done|].
  apply (fold_left_inv _ (progress m0)); [|done].
  intros acc3 q _. apply strip_progress.
Qed.

(** ** The loops of [solve] end within their fuel *)

Lemma level1_loop_ends fuel st changed :
  measure (grid st) < fuel →
  ensures (level1_loop fuel st changed)
          (λ r, measure (grid r.1) ≤ measure (grid st)
                ∧ (r.2 = true → changed = true ∨ measure (grid r.1) < measure (grid st))).
Proof.
  revert st changed. induction fuel as [|fuel IH]; intros st changed Hfuel; [lia|].
  cbn [level1_loop].
  eapply ensures_bind; [apply (naked_single_progress (measure (grid st))); lia|].
  intros [st1 placed] [Hle1 Hlt1]. cbn [fst snd] in *.
  destruct placed.
  - specialize (Hlt1 eq_refl).
    eapply ensures_weaken; [apply IH; lia|].
    intros [st' ch'] [Hle Hch]. cbn [fst snd] in *. split; [lia|]. intros _. right. lia.
  - eapply ensures_bind; [apply (hidden_single_progress (measure (grid st))); lia|].
    intros [st2 placed2] [Hle2 Hlt2]. cbn [fst snd] in *.
    destruct placed2.
    + specialize (Hlt2 eq_refl).
      eapply ensures_weaken; [apply IH; lia|].
      intros [st' ch'] [Hle Hch]. cbn [fst snd] in *. split; [lia|]. intros _. right. lia.
    + cbn. split; [lia|]. intros ->. by left.
Qed.

Lemma solve_pass_progress d st :
  ensures (solve_pass d st) (progress (measure (grid st))).
Proof.
  unfold solve_pass.
  eapply ensures_bind; [apply level1_loop_ends; lia|].
  intros [st1 ch1] [Hle1 Hch1]. cbn [fst snd] in *.
  assert (progress (measure (grid st)) (st1, ch1)) as P1.
  { split; cbn; [done|]. intros E. destruct (Hch1 E); [done|lia]. }
  destruct (is_complete (grid st1)); [by eapply progress_false|].
  set (r2 := if (2 <=? d)%Z then _ else _).
  assert (progress (measure (grid st)) r2) as P2.
  { subst r2. case_match; [|done].
    destruct (neighbor_elimination_progress (measure (grid st1)) st1) as [Hle Hlt]; [lia|].
    destruct P1 as [_ P1]. cbn [fst snd] in *.
    split; cbn [fst snd]; [lia|].
    intros [E|E]%orb_true_iff; [specialize (P1 E)|specialize (Hlt E)]; lia. }
  clearbody r2. destruct r2 as [st2 ch2].  cbn [fst snd] in *.
  destruct (is_complete (grid st2)); [by eapply progress_false|].
  set (r3 := if (3 <=? d)%Z then _ else _).
  assert (progress (measure (grid st)) r3) as P3.
  { subst r3. case_match; [|done].
    destruct P2 as [Hle2 Hlt2]. cbn [fst snd] in *.
    destruct (naked_subsets_progress (measure (grid st2)) st2) as [Hle Hlt]; [lia|].
    destruct (naked_subsets_generalized st2) as [st3 b3]. cbn [fst snd] in *.
    destruct b3.
    - specialize (Hlt eq_refl). split; cbn; lia.
    - destruct (hidden_pairs_progress (measure (grid st3)) st3) as [Hle' Hlt']; [lia|].
      split; cbn [fst snd]; [lia|].
      intros [E|E]%orb_true_iff; [specialize (Hlt2 E)|specialize (Hlt' E)]; lia. }
  clearbody r3. destruct r3 as [st3 ch3]. cbn [fst snd] in *.
  destruct (is_complete (grid st3)); [by eapply progress_false|done].
Qed.

Lemma solve_loop_ends fuel d st :
  measure (grid st) < fuel → ensures (solve_loop fuel d st) (λ _, True).
Proof.
  revert st. induction fuel as [|fuel IH]; intros st Hfuel; [lia|].
  cbn [solve_loop].
  eapply ensures_bind; [apply solve_pass_progress|].
  intros [st' again] [Hle Hlt]. cbn [fst snd] in *.
  destruct again; [|done]. specialize (Hlt eq_refl). apply IH. lia.
Qed.

(** [solve] always ends: it returns a result or raises. *)
Lemma solve_ends (g : Grid) (d : Z) : solve g d ≠ OutOfFuel.
Proof.
  unfold solve.
  pose proof (solve_loop_ends (S (measure (init_candidates (clone g)))) d
                (mkState (init_candidates (clone g)) [])) as H.
  cbn [grid] in *. specialize (H ltac:(lia)).
  destruct (solve_loop _ _ _); cbn in *; done.
Qed.

(** ** Well-formed boards *)

Lemma wf_cell_at_in_grid g p : wf_grid g → is_Some (cell_at g p) ↔ in_grid g p.
Proof.
  intros (Hlen & Hrow & _). destruct p as [r c]. unfold cell_at, in_grid. cbn.
  split.
  - intros [x Hx]. destruct (cells g !! r) as [row|] eqn:Hr; cbn in Hx; [|done].
    pose proof (lookup_lt_Some _ _ _ Hr). pose proof (lookup_lt_Some _ _ _ Hx).
    rewrite (Hrow row) in *; [lia|]. by eapply list_elem_of_lookup_2.
  - intros [Hr Hc]. destruct (lookup_lt_is_Some_2 (cells g) r) as [row Hrow']; [lia|].
    rewrite Hrow'. cbn. apply lookup_lt_is_Some_2.
    rewrite (Hrow row); [done|]. by eapply list_elem_of_lookup_2.
Qed.

Lemma wf_cell_at g p : wf_grid g → in_grid g p → ∃ c, cell_at g p = Some c.
Proof. intros Hwf Hp. by apply (wf_cell_at_in_grid g p Hwf). Qed.

Lemma is_empty_at_in_grid g p : wf_grid g → is_empty_at g p = true → in_grid g p.
Proof.
  intros Hwf (c & Hc & _)%is_empty_at_Some. apply (wf_cell_at_in_grid g p Hwf). eauto.
Qed.

Lemma value_at_in_grid g p v : wf_grid g → value_at g p = Some v → in_grid g p.
Proof.
  intros Hwf Hv. apply (wf_cell_at_in_grid g p Hwf).
  unfold value_at in Hv. destruct (cell_at g p); [eauto|done].
Qed.

Lemma get_group_Some g gid G : get_group g gid = Some G → G ∈ groups g ∧ g_id G = gid.
Proof.
  unfold get_group. intros [Hin Heq]%find_some.
  split; [by apply list_elem_of_In|by apply Nat.eqb_eq].
Qed.

Lemma find_NoDup_id (gs : list Group) G :
  NoDup (g_id <$> gs) → G ∈ gs → List.find (λ G', g_id G' =? g_id G) gs = Some G.
Proof.
  induction gs as [|G0 gs IH]; intros Hnd Hin; [by apply elem_of_nil in Hin|].
  rewrite fmap_cons in Hnd. apply NoDup_cons in Hnd as [Hnot Hnd]. cbn.
  apply elem_of_cons in Hin as [->|Hin].
  - by rewrite Nat.eqb_refl.
  - destruct (g_id G0 =? g_id G) eqn:E.
    + apply Nat.eqb_eq in E. exfalso. apply Hnot. rewrite E.
      by apply list_elem_of_fmap_2.
    + by apply IH.
Qed.

Lemma wf_get_group g G : wf_grid g → G ∈ groups g → get_group g (g_id G) = Some G.
Proof. intros (_ & _ & Hnd & _) Hin. by apply find_NoDup_id. Qed.

Lemma wf_group_of g p G :
  wf_grid g → group_of g p = Some G ↔ G ∈ groups g ∧ p ∈ g_cells G.
Proof.
  intros Hwf. pose proof Hwf as (_ & _ & Hnd & Hmem & Hcell & _).
  unfold group_of. split.
  - destruct (cell_at g p) as [c|] eqn:Hc; cbn; [|done].
    intros [HG Hid]%get_group_Some. split; [done|].
    destruct (Hmem p c Hc) as (G' & HG' & Hid' & Hp).
    assert (G' = G) as <-; [|done].
    pose proof (wf_get_group g G Hwf HG) as E1.
    pose proof (wf_get_group g G' Hwf HG') as E2.
    rewrite Hid in E1. rewrite Hid' in E2. congruence.
  - intros [HG Hp]. destruct (Hcell G p HG Hp) as (c & Hc & Hid).
    rewrite Hc. cbn. rewrite Hid. by apply wf_get_group.
Qed.

Lemma wf_group_of_in_grid g p : wf_grid g → in_grid g p → ∃ G, group_of g p = Some G.
Proof.
  intros Hwf Hp. destruct (wf_cell_at g p Hwf Hp) as [c Hc].
  pose proof Hwf as (_ & _ & _ & Hmem & _).
  destruct (Hmem p c Hc) as (G & HG & _ & HpG). exists G. by apply wf_group_of.
Qed.

Lemma wf_member_in_grid g G q : wf_grid g → G ∈ groups g → q ∈ g_cells G → in_grid g q.
Proof.
  intros Hwf HG Hq. pose proof Hwf as (_ & _ & _ & _ & Hcell & _).
  destruct (Hcell G q HG Hq) as (c & Hc & _).
  apply (wf_cell_at_in_grid g q Hwf). eauto.
Qed.

Lemma wf_peers g p q :
  wf_grid g →
  q ∈ get_group_peers g p ↔
  ∃ G, G ∈ groups g ∧ p ∈ g_cells G ∧ q ∈ g_cells G ∧ q ≠ p.
Proof.
  intros Hwf. unfold get_group_peers. split.
  - destruct (group_of g p) as [G|] eqn:HG; [|by intros ?%elem_of_nil].
    apply wf_group_of in HG as [HG Hp]; [|done].
    intros [Hne Hq]%list_elem_of_filter. eauto.
  - intros (G & HG & Hp & Hq & Hne).
    rewrite (proj2 (wf_group_of g p G Hwf)) by done.
    by apply list_elem_of_filter.
Qed.

Lemma adjacent_sym p q : adjacent p q → adjacent q p.
Proof. unfold adjacent. intros (Hne & ?). split; [congruence|lia]. Qed.

Lemma wf_related_sym g p q :
  wf_grid g → in_grid g p → related g p q → related g q p ∧ in_grid g q.
Proof.
  intros Hwf Hp [Hq|Hq].
  - apply wf_peers in Hq as (G & HG & HpG & HqG & Hne); [|done]. split.
    + left. apply wf_peers; [done|]. exists G. eauto.
    + by eapply wf_member_in_grid.
  - apply get_neighbors_spec in Hq as [Hq Hadj]; [|done]. split; [|done].
    right. apply get_neighbors_spec; [done|]. split; [done|by apply adjacent_sym].
Qed.

Lemma wf_upd g p f : keeps_group f → wf_grid g → wf_grid (upd g p f).
Proof.
  intros Hf (Hlen & Hrow & Hnd & Hmem & Hcell & Hgrp).
  split; [|split; [|split; [|split; [|split]]]]; cbn.
  - by rewrite length_alter.
  - intros row (i & Hi)%list_elem_of_lookup.
    rewrite list_lookup_alter in Hi. case_decide.
    + destruct (cells g !! p.1) as [row0|] eqn:E; cbn in Hi; [|done].
      inversion Hi; subst. rewrite length_alter. apply Hrow.
      by eapply list_elem_of_lookup_2.
    + apply Hrow. by eapply list_elem_of_lookup_2.
  - done.
  - intros q c. rewrite cell_at_upd. case_decide; [subst|by apply Hmem].
    destruct (cell_at g q) as [c0|] eqn:E; cbn; [|done].
    intros [= <-]. rewrite Hf. by apply Hmem.
  - intros G q HG Hq. destruct (Hcell G q HG Hq) as (c & Hc & Hid).
    rewrite cell_at_upd. case_decide; [subst|eauto].
    exists (f c). rewrite Hc. cbn. split; [done|]. by rewrite Hf.
  - done.
Qed.

Lemma keeps_group_set_value ov : keeps_group (set_value ov).
Proof. done. Qed.

Lemma keeps_group_set_candidates s : keeps_group (set_candidates s).
Proof. done. Qed.

Lemma keeps_group_map_candidates F : keeps_group (map_candidates F).
Proof. done. Qed.

Lemma group_of_upd g p f q : keeps_group f → group_of (upd g p f) q = group_of g q.
Proof.
  intros Hf. unfold group_of. rewrite cell_at_upd. case_decide; [subst|done].
  destruct (cell_at g q) as [c|]; cbn; [|done]. unfold get_group. cbn. by rewrite Hf.
Qed.

Lemma get_group_peers_upd g p f q :
  keeps_group f → get_group_peers (upd g p f) q = get_group_peers g q.
Proof. intros Hf. unfold get_group_peers. by rewrite group_of_upd. Qed.

Lemma related_upd g p f a b : keeps_group f → related (upd g p f) a b ↔ related g a b.
Proof. intros Hf. unfold related. by rewrite get_group_peers_upd. Qed.

(** ** Solutions *)

Lemma NoDup_fmap_inj_on {A B} (f : A → B) (l : list A) x y :
  NoDup (f <$> l) → x ∈ l → y ∈ l → f x = f y → x = y.
Proof.
  induction l as [|a l IH]; intros Hnd Hx Hy Heq; [by apply elem_of_nil in Hx|].
  rewrite fmap_cons in Hnd. apply NoDup_cons in Hnd as [Hnot Hnd].
  apply elem_of_cons in Hx as [->|Hx]; apply elem_of_cons in Hy as [->|Hy]; try done.
  - exfalso. apply Hnot. rewrite Heq. by apply list_elem_of_fmap_2.
  - exfalso. apply Hnot. rewrite <- Heq. by apply list_elem_of_fmap_2.
  - by apply IH.
Qed.

Lemma solution_group_NoDup g sol G :
  is_solution g sol → G ∈ groups g → NoDup (sol <$> g_cells G).
Proof.
  intros (_ & Hperm & _) HG. rewrite (Hperm G HG). apply NoDup_seq.
Qed.

Lemma solution_inj g sol G p q :
  is_solution g sol → G ∈ groups g → p ∈ g_cells G → q ∈ g_cells G →
  sol p = sol q → p = q.
Proof. intros Hsol HG. apply NoDup_fmap_inj_on. by eapply solution_group_NoDup. Qed.

Lemma solution_range g sol G p :
  is_solution g sol → G ∈ groups g → p ∈ g_cells G → sol p ∈ full_range (g_size G).
Proof.
  intros (_ & Hperm & _) HG Hp. rewrite <- (Hperm G HG). by apply list_elem_of_fmap_2.
Qed.

Lemma solution_surj g sol G v :
  is_solution g sol → G ∈ groups g → v ∈ full_range (g_size G) →
  ∃ c, c ∈ g_cells G ∧ sol c = v.
Proof.
  intros (_ & Hperm & _) HG Hv. rewrite <- (Hperm G HG) in Hv.
  apply list_elem_of_fmap in Hv as (c & -> & Hc). eauto.
Qed.

Lemma solution_related g sol p q :
  wf_grid g → is_solution g sol → in_grid g p → related g p q → sol q ≠ sol p.
Proof.
  intros Hwf Hsol Hp [Hq|Hq].
  - apply wf_peers in Hq as (G & HG & HpG & HqG & Hne); [|done].
    intros Heq. apply Hne. by eapply solution_inj.
  - apply get_neighbors_spec in Hq as [Hq Hadj]; [|done].
    destruct Hsol as (_ & _ & Hadj'). intros Heq. by eapply (Hadj' p q).
Qed.

Lemma solution_upd_candidates g sol p F :
  is_solution g sol → is_solution (upd g p (map_candidates F)) sol.
Proof.
  intros (Hval & Hperm & Hadj). split; [|split; [done|done]].
  intros q v. unfold value_at. rewrite cell_at_upd. case_decide; [subst|by apply Hval].
  destruct (cell_at g q) as [c|] eqn:E; cbn; [|done].
  intros Hv. apply (Hval q). unfold value_at. by rewrite E.
Qed.

(** ** Reducts *)

Lemma reduct_refl g : reduct g g.
Proof. by repeat split. Qed.

Lemma reduct_trans g1 g2 g3 : reduct g1 g2 → reduct g2 g3 → reduct g1 g3.
Proof.
  intros (R1 & C1 & G1 & E1 & K1) (R2 & C2 & G2 & E2 & K2).
  repeat split; try congruence; eauto.
Qed.

Lemma narrowed_refl g : narrowed g g.
Proof. by repeat split. Qed.

Lemma narrowed_trans g1 g2 g3 : narrowed g1 g2 → narrowed g2 g3 → narrowed g1 g3.
Proof.
  intros (R1 & C1 & G1 & E1 & K1) (R2 & C2 & G2 & E2 & K2).
  repeat split; try congruence; eauto.
Qed.

Lemma narrowed_reduct g g' : narrowed g g' → reduct g g'.
Proof.
  intros (R1 & C1 & G1 & E1 & K1). repeat split; try done. intros p. by rewrite E1.
Qed.

Lemma get_neighbors_frame g g' p :
  rows g' = rows g → cols g' = cols g → get_neighbors g' p = get_neighbors g p.
Proof.
  intros Hr Hc. unfold get_neighbors.
  assert (neighbor_step g' p = neighbor_step g p) as ->; [|done].
  unfold neighbor_step, out_of_bounds. by rewrite Hr, Hc.
Qed.

(** ** The cell updates of the solver, cell by cell *)

Lemma value_at_upd_candidates g q F p :
  value_at (upd g q (map_candidates F)) p = value_at g p.
Proof.
  unfold value_at. rewrite cell_at_upd. case_decide; [subst|done].
  by destruct (cell_at g p).
Qed.

Lemma is_empty_at_upd_candidates g q F p :
  is_empty_at (upd g q (map_candidates F)) p = is_empty_at g p.
Proof.
  unfold is_empty_at. rewrite cell_at_upd. case_decide; [subst|done].
  by destruct (cell_at g p).
Qed.

Lemma cands_at_upd_candidates_eq g q F c :
  cell_at g q = Some c →
  cands_at (upd g q (map_candidates F)) q = F (cands_at g q).
Proof. intros Hc. unfold cands_at. rewrite cell_at_upd_eq, Hc. done. Qed.

Lemma cands_at_upd_ne g q f p : q ≠ p → cands_at (upd g q f) p = cands_at g p.
Proof. intros. unfold cands_at. by rewrite cell_at_upd_ne. Qed.

Lemma cands_at_upd_candidates_sub g q F p x :
  (∀ s y, y ∈ F s → y ∈ s) →
  x ∈ cands_at (upd g q (map_candidates F)) p → x ∈ cands_at g p.
Proof.
  intros HF. destruct (decide (q = p)) as [->|Hne].
  - unfold cands_at. rewrite cell_at_upd_eq.
    destruct (cell_at g p) as [c|]; cbn; [apply HF|done].
  - by rewrite cands_at_upd_ne.
Qed.

Lemma narrowed_upd_candidates g q F :
  (∀ s y, y ∈ F s → y ∈ s) → narrowed g (upd g q (map_candidates F)).
Proof.
  intros HF. repeat split; try done.
  - intros p. apply is_empty_at_upd_candidates.
  - intros p x. by apply cands_at_upd_candidates_sub.
Qed.

Lemma elem_of_discard v s x : x ∈ discard v s ↔ x ∈ s ∧ x ≠ v.
Proof. unfold discard. rewrite list_elem_of_filter. tauto. Qed.

Lemma elem_of_set_minus s t x : x ∈ set_minus s t ↔ x ∈ s ∧ x ∉ t.
Proof. unfold set_minus. rewrite list_elem_of_filter. tauto. Qed.

(** Removing candidates keeps the invariant, as long as the solution value
    of the cell is not removed. *)
Lemma sound_shrink sol g q F :
  sound sol g →
  (∀ s y, y ∈ F s → y ∈ s) →
  (is_empty_at g q = true → sol q ∈ F (cands_at g q)) →
  sound sol (upd g q (map_candidates F)).
Proof.
  intros (Hwf & Hsol & HI & HJ & HR) HF Hq.
  split; [|split; [|split; [|split]]].
  - by apply wf_upd.
  - by apply solution_upd_candidates.
  - intros p. rewrite is_empty_at_upd_candidates. intros Hp.
    destruct (decide (q = p)) as [->|Hne].
    + apply is_empty_at_Some in Hp as Hc. destruct Hc as (c & Hc & _).
      rewrite (cands_at_upd_candidates_eq _ _ _ c Hc). by apply Hq.
    + rewrite cands_at_upd_ne by done. by apply HI.
  - intros p v p'. rewrite value_at_upd_candidates, is_empty_at_upd_candidates.
    rewrite related_upd by done. intros Hv Hrel He Hin.
    apply (HJ p v p' Hv Hrel He). by eapply cands_at_upd_candidates_sub.
  - intros p G v. rewrite is_empty_at_upd_candidates, group_of_upd by done.
    intros He HG Hin. apply (HR p G v He HG). by eapply cands_at_upd_candidates_sub.
Qed.

(** ** [_place_value] on a sound board *)

Lemma propagate_returns v g q x :
  (is_empty_at g q = true → x ∈ cands_at g q ∧ x ≠ v) →
  propagate v g q = Ret (upd g q (map_candidates (discard v))).
Proof.
  intros Hx. unfold propagate. rewrite is_empty_at_upd_candidates.
  destruct (is_empty_at g q) eqn:He; [|done]. cbn [andb].
  destruct (Hx eq_refl) as [Hin Hne].
  apply is_empty_at_Some in He as (c & Hc & _).
  rewrite (cands_at_upd_candidates_eq _ _ _ c Hc).
  rewrite bool_decide_eq_false_2; [done|].
  intros Hlen. apply nil_length_inv in Hlen.
  assert (x ∈ discard v (cands_at g q)) as Hx' by (by apply elem_of_discard).
  rewrite Hlen in Hx'. by apply elem_of_nil in Hx'.
Qed.

Lemma discard_all_cons v q qs g :
  discard_all v (q :: qs) g = discard_all v qs (upd g q (map_candidates (discard v))).
Proof. done. Qed.

Lemma discard_all_narrowed v qs g : narrowed g (discard_all v qs g).
Proof.
  revert g. induction qs as [|q qs IH]; intros g; [apply narrowed_refl|].
  rewrite discard_all_cons. eapply narrowed_trans; [|apply IH].
  apply narrowed_upd_candidates. intros s y. rewrite elem_of_discard. tauto.
Qed.

Lemma discard_all_value v qs g p : value_at (discard_all v qs g) p = value_at g p.
Proof.
  revert g. induction qs as [|q qs IH]; intros g; [done|].
  rewrite discard_all_cons, IH. apply value_at_upd_candidates.
Qed.

Lemma discard_all_group_of v qs g p : group_of (discard_all v qs g) p = group_of g p.
Proof.
  revert g. induction qs as [|q qs IH]; intros g; [done|].
  rewrite discard_all_cons, IH. by apply group_of_upd.
Qed.

Lemma discard_all_wf v qs g : wf_grid g → wf_grid (discard_all v qs g).
Proof.
  revert g. induction qs as [|q qs IH]; intros g Hwf; [done|].
  rewrite discard_all_cons. apply IH. by apply wf_upd.
Qed.

Lemma discard_all_cands v qs g p x :
  x ∈ cands_at (discard_all v qs g) p ↔ x ∈ cands_at g p ∧ (p ∈ qs → x ≠ v).
Proof.
  revert g. induction qs as [|q qs IH]; intros g.
  { cbn. split; [|tauto]. intros H. split; [done|]. by intros ?%elem_of_nil. }
  rewrite discard_all_cons, IH. rewrite elem_of_cons.
  destruct (decide (q = p)) as [->|Hne].
  - unfold cands_at at 1. rewrite cell_at_upd_eq.
    destruct (cell_at g p) as [c|] eqn:Hc; cbn.
    + unfold cands_at. rewrite Hc. cbn. rewrite elem_of_discard. tauto.
    + unfold cands_at. rewrite Hc. cbn. rewrite elem_of_nil. tauto.
  - rewrite cands_at_upd_ne by done. split; [|tauto].
    intros [H1 H2]. split; [done|]. intros [?|?]; [congruence|auto].
Qed.

Lemma foldM_propagate v (f : pos → nat) qs g :
  (∀ q, q ∈ qs → is_empty_at g q = true → f q ∈ cands_at g q ∧ f q ≠ v) →
  foldM (propagate v) g qs = Ret (discard_all v qs g).
Proof.
  revert g. induction qs as [|q qs IH]; intros g Hq; [done|].
  cbn [foldM]. rewrite (propagate_returns v g q (f q)) by (apply Hq; left).
  rewrite bind_Ret, discard_all_cons. apply IH.
  intros q' Hq'. rewrite is_empty_at_upd_candidates. intros He.
  destruct (Hq q' ltac:(by right) He) as [Hin Hne]. split; [|done].
  destruct (decide (q = q')) as [->|Hneq].
  - apply is_empty_at_Some in He as (c & Hc & _).
    rewrite (cands_at_upd_candidates_eq _ _ _ c Hc). by apply elem_of_discard.
  - by rewrite cands_at_upd_ne.
Qed.

Lemma get_group_peers_frame g g' p :
  group_of g' p = group_of g p → get_group_peers g' p = get_group_peers g p.
Proof. intros H. unfold get_group_peers. by rewrite H. Qed.

Lemma related_frame g g' a b :
  rows g' = rows g → cols g' = cols g → group_of g' a = group_of g a →
  related g' a b ↔ related g a b.
Proof.
  intros Hr Hc HG. unfold related.
  by rewrite (get_group_peers_frame g g'), (get_neighbors_frame g g').
Qed.

(** A board reached from a sound board is sound if it fills cells only
    with their solution value, after discarding that value around them,
    and never removes the solution value of an empty cell. *)
Lemma sound_transfer sol g g' :
  sound sol g → wf_grid g' →
  rows g' = rows g → cols g' = cols g → groups g' = groups g →
  (∀ q, group_of g' q = group_of g q) →
  (∀ q, is_empty_at g' q = true →
        is_empty_at g q = true ∧ sol q ∈ cands_at g' q) →
  (∀ q x, x ∈ cands_at g' q → x ∈ cands_at g q) →
  (∀ q v, value_at g' q = Some v →
          value_at g q = Some v
          ∨ (v = sol q ∧ ∀ b, related g q b → is_empty_at g' b = true →
                              v ∉ cands_at g' b)) →
  sound sol g' ∧ reduct g g'.
Proof.
  intros (Hwf & Hsol & HI & HJ & HR) Hwf' Hr Hc Hg HG He Hsub Hval.
  split; [|repeat split; try done; intros p Hp; by apply He].
  split; [done|]. split; [|split; [|split]].
  - destruct Hsol as (Hv & Hperm & Hadj). split; [|split].
    + intros q v Hq. destruct (Hval q v Hq) as [Hold|[-> _]]; [by apply Hv|done].
    + rewrite Hg. done.
    + unfold in_grid. rewrite Hr, Hc. done.
  - intros q Hq. by apply He.
  - intros a va b Ha Hrel Hb.
    rewrite related_frame in Hrel by done.
    destruct (Hval a va Ha) as [Hold|[_ Hnew]].
    + intros Hin. apply (HJ a va b Hold Hrel); [by apply He|by apply Hsub].
    + by apply Hnew.
  - intros q G x Hq HGq Hx. rewrite HG in HGq.
    apply (HR q G x); [by apply He|done|by apply Hsub].
Qed.

Lemma place_value_sound sol g p :
  sound sol g → is_empty_at g p = true →
  returns (place_value g p (sol p)) (λ g', sound sol g' ∧ reduct g g').
Proof.
  intros Hs Hp. pose proof Hs as (Hwf & Hsol & HI & HJ & HR).
  pose proof (is_empty_at_in_grid g p Hwf Hp) as Hpin.
  apply is_empty_at_Some in Hp as Hc. destruct Hc as (c & Hc & Hcv).
  unfold place_value.
  set (fill := λ c : Cell, mkCell (Some (sol p)) [] (group_id c)).
  set (g0 := upd g p fill).
  assert (keeps_group fill) as Hfill by done.
  assert (∀ q, q ≠ p → cell_at g0 q = cell_at g q) as Hother.
  { intros q Hq. subst g0. by rewrite cell_at_upd_ne. }
  assert (cell_at g0 p = Some (fill c)) as Hself.
  { subst g0. by rewrite cell_at_upd_eq, Hc. }
  assert (∀ q, is_empty_at g0 q = true → q ≠ p ∧ is_empty_at g q = true) as He0.
  { intros q. destruct (decide (q = p)) as [->|Hne].
    - unfold is_empty_at. by rewrite Hself.
    - unfold is_empty_at. by rewrite Hother. }
  assert (∀ q, q ≠ p → cands_at g0 q = cands_at g q) as Hc0.
  { intros q Hq. unfold cands_at. by rewrite Hother. }
  assert (get_group_peers g0 p = get_group_peers g p) as Hpeers.
  { subst g0. by apply get_group_peers_upd. }
  rewrite Hpeers.
  rewrite (foldM_propagate (sol p) sol); last first.
  { intros q Hq [Hne Heq]%He0. rewrite Hc0 by done. split; [by apply HI|].
    apply (solution_related g sol p q); [done..|by left]. }
  rewrite bind_Ret.
  set (g1 := discard_all (sol p) (get_group_peers g p) g0).
  pose proof (discard_all_narrowed (sol p) (get_group_peers g p) g0)
    as (Hr1 & Hc1 & Hg1 & He1 & Hs1). fold g1 in Hr1, Hc1, Hg1, He1, Hs1.
  rewrite (get_neighbors_frame g g1) by done.
  rewrite (foldM_propagate (sol p) sol); last first.
  { intros q Hq. rewrite He1. intros [Hne Heq]%He0. split.
    - subst g1. apply discard_all_cands. rewrite Hc0 by done.
      split; [by apply HI|]. intros _.
      apply (solution_related g sol p q); [done..|by right].
    - apply (solution_related g sol p q); [done..|by right]. }
  cbn [returns].
  set (g2 := discard_all (sol p) (get_neighbors g p) g1).
  pose proof (discard_all_narrowed (sol p) (get_neighbors g p) g1)
    as (Hr2 & Hc2 & Hg2 & He2 & Hs2). fold g2 in Hr2, Hc2, Hg2, He2, Hs2.
  assert (∀ q x, x ∈ cands_at g2 q ↔
                 q ≠ p ∧ x ∈ cands_at g q ∧ (related g p q → x ≠ sol p)) as Hcands.
  { intros q x. subst g2 g1. rewrite !discard_all_cands.
    destruct (decide (q = p)) as [->|Hne].
    - unfold cands_at at 1. rewrite Hself. cbn. rewrite elem_of_nil. tauto.
    - rewrite Hc0 by done. unfold related. tauto. }
  apply sound_transfer; try done.
  - subst g2 g1. do 2 apply discard_all_wf. by apply wf_upd.
  - by rewrite Hr2, Hr1.
  - by rewrite Hc2, Hc1.
  - by rewrite Hg2, Hg1.
  - intros q. subst g2 g1. rewrite !discard_all_group_of. by apply group_of_upd.
  - intros q. rewrite He2, He1. intros [Hne Heq]%He0. split; [done|].
    apply Hcands. split; [done|]. split; [by apply HI|].
    intros Hrel. by apply (solution_related g sol p q).
  - intros q x (_ & Hx & _)%Hcands. done.
  - intros q v. subst g2 g1. rewrite !discard_all_value.
    destruct (decide (q = p)) as [->|Hne].
    + unfold value_at. rewrite Hself. cbn. intros [= <-]. right. split; [done|].
      intros b Hrel _ (_ & _ & Hx)%Hcands. by apply Hx.
    + unfold value_at. rewrite Hother by done. by left.
Qed.

(** ** The cell that owns a value *)

(** On a sound board, if some empty member of a group still has [v] as a
    candidate, then the member whose solution value is [v] is empty and
    has [v] as a candidate. *)
Lemma sound_owner sol g G v h :
  sound sol g → G ∈ groups g → h ∈ holders g G v →
  ∃ c, c ∈ holders g G v ∧ sol c = v.
Proof.
  intros (Hwf & Hsol & HI & HJ & HR) HG Hh.
  unfold holders in Hh. apply list_elem_of_filter in Hh as [[Hhe Hhv] HhG].
  assert (group_of g h = Some G) as HGh by (by apply wf_group_of).
  pose proof (HR h G v Hhe HGh Hhv) as Hrange.
  destruct (solution_surj g sol G v Hsol HG Hrange) as (c & HcG & Hcv).
  exists c. split; [|done]. unfold holders. apply list_elem_of_filter.
  split; [|done].
  pose proof (wf_member_in_grid g G c Hwf HG HcG) as Hcin.
  destruct (wf_cell_at g c Hwf Hcin) as [cc Hcc].
  destruct (value cc) as [w|] eqn:Hw.
  - exfalso. assert (value_at g c = Some w) as Hval.
    { unfold value_at. by rewrite Hcc. }
    assert (w = v) as ->.
    { destruct Hsol as (Hv & _). rewrite <- Hcv. symmetry. by apply Hv. }
    assert (h ≠ c) as Hne.
    { intros ->. apply is_empty_at_Some in Hhe as (c' & Hc' & Hv').
      rewrite Hcc in Hc'. inversion Hc'; subst. congruence. }
    apply (HJ c v h Hval); [|done..].
    left. apply wf_peers; [done|]. exists G. eauto.
  - assert (is_empty_at g c = true) as Hce.
    { apply is_empty_at_Some. eauto. }
    split; [done|]. rewrite <- Hcv. by apply HI.
Qed.

(** ** The techniques keep the invariant *)

Lemma returns_Ret {A} (a : A) (Q : A → Prop) : Q a → returns (Ret a) Q.
Proof. done. Qed.

Lemma holders_reduct g g' G v q :
  reduct g g' → q ∈ holders g' G v → q ∈ holders g G v.
Proof.
  intros (_ & _ & _ & He & Hs). unfold holders. rewrite !list_elem_of_filter.
  intros [[H1 H2] H3]. split; [split|done]; auto.
Qed.

Lemma singleton_head (s : list nat) x :
  length s = 1 → x ∈ s → default 0 (head s) = x.
Proof.
  destruct s as [|y [|z s]]; cbn; intros Hlen Hx; try done.
  by apply list_elem_of_singleton in Hx.
Qed.

Lemma naked_single_sound sol st :
  sound sol (grid st) →
  returns (naked_single st)
          (λ r, sound sol (grid r.1) ∧ reduct (grid st) (grid r.1)).
Proof.
  intros Hs. unfold naked_single.
  apply (returns_foldM _ (λ r, sound sol (grid r.1) ∧ reduct (grid st) (grid r.1)));
    [|split; [done|apply reduct_refl]].
  intros [st1 b] p _ [Hs1 Hred]. unfold naked_single_step. cbn [fst snd] in *.
  destruct (is_empty_at (grid st1) p) eqn:He; cbn [andb]; [|by split].
  case_bool_decide as Hlen; [|by split].
  pose proof Hs1 as (_ & _ & HI & _).
  rewrite (singleton_head _ (sol p) Hlen (HI p He)).
  eapply returns_bind; [by apply place_value_sound|].
  intros g' [Hs' Hred']. apply returns_Ret. cbn [fst snd tech_add with_grid grid].
  split; [done|]. by eapply reduct_trans.
Qed.

Lemma holders_single_owner sol g G v q :
  sound sol g → G ∈ groups g → cand_count g G v = 1 →
  q ∈ holders g G v → sol q = v.
Proof.
  intros Hs HG Hcount Hq. unfold cand_count in Hcount.
  destruct (sound_owner sol g G v q Hs HG Hq) as (c & Hc & Hcv).
  destruct (holders g G v) as [|x [|y l]]; cbn in Hcount; try done.
  apply list_elem_of_singleton in Hq, Hc. congruence.
Qed.

Lemma hidden_single_sound sol st :
  sound sol (grid st) →
  returns (hidden_single st)
          (λ r, sound sol (grid r.1) ∧ reduct (grid st) (grid r.1)).
Proof.
  intros Hs. unfold hidden_single.
  apply (returns_foldM _ (λ r, sound sol (grid r.1) ∧ reduct (grid st) (grid r.1)));
    [|split; [done|apply reduct_refl]].
  intros [st1 b1] G HG [Hs1 Hred1]. unfold hidden_single_group. cbn [fst snd] in *.
  assert (G ∈ groups (grid st1)) as HG1.
  { destruct Hred1 as (_ & _ & -> & _). done. }
  set (to_place := filter _ _).
  eapply returns_weaken.
  - apply (returns_foldM _
      (λ r, sound sol (grid r.1) ∧ reduct (grid st1) (grid r.1)));
      [|split; [done|apply reduct_refl]].
    intros [st2 b2] v Hv [Hs2 Hred2]. unfold hidden_single_value. cbn [fst snd] in *.
    destruct (holders (grid st2) G v) as [|q qs] eqn:Hh; [by split|].
    assert (q ∈ holders (grid st2) G v) as Hq by (rewrite Hh; left).
    assert (sol q = v) as <-.
    { apply (holders_single_owner sol (grid st1) G); [done..| |].
      - subst to_place. by apply list_elem_of_filter in Hv as [? _].
      - by eapply holders_reduct. }
    apply holders_empty in Hq as [Hqe _].
    eapply returns_bind; [by apply place_value_sound|].
    intros g' [Hs' Hred']. apply returns_Ret. cbn [fst snd tech_add with_grid grid].
    split; [done|]. by eapply reduct_trans.
  - intros r [Hsr Hredr]. split; [done|]. by eapply reduct_trans.
Qed.

(** *** Neighbour elimination *)

Lemma elem_of_fold_intersection {A} `{EqDecision A} (f : pos → list A)
    (cs : list pos) (init : list A) x :
  x ∈ fold_left (λ acc c, list_intersection acc (f c)) cs init
  ↔ x ∈ init ∧ ∀ c, c ∈ cs → x ∈ f c.
Proof.
  revert init. induction cs as [|c cs IH]; intros init; cbn.
  - split; [|tauto]. intros H. split; [done|]. by intros c ?%elem_of_nil.
  - rewrite IH, list_elem_of_intersection. split.
    + intros [[H1 H2] H3]. split; [done|]. intros c' [->|?]%elem_of_cons; auto.
    + intros [H1 H2]. split; [split; [done|]|]; [apply H2; left|].
      intros c' Hc'. apply H2. by right.
Qed.

Lemma common_neighbors_spec g cs x c :
  x ∈ common_neighbors g cs → c ∈ cs → x ∈ get_neighbors g c.
Proof.
  destruct cs as [|c0 rest]; [by intros ?%elem_of_nil|].
  unfold common_neighbors. rewrite elem_of_fold_intersection.
  rewrite elem_of_remove_dups. intros [H0 Hrest] [->|Hc]%elem_of_cons; auto.
Qed.

Lemma fold_left_same {A B} (f f' : A → B → A) l a :
  (∀ a x, f a x = f' a x) → fold_left f l a = fold_left f' l a.
Proof.
  intros Hf. revert a. induction l as [|x l IH]; intros a; [done|].
  cbn. by rewrite Hf, IH.
Qed.

Lemma common_neighbors_frame g g' cs :
  rows g' = rows g → cols g' = cols g → common_neighbors g' cs = common_neighbors g cs.
Proof.
  intros Hr Hc. destruct cs as [|c0 rest]; [done|]. unfold common_neighbors.
  rewrite (get_neighbors_frame g g') by done.
  apply fold_left_same. intros acc c. by rewrite (get_neighbors_frame g g').
Qed.

Lemma sound_in_groups sol g G p :
  sound sol g → G ∈ groups g → p ∈ g_cells G → in_grid g p.
Proof. intros (Hwf & _) HG Hp. by eapply wf_member_in_grid. Qed.

Lemma eliminate_sound sol g0 val acc q :
  sol q ≠ val →
  sound sol (grid acc.1) ∧ narrowed g0 (grid acc.1) →
  sound sol (grid (eliminate val acc q).1)
  ∧ narrowed g0 (grid (eliminate val acc q).1).
Proof.
  destruct acc as [st b]. intros Hne [Hs Hn]. unfold eliminate. cbn [fst snd] in *.
  destruct (is_empty_at (grid st) q) eqn:He; cbn [andb]; [|by split].
  case_bool_decide as Hin; [|by split].
  cbn [fst snd tech_add with_grid grid]. split.
  - apply sound_shrink; [done| |].
    + intros s y. rewrite elem_of_discard. tauto.
    + intros _. apply elem_of_discard. split; [|done].
      destruct Hs as (_ & _ & HI & _). by apply HI.
  - eapply narrowed_trans; [done|]. apply narrowed_upd_candidates.
    intros s y. rewrite elem_of_discard. tauto.
Qed.

Lemma neighbor_elimination_sound sol st :
  sound sol (grid st) →
  sound sol (grid (neighbor_elimination st).1)
  ∧ narrowed (grid st) (grid (neighbor_elimination st).1).
Proof.
  intros Hs. unfold neighbor_elimination.
  apply (fold_left_inv _ (λ r, sound sol (grid r.1) ∧ narrowed (grid st) (grid r.1)));
    [|split; [done|apply narrowed_refl]].
  intros [st1 b1] G HG [Hs1 Hn1]. unfold neighbor_elimination_group. cbn [fst snd] in *.
  assert (G ∈ groups (grid st1)) as HG1.
  { destruct Hn1 as (_ & _ & -> & _). done. }
  set (entries := map _ _).
  assert (sound sol (grid (fold_left neighbor_elimination_value entries (st1, b1)).1)
          ∧ narrowed (grid st1)
              (grid (fold_left neighbor_elimination_value entries (st1, b1)).1))
    as [Hsr Hnr]; [|split; [done|by eapply narrowed_trans]].
  apply (fold_left_inv _ (λ r, sound sol (grid r.1) ∧ narrowed (grid st1) (grid r.1)));
    [|split; [done|apply narrowed_refl]].
  intros [st2 b2] [val0 hs] Hentry [Hs2 Hn2]. unfold neighbor_elimination_value.
  cbn [fst snd] in *.
  case_match; [|by split].
  subst entries. apply list_elem_of_fmap in Hentry as (val & [= -> ->] & Hval).
  assert (common_neighbors (grid st2) (holders (grid st1) G val)
          = common_neighbors (grid st1) (holders (grid st1) G val)) as ->.
  { destruct Hn2 as (Hr & Hc & _). by apply common_neighbors_frame. }
  apply (fold_left_inv _
    (λ r, sound sol (grid r.1) ∧ narrowed (grid st1) (grid r.1)));
    [|by split].
  intros acc q Hq Hacc. apply eliminate_sound; [|done].
  destruct (holders (grid st1) G val) as [|h hs] eqn:Hh; [by apply elem_of_nil in Hq|].
  destruct (sound_owner sol (grid st1) G val h Hs1 HG1) as (c & Hc & Hcv).
  { rewrite Hh. left. }
  rewrite Hh in Hc. pose proof (common_neighbors_spec _ _ _ _ Hq Hc) as Hnb.
  rewrite <- Hcv. pose proof Hs1 as (Hwf1 & Hsol1 & _).
  apply (solution_related (grid st1) sol c q); [done..| |by right].
  eapply wf_member_in_grid; [done..|].
  assert (c ∈ holders (grid st1) G val) as Hc' by (by rewrite Hh).
  unfold holders in Hc'. by apply list_elem_of_filter in Hc' as [_ ?].
Qed.

(** *** Naked subsets *)

Lemma combinations_spec {A} (k : nat) (l cs : list A) :
  cs ∈ combinations k l → length cs = k ∧ cs `sublist_of` l.
Proof.
  revert k cs. induction l as [|x l IH]; intros [|k] cs; cbn.
  - intros ->%list_elem_of_singleton. split; [done|constructor].
  - by intros ?%elem_of_nil.
  - intros ->%list_elem_of_singleton. split; [done|apply sublist_nil_l].
  - intros [Hin|Hin]%elem_of_app.
    + apply list_elem_of_fmap in Hin as (cs' & -> & Hcs').
      destruct (IH k cs' Hcs') as [Hlen Hsub]. split; [cbn; lia|by constructor].
    + destruct (IH (S k) cs Hin) as [Hlen Hsub]. split; [done|by constructor].
Qed.

Lemma elem_of_set_union s t x : x ∈ set_union s t ↔ x ∈ s ∨ x ∈ t.
Proof.
  unfold set_union. rewrite elem_of_app, list_elem_of_filter.
  destruct (decide (x ∈ s)); tauto.
Qed.

Lemma elem_of_union_fold g (combo : list pos) (init : list nat) x :
  x ∈ fold_left (λ u q, set_union u (cands_at g q)) combo init
  ↔ x ∈ init ∨ ∃ c, c ∈ combo ∧ x ∈ cands_at g c.
Proof.
  revert init. induction combo as [|c combo IH]; intros init; cbn.
  - split; [tauto|]. intros [?|(c & ?%elem_of_nil & _)]; done.
  - rewrite IH, elem_of_set_union. split.
    + intros [[?|?]|(c' & ? & ?)]; [tauto| |].
      * right. exists c. split; [left|done].
      * right. exists c'. split; [by right|done].
    + intros [?|(c' & [->|?]%elem_of_cons & ?)]; [tauto|tauto|].
      right. eauto.
Qed.

Lemma strip_sound sol g0 name remove acc q :
  (is_empty_at (grid acc.1) q = true → sol q ∉ remove) →
  sound sol (grid acc.1) ∧ narrowed g0 (grid acc.1) →
  sound sol (grid (strip name remove acc q).1)
  ∧ narrowed g0 (grid (strip name remove acc q).1).
Proof.
  destruct acc as [st b]. intros Hq [Hs Hn]. unfold strip. cbn [fst snd] in *.
  set (g' := upd (grid st) q (map_candidates (λ s, set_minus s remove))).
  assert (sound sol g' ∧ narrowed g0 g') as Hres.
  { split.
    - apply sound_shrink; [done| |].
      + intros s y. rewrite elem_of_set_minus. tauto.
      + intros He. apply elem_of_set_minus. split; [|by apply Hq].
        destruct Hs as (_ & _ & HI & _). by apply HI.
    - eapply narrowed_trans; [done|]. apply narrowed_upd_candidates.
      intros s y. rewrite elem_of_set_minus. tauto. }
  by case_match.
Qed.

(** The cells of a naked subset hold exactly the values of the union of
    their candidates: no other member of the group holds one of them. *)
Lemma naked_subset_values sol g G combo union q :
  sound sol g → G ∈ groups g →
  combo `sublist_of` g_cells G →
  (∀ c, c ∈ combo → is_empty_at g c = true) →
  (∀ c x, c ∈ combo → x ∈ cands_at g c → x ∈ union) →
  length union = length combo →
  q ∈ g_cells G → q ∉ combo → sol q ∉ union.
Proof.
  intros (Hwf & Hsol & HI & _) HG Hsub Hempty Hunion Hlen HqG Hq Hin.
  pose proof Hwf as (_ & _ & _ & _ & _ & Hgrp).
  destruct (Hgrp G HG) as [HndG _].
  assert (NoDup (sol <$> combo)) as Hnd.
  { apply NoDup_fmap_2_strong; [|by eapply sublist_NoDup].
    intros a b Ha Hb. apply (solution_inj g sol G); [done..| |].
    - by eapply sublist_subseteq.
    - by eapply sublist_subseteq. }
  assert (sol <$> combo ≡ₚ union) as Hperm.
  { apply submseteq_length_Permutation; [|by rewrite length_fmap, Hlen].
    apply NoDup_submseteq; [done|].
    intros x (c & -> & Hc)%list_elem_of_fmap.
    apply (Hunion c); [done|]. apply HI. by apply Hempty. }
  rewrite <- Hperm in Hin. apply list_elem_of_fmap in Hin as (c & Heq & Hc).
  apply Hq. assert (q = c) as ->; [|done].
  apply (solution_inj g sol G); [done..| |done]. by eapply sublist_subseteq.
Qed.

Lemma naked_subsets_sound sol st :
  sound sol (grid st) →
  sound sol (grid (naked_subsets_generalized st).1)
  ∧ narrowed (grid st) (grid (naked_subsets_generalized st).1).
Proof.
  intros Hs. unfold naked_subsets_generalized.
  apply (fold_left_inv _ (λ r, sound sol (grid r.1) ∧ narrowed (grid st) (grid r.1)));
    [|split; [done|apply narrowed_refl]].
  intros [st1 b1] G HG [Hs1 Hn1]. unfold naked_subsets_group. cbn [fst snd] in *.
  assert (G ∈ groups (grid st1)) as HG1.
  { destruct Hn1 as (_ & _ & -> & _). done. }
  set (empty_cells := filter _ _).
  set (I := λ r : SolverState * bool,
              sound sol (grid r.1) ∧ narrowed (grid st1) (grid r.1)).
  assert (I (st1, b1)) as HI0 by (split; [done|apply narrowed_refl]).
  match goal with |- _ ∧ narrowed _ (grid (fold_left ?f ?l ?a).1) =>
    assert (I (fold_left f l a)) as [Hsr Hnr] end;
    [|split; [done|by eapply narrowed_trans]].
  apply (fold_left_inv _ I); [|done].
  intros acc1 size _ Hacc1.
  apply (fold_left_inv _ I); [|done].
  intros [st2 b2] combo Hcombo [Hs2 Hn2]. unfold naked_subsets_combo.
  cbn [fst snd] in *.
  set (union := fold_left _ combo []).
  destruct (length union =? size) eqn:Hlen; [|by split].
  apply Nat.eqb_eq in Hlen.
  apply combinations_spec in Hcombo as [Hclen Hcsub].
  assert (G ∈ groups (grid st2)) as HG2.
  { destruct Hn2 as (_ & _ & -> & _). done. }
  assert (∀ p, is_empty_at (grid st2) p = is_empty_at (grid st1) p) as He2.
  { by destruct Hn2 as (_ & _ & _ & ? & _). }
  assert (combo `sublist_of` g_cells G) as HsubG.
  { etrans; [done|]. subst empty_cells. apply sublist_filter. }
  apply (fold_left_inv _ I); [|by split].
  intros acc3 q Hq Hacc3. apply strip_sound; [|done].
  intros _.
  apply list_elem_of_filter in Hq as [[Hqc Hqe] HqG].
  apply (naked_subset_values sol (grid st2) G combo); try done.
  - intros c Hc. rewrite He2.
    assert (c ∈ empty_cells) as Hc' by (by eapply sublist_subseteq).
    subst empty_cells. by apply list_elem_of_filter in Hc' as [? _].
  - intros c x Hc Hx. subst union. apply elem_of_union_fold. right. eauto.
  - congruence.
Qed.

(** *** Hidden subsets *)

Lemma same_cells_true a b : same_cells a b = true ↔ a ⊆ b ∧ b ⊆ a.
Proof.
  unfold same_cells. by rewrite andb_true_iff, !bool_decide_eq_true.
Qed.

Lemma same_cells_refl a : same_cells a a = true.
Proof. by apply same_cells_true. Qed.

Lemma comb_incr_spec c d k n :
  (k, n) ∈ comb_incr c d →
  (k, n) ∈ d
  ∨ (∃ n0, (k, n0) ∈ d ∧ n = S n0 ∧ same_cells k c = true)
  ∨ (k = c ∧ n = 1).
Proof.
  induction d as [|[k0 n0] d IH]; cbn.
  - intros [= -> ->]%list_elem_of_singleton. by right; right.
  - destruct (same_cells k0 c) eqn:E.
    + intros [[= -> ->]|Hin]%elem_of_cons.
      * right; left. exists n0. split; [left|done].
      * left. by right.
    + intros [[= -> ->]|Hin]%elem_of_cons; [left; left|].
      destruct (IH Hin) as [?|[(m & ? & ? & ?)|[? ?]]].
      * left. by right.
      * right; left. exists m. split; [by right|done].
      * by right; right.
Qed.

Lemma comb_appear_spec (max_size : nat) (L2 L1 : list (nat * list pos))
    (d : list (list pos * nat)) k n :
  (∀ k n, (k, n) ∈ d →
     (∃ kv, kv ∈ L1 ∧ k = kv.2)
     ∧ n ≤ length (filter (λ kv, same_cells k kv.2 = true) L1)) →
  (k, n) ∈ fold_left
             (λ d kv, if length kv.2 <=? max_size then comb_incr kv.2 d else d)
             L2 d →
  (∃ kv, kv ∈ L1 ++ L2 ∧ k = kv.2)
  ∧ n ≤ length (filter (λ kv, same_cells k kv.2 = true) (L1 ++ L2)).
Proof.
  revert L1 d. induction L2 as [|kv L2 IH]; intros L1 d Hd; cbn [fold_left].
  { rewrite app_nil_r. apply Hd. }
  replace (L1 ++ kv :: L2) with ((L1 ++ [kv]) ++ L2) by (by rewrite <- app_assoc).
  apply IH. intros k' n' Hin.
  assert (∀ k0 n0, (k0, n0) ∈ d →
            (∃ kv0, kv0 ∈ L1 ++ [kv] ∧ k0 = kv0.2)
            ∧ n0 ≤ length (filter (λ kv0, same_cells k0 kv0.2 = true) (L1 ++ [kv])))
    as Hold.
  { intros k0 n0 H0. destruct (Hd k0 n0 H0) as [(kv0 & ? & ?) Hle]. split.
    - exists kv0. split; [apply elem_of_app; by left|done].
    - rewrite filter_app, length_app. lia. }
  destruct (length kv.2 <=? max_size); [|by apply Hold].
  apply comb_incr_spec in Hin as [Hin|[(m & Hin & -> & Hsame)|[-> ->]]].
  - by apply Hold.
  - destruct (Hd k' m Hin) as [(kv0 & ? & ?) Hle]. split.
    + exists kv0. split; [apply elem_of_app; by left|done].
    + rewrite filter_app, length_app. rewrite filter_cons, decide_True by done.
      cbn. lia.
  - split.
    + exists kv. split; [apply elem_of_app; right; left|done].
    + rewrite filter_app, length_app. rewrite filter_cons.
      rewrite decide_True by apply same_cells_refl. cbn. lia.
Qed.

(** The values confined to the cells of [key] are the solution values of
    those cells. *)
Lemma hidden_subset_values sol g G key item c :
  sound sol g → G ∈ groups g →
  let cands_to_cells :=
    map (λ v, (v, remove_dups (holders g G v))) (full_range (g_size G)) in
  (∃ kv, kv ∈ cands_to_cells ∧ key = kv.2) →
  item ≤ length (filter (λ kv, same_cells key kv.2 = true) cands_to_cells) →
  item = length key → 2 ≤ item →
  c ∈ key →
  sol c ∈ map fst (filter (λ kv, same_cells key kv.2 = true) cands_to_cells).
Proof.
  intros Hs HG ctc (kv & Hkv & ->) Hitem Hlen H2 Hc.
  pose proof Hs as (Hwf & Hsol & _).
  subst ctc. apply list_elem_of_fmap in Hkv as (v0 & -> & Hv0). cbn [snd] in *.
  set (key := remove_dups (holders g G v0)) in *.
  set (ctc := map (λ v, (v, remove_dups (holders g G v))) (full_range (g_size G))) in *.
  set (keep := map fst (filter (λ kv, same_cells key kv.2 = true) ctc)).
  assert (∀ v, v ∈ keep → same_cells key (remove_dups (holders g G v)) = true)
    as Hkeep.
  { intros v (kv & -> & Hkv)%list_elem_of_fmap.
    apply list_elem_of_filter in Hkv as [Hsame Hkv].
    apply list_elem_of_fmap in Hkv as (v' & -> & _). done. }
  assert (NoDup keep) as Hndk.
  { apply NoDup_fmap_2_strong.
    - intros [a1 b1] [a2 b2] [_ Hk1]%list_elem_of_filter [_ Hk2]%list_elem_of_filter.
      apply list_elem_of_fmap in Hk1 as (v1 & [= -> ->] & _).
      apply list_elem_of_fmap in Hk2 as (v2 & [= -> ->] & _).
      cbn. by intros ->.
    - apply NoDup_filter. apply NoDup_fmap_2_strong; [|apply NoDup_seq].
      by intros a b _ _ [= ->]. }
  assert (key ⊆ g_cells G) as HkeyG.
  { intros x Hx. subst key. rewrite elem_of_remove_dups in Hx.
    unfold holders in Hx. by apply list_elem_of_filter in Hx as [_ ?]. }
  assert (NoDup (sol <$> key)) as Hnd.
  { apply NoDup_fmap_2_strong; [|apply NoDup_remove_dups].
    intros a b Ha Hb. apply (solution_inj g sol G); auto. }
  assert (keep ≡ₚ sol <$> key) as Hperm.
  { apply submseteq_length_Permutation.
    - apply NoDup_submseteq.
      + done.
      + intros v Hv. apply Hkeep in Hv.
        apply same_cells_true in Hv as [H1 H3].
        assert (c ∈ holders g G v) as Hh.
        { rewrite <- elem_of_remove_dups. by apply H1. }
        destruct (sound_owner sol g G v c Hs HG Hh) as (o & Ho & Hov).
        apply list_elem_of_fmap. exists o. split; [done|].
        apply H3. by rewrite elem_of_remove_dups.
    - rewrite length_fmap. subst keep. rewrite length_map. lia. }
  rewrite Hperm. by apply list_elem_of_fmap_2.
Qed.

Lemma hidden_pairs_sound sol st :
  sound sol (grid st) →
  sound sol (grid (hidden_pairs st).1)
  ∧ narrowed (grid st) (grid (hidden_pairs st).1).
Proof.
  intros Hs. unfold hidden_pairs.
  apply (fold_left_inv _ (λ r, sound sol (grid r.1) ∧ narrowed (grid st) (grid r.1)));
    [|split; [done|apply narrowed_refl]].
  intros [st1 b1] G HG [Hs1 Hn1]. unfold hidden_pairs_group. cbn [fst snd] in *.
  assert (G ∈ groups (grid st1)) as HG1.
  { destruct Hn1 as (_ & _ & -> & _). done. }
  set (ctc := map _ (full_range (g_size G))).
  set (comb_appear := fold_left _ ctc []).
  set (I := λ r : SolverState * bool,
              sound sol (grid r.1) ∧ narrowed (grid st1) (grid r.1)).
  assert (I (st1, b1)) as HI0 by (split; [done|apply narrowed_refl]).
  match goal with |- _ ∧ narrowed _ (grid (fold_left ?f ?l ?a).1) =>
    assert (I (fold_left f l a)) as [Hsr Hnr] end;
    [|split; [done|by eapply narrowed_trans]].
  apply (fold_left_inv _ I); [|done].
  intros [st2 b2] [key item] Hentry Hacc2. unfold hidden_pairs_key.
  cbn [fst snd] in *.
  destruct (item <? 2) eqn:H2; [done|]. apply Nat.ltb_ge in H2.
  destruct (item =? length key) eqn:Hlen; cbn [negb]; [|done].
  apply Nat.eqb_eq in Hlen.
  subst comb_appear.
  apply (comb_appear_spec 3 ctc [] []) in Hentry as [Hkey Hitem];
    [|by intros ? ? ?%elem_of_nil].
  rewrite app_nil_l in Hkey, Hitem.
  apply (fold_left_inv _ I); [|done].
  intros acc3 c Hc Hacc3. apply strip_sound; [|done].
  intros _ [_ Hnot]%elem_of_set_minus. apply Hnot.
  by apply (hidden_subset_values sol (grid st1) G key item c).
Qed.

(** ** [_init_candidates] establishes the invariant *)

Lemma elem_of_fold_discard g (qs : list pos) (s0 : list nat) x :
  x ∈ fold_left (λ s q, discard_opt (value_at g q) s) qs s0
  ↔ x ∈ s0 ∧ ∀ q, q ∈ qs → value_at g q ≠ Some x.
Proof.
  revert s0. induction qs as [|q qs IH]; intros s0; cbn.
  - split; [|tauto]. intros H. split; [done|]. by intros q ?%elem_of_nil.
  - rewrite IH. unfold discard_opt. split.
    + intros [Hx Hqs]. destruct (value_at g q) as [w|] eqn:Hw.
      * apply elem_of_discard in Hx as [Hx Hne]. split; [done|].
        intros q' [->|?]%elem_of_cons; [congruence|auto].
      * split; [done|]. intros q' [->|?]%elem_of_cons; [congruence|auto].
    + intros [Hx Hqs]. split.
      * destruct (value_at g q) as [w|] eqn:Hw; [|done].
        apply elem_of_discard. split; [done|]. intros ->.
        by apply (Hqs q ltac:(left)).
      * intros q' Hq'. apply Hqs. by right.
Qed.

Lemma elem_of_get_candidates g p x :
  x ∈ get_candidates_for_cell g p
  ↔ x ∈ full_range (from_option g_size 0 (group_of g p))
    ∧ ∀ q, related g p q → value_at g q ≠ Some x.
Proof.
  unfold get_candidates_for_cell, related. rewrite !elem_of_fold_discard.
  split.
  - intros [[H1 H2] H3]. split; [done|]. intros q [?|?]; auto.
  - intros [H1 H2]. split; [split; [done|]|]; intros q ?; apply H2; auto.
Qed.

Lemma init_cell_unfold g p :
  init_cell g p
  = if is_empty_at g p then upd g p (set_candidates (get_candidates_for_cell g p))
    else g.
Proof. done. Qed.

Lemma value_at_upd_set_candidates g q s p :
  value_at (upd g q (set_candidates s)) p = value_at g p.
Proof.
  unfold value_at. rewrite cell_at_upd. case_decide; [subst|done].
  by destruct (cell_at g p).
Qed.

Lemma get_candidates_frame g g' p :
  rows g' = rows g → cols g' = cols g → group_of g' p = group_of g p →
  (∀ q, value_at g' q = value_at g q) →
  get_candidates_for_cell g' p = get_candidates_for_cell g p.
Proof.
  intros Hr Hc HG Hv. unfold get_candidates_for_cell.
  rewrite (get_neighbors_frame g g'), (get_group_peers_frame g g'), HG by done.
  assert (∀ s q, discard_opt (value_at g' q) s = discard_opt (value_at g q) s) as Hd.
  { intros s q. by rewrite Hv. }
  rewrite (fold_left_same _ (λ s q, discard_opt (value_at g q) s) (get_neighbors g p))
    by done.
  f_equal. by apply fold_left_same.
Qed.

Lemma is_empty_at_upd_set_candidates g q s p :
  is_empty_at (upd g q (set_candidates s)) p = is_empty_at g p.
Proof.
  unfold is_empty_at. rewrite cell_at_upd. case_decide; [subst|done].
  by destruct (cell_at g p).
Qed.

(** The board during initialisation: same values, groups and shape as the
    board [g] it started from. *)
Lemma init_fold g ps g1 :
  wf_grid g1 → rows g1 = rows g → cols g1 = cols g → groups g1 = groups g →
  (∀ q, group_of g1 q = group_of g q) →
  (∀ q, value_at g1 q = value_at g q) →
  (∀ q, is_empty_at g1 q = is_empty_at g q) →
  let g' := fold_left init_cell ps g1 in
  wf_grid g' ∧ rows g' = rows g ∧ cols g' = cols g ∧ groups g' = groups g
  ∧ (∀ q, group_of g' q = group_of g q)
  ∧ (∀ q, value_at g' q = value_at g q)
  ∧ (∀ q, is_empty_at g' q = is_empty_at g q)
  ∧ ∀ p, is_empty_at g p = true →
         cands_at g1 p = get_candidates_for_cell g p ∨ p ∈ ps →
         cands_at g' p = get_candidates_for_cell g p.
Proof.
  revert g1. induction ps as [|p0 ps IH]; intros g1 Hwf Hr Hc Hg HG Hv He; cbn zeta.
  { cbn [fold_left]. split_and!; try done.
    intros p _ [?|?%elem_of_nil]; done. }
  cbn [fold_left].
  rewrite init_cell_unfold, He.
  rewrite (get_candidates_frame g g1) by done.
  destruct (is_empty_at g p0) eqn:Hp0.
  - set (s := get_candidates_for_cell g p0).
    specialize (IH (upd g1 p0 (set_candidates s))).
    destruct IH as (W & R & C & GR & GO & V & E & K).
    + by apply wf_upd.
    + done.
    + done.
    + done.
    + intros q. by rewrite group_of_upd.
    + intros q. by rewrite value_at_upd_set_candidates.
    + intros q. by rewrite is_empty_at_upd_set_candidates.
    + split_and!; try done. intros p Hp Hor. apply K; [done|].
      destruct (decide (p = p0)) as [->|Hne].
      * left. unfold cands_at. rewrite cell_at_upd_eq.
        rewrite <- He in Hp0. apply is_empty_at_Some in Hp0 as (c & -> & _). done.
      * destruct Hor as [Hold|[->|Hin]%elem_of_cons]; [|done|by right].
        left. by rewrite cands_at_upd_ne.
  - specialize (IH g1 Hwf Hr Hc Hg HG Hv He).
    destruct IH as (W & R & C & GR & GO & V & E & K).
    split_and!; try done. intros p Hp Hor. apply K; [done|].
    destruct Hor as [Hold|[->|Hin]%elem_of_cons]; [by left|congruence|by right].
Qed.

Lemma elem_of_positions nrows mcols p :
  p ∈ positions nrows mcols ↔ p.1 < nrows ∧ p.2 < mcols.
Proof.
  unfold positions. rewrite list_elem_of_bind. split.
  - intros (r & (c & ->%list_elem_of_singleton & Hc%elem_of_seq)%list_elem_of_bind
              & Hr%elem_of_seq). cbn. lia.
  - intros [Hr Hc]. exists p.1. split; [|apply elem_of_seq; lia].
    apply list_elem_of_bind. exists p.2. split; [|apply elem_of_seq; lia].
    destruct p. by apply list_elem_of_singleton.
Qed.

Lemma init_candidates_sound sol g :
  wf_grid g → is_solution g sol → sound sol (init_candidates g).
Proof.
  intros Hwf Hsol. unfold init_candidates.
  destruct (init_fold g (positions (rows g) (cols g)) g)
    as (W & R & C & GR & GO & V & E & K); try done.
  set (g' := fold_left init_cell (positions (rows g) (cols g)) g) in *.
  assert (∀ p, is_empty_at g' p = true → is_empty_at g p = true) as He.
  { intros p. by rewrite E. }
  assert (∀ p, is_empty_at g' p = true →
               cands_at g' p = get_candidates_for_cell g p) as Hcands.
  { intros p Hp. apply K; [by apply He|]. right.
    apply elem_of_positions. apply (is_empty_at_in_grid g p Hwf). by apply He. }
  split; [done|]. split; [|split; [|split]].
  - destruct Hsol as (Hv & Hperm & Hadj). split; [|split].
    + intros p v. rewrite V. apply Hv.
    + by rewrite GR.
    + unfold in_grid. by rewrite R, C.
  - intros p Hp. rewrite Hcands by done. apply elem_of_get_candidates.
    pose proof (is_empty_at_in_grid g p Hwf (He p Hp)) as Hpin.
    destruct (wf_group_of_in_grid g p Hwf Hpin) as [G HG]. rewrite HG. cbn.
    apply wf_group_of in HG as [HG HpG]; [|done]. split.
    + by eapply solution_range.
    + intros q Hrel Hq.
      assert (sol q = sol p) as Heq by (destruct Hsol as (Hv & _); by apply Hv).
      by apply (solution_related g sol p q).
  - intros a va b Ha Hrel Hb. rewrite Hcands by done.
    rewrite V in Ha. rewrite related_frame in Hrel by done.
    intros [_ Hx]%elem_of_get_candidates. apply (Hx a); [|done].
    apply (wf_related_sym g a b); [done| |done]. by eapply value_at_in_grid.
  - intros p G x Hp HG. rewrite Hcands by done. rewrite GO in HG.
    intros [Hx _]%elem_of_get_candidates. by rewrite HG in Hx.
Qed.

(** ** [clone] of a well-formed board *)

Lemma map_seq_lookup {A} (l : list A) (d : A) :
  map (λ i, default d (l !! i)) (seq 0 (length l)) = l.
Proof.
  apply list_eq. intros i. change map with (@fmap list _). rewrite list_lookup_fmap.
  destruct (decide (i < length l)) as [Hi|Hi].
  - rewrite lookup_seq_lt by done. cbn.
    destruct (lookup_lt_is_Some_2 l i Hi) as [x ->]. done.
  - rewrite lookup_seq_ge by lia. cbn. symmetry. apply lookup_ge_None. lia.
Qed.

Lemma clone_wf g : wf_grid g → clone g = g.
Proof.
  intros (Hlen & Hrow & _). destruct g as [nr mc cs gs]. unfold clone. cbn in *.
  f_equal.
  - etrans; [|apply (map_seq_lookup cs [])]. rewrite Hlen.
    apply map_ext_in. intros r Hr%list_elem_of_In%elem_of_seq.
    unfold cell_at. cbn.
    destruct (lookup_lt_is_Some_2 cs r ltac:(lia)) as [row Hrw]. rewrite Hrw. cbn.
    etrans; [|apply (map_seq_lookup row (mkCell None [] 0))].
    rewrite (Hrow row) by (by eapply list_elem_of_lookup_2).
    apply map_ext. intros c. by destruct (default _ _).
  - etrans; [|apply map_id]. apply map_ext. intros [gid gsz gc]. cbn. f_equal.
    etrans; [|apply map_id]. apply map_ext. by intros [].
Qed.

(** ** [solve] returns on a board that has a solution *)

Lemma noraise_bind {A B} (m : outcome A) (k : A → outcome B) (Q : A → Prop)
    (R : B → Prop) :
  noraise m Q → (∀ a, Q a → noraise (k a) R) → noraise (m ≫= k) R.
Proof. destruct m; cbn; auto. Qed.

Lemma returns_noraise {A} (m : outcome A) (Q : A → Prop) :
  returns m Q → noraise m Q.
Proof. by destruct m. Qed.

Lemma noraise_weaken {A} (m : outcome A) (Q R : A → Prop) :
  noraise m Q → (∀ a, Q a → R a) → noraise m R.
Proof. destruct m; cbn; auto. Qed.

Lemma level1_loop_noraise sol fuel st changed :
  sound sol (grid st) →
  noraise (level1_loop fuel st changed) (λ r, sound sol (grid r.1)).
Proof.
  revert st changed. induction fuel as [|fuel IH]; intros st changed Hs; [done|].
  cbn [level1_loop].
  eapply noraise_bind; [by apply returns_noraise, naked_single_sound|].
  intros [st1 placed] [Hs1 _]. cbn [fst snd] in *.
  destruct placed; [by apply IH|].
  eapply noraise_bind; [by apply returns_noraise, hidden_single_sound|].
  intros [st2 placed2] [Hs2 _]. cbn [fst snd] in *.
  destruct placed2; [by apply IH|done].
Qed.

Lemma solve_pass_noraise sol d st :
  sound sol (grid st) →
  noraise (solve_pass d st) (λ r, sound sol (grid r.1)).
Proof.
  intros Hs. unfold solve_pass.
  eapply noraise_bind; [by apply level1_loop_noraise|].
  intros [st1 ch1] Hs1. cbn [fst snd] in *.
  destruct (is_complete (grid st1)); [done|].
  set (r2 := if (2 <=? d)%Z then _ else _).
  assert (sound sol (grid r2.1)) as Hs2.
  { subst r2. case_match; [|done]. by apply neighbor_elimination_sound. }
  clearbody r2. destruct r2 as [st2 ch2]. cbn [fst snd] in *.
  destruct (is_complete (grid st2)); [done|].
  set (r3 := if (3 <=? d)%Z then _ else _).
  assert (sound sol (grid r3.1)) as Hs3.
  { subst r3. case_match; [|done].
    pose proof (naked_subsets_sound sol st2 Hs2) as [Hn _].
    destruct (naked_subsets_generalized st2) as [st3 b3]. cbn [fst snd] in *.
    destruct b3; [done|]. by apply hidden_pairs_sound. }
  clearbody r3. destruct r3 as [st3 ch3]. cbn [fst snd] in *.
  by destruct (is_complete (grid st3)).
Qed.

Lemma solve_loop_noraise sol fuel d st :
  sound sol (grid st) →
  noraise (solve_loop fuel d st) (λ st', sound sol (grid st')).
Proof.
  revert st. induction fuel as [|fuel IH]; intros st Hs; [done|].
  cbn [solve_loop].
  eapply noraise_bind; [by apply solve_pass_noraise|].
  intros [st' again] Hs'. cbn [fst snd] in *.
  destruct again; [by apply IH|done].
Qed.

(** On a well-formed board that has a solution, [solve] returns: it does
    not raise [Contradiction], and the board of its result still has that
    solution. *)
Lemma solve_returns sol g d :
  wf_grid g → is_solution g sol →
  ∃ r, solve g d = Ret r ∧ sound sol (result_grid r).
Proof.
  intros Hwf Hsol.
  pose proof (solve_ends g d) as Hends. unfold solve in *.
  rewrite (clone_wf g Hwf) in *.
  pose proof (solve_loop_noraise sol (S (measure (init_candidates g))) d
                (mkState (init_candidates g) [])
                (init_candidates_sound sol g Hwf Hsol)) as Hnr.
  cbn [grid] in *.
  destruct (solve_loop _ _ _) as [st| |]; cbn in *; [|done..].
  eexists. split; [done|]. done.
Qed.

(** ** Filling and blanking a cell *)

Lemma num_empty_upd g p f c :
  cell_at g p = Some c →
  num_empty (upd g p f) + empty_weight c = num_empty g + empty_weight (f c).
Proof.
  destruct p as [r k]. unfold cell_at, num_empty, upd. cbn.
  destruct (cells g !! r) as [row|] eqn:Hrow; cbn; [|done]. intros Hc.
  pose proof (sum_list_alter (λ row, sum_list (map empty_weight row)) (alter f k)
                (cells g) r row Hrow) as H1.
  pose proof (sum_list_alter empty_weight f row k c Hc) as H2.
  cbn in H1. lia.
Qed.

Lemma num_empty_fill g p v :
  is_empty_at g p = true → num_empty (upd g p (set_value (Some v))) < num_empty g.
Proof.
  intros (c & Hc & Hv)%is_empty_at_Some.
  pose proof (num_empty_upd g p (set_value (Some v)) c Hc) as H.
  assert (empty_weight c = 1) as E1.
  { unfold empty_weight. by rewrite bool_decide_eq_true_2. }
  assert (empty_weight (set_value (Some v) c) = 0) as E2 by done.
  lia.
Qed.

Lemma upd_upd g p f f' : upd (upd g p f) p f' = upd g p (f' ∘ f).
Proof.
  unfold upd. cbn. f_equal. rewrite list_alter_alter_eq.
  apply list_alter_ext; [|done]. intros row _. cbn. apply list_alter_alter_eq.
Qed.

Lemma upd_id g p f :
  (∀ c, cell_at g p = Some c → f c = c) → upd g p f = g.
Proof.
  intros Hf. destruct g as [nr mc cs gs], p as [r k]. unfold upd, cell_at in *.
  cbn in *. f_equal.
  rewrite (list_alter_ext _ id cs cs r); [by apply list_alter_id| |done].
  intros row Hrow. rewrite Hrow in Hf. cbn in Hf.
  rewrite (list_alter_ext _ id row row k); [by apply list_alter_id| |done].
  intros c Hc. by apply Hf.
Qed.

Lemma upd_restore g p v :
  is_empty_at g p = true →
  upd (upd g p (set_value (Some v))) p (set_value None) = g.
Proof.
  intros (c & Hc & Hv)%is_empty_at_Some. rewrite upd_upd. apply upd_id.
  intros c' Hc'. rewrite Hc in Hc'. inversion Hc'; subst.
  destruct c' as [val cs gid]. cbn in *. by subst.
Qed.

Lemma upd_refill g p v :
  value_at g p = Some v →
  upd (upd g p (set_value None)) p (set_value (Some v)) = g.
Proof.
  intros Hv. rewrite upd_upd. apply upd_id.
  intros c Hc. unfold value_at in Hv. rewrite Hc in Hv. cbn in Hv.
  destruct c as [val cs gid]. cbn in *. by subst.
Qed.

Lemma value_at_upd_set_value g p ov q :
  value_at (upd g p (set_value ov)) q
  = if decide (p = q) then cell_at g q ≫= λ _, ov else value_at g q.
Proof.
  unfold value_at. rewrite cell_at_upd. case_decide; [subst|done].
  by destruct (cell_at g q).
Qed.

Lemma value_at_fill g p v q :
  is_Some (cell_at g p) →
  value_at (upd g p (set_value (Some v))) q
  = if decide (p = q) then Some v else value_at g q.
Proof.
  intros [c Hc]. rewrite value_at_upd_set_value. case_decide; [subst|done].
  by rewrite Hc.
Qed.

Lemma is_empty_at_upd_ne g p f q :
  p ≠ q → is_empty_at (upd g p f) q = is_empty_at g q.
Proof. intros. unfold is_empty_at. by rewrite cell_at_upd_ne. Qed.

Lemma not_related_self g p : wf_grid g → in_grid g p → ¬ related g p p.
Proof.
  intros Hwf Hp [H|H].
  - apply wf_peers in H as (G & _ & _ & _ & Hne); done.
  - apply get_neighbors_spec in H as [_ [Hne _]]; done.
Qed.

(** ** [find_best_empty_cell] and [is_complete] *)

Lemma best_fold_Some g ps st p n :
  fold_left (best_step g) ps st = Some (p, n) →
  st = Some (p, n) ∨ (p ∈ ps ∧ is_empty_at g p = true).
Proof.
  revert st. induction ps as [|q ps IH]; intros st; cbn; [by left|].
  intros [Hst|[Hin He]]%IH; [|right; split; [by right|done]].
  unfold best_step in Hst. destruct (is_empty_at g q) eqn:Hq; [|by left].
  destruct st as [[p0 m]|].
  - case_match; [|by left]. inversion Hst; subst. right. split; [left|done].
  - inversion Hst; subst. right. split; [left|done].
Qed.

Lemma best_fold_None g ps st :
  fold_left (best_step g) ps st = None →
  st = None ∧ ∀ p, p ∈ ps → is_empty_at g p = false.
Proof.
  revert st. induction ps as [|q ps IH]; intros st; cbn.
  - intros ->. split; [done|]. by intros p ?%elem_of_nil.
  - intros [Hst Hps]%IH. unfold best_step in Hst.
    destruct (is_empty_at g q) eqn:Hq.
    + destruct st as [[p0 m]|]; [by case_match|done].
    + split; [done|]. intros p [->|?]%elem_of_cons; auto.
Qed.

Lemma find_best_Some g p :
  find_best_empty_cell g = Some p → in_grid g p ∧ is_empty_at g p = true.
Proof.
  unfold find_best_empty_cell.
  destruct (fold_left _ _ _) as [[p' n]|] eqn:E; cbn; [|done].
  intros [= ->]. apply best_fold_Some in E as [?|[Hin He]]; [done|].
  split; [|done]. by apply elem_of_positions in Hin.
Qed.

Lemma find_best_None g p :
  find_best_empty_cell g = None → in_grid g p → is_empty_at g p = false.
Proof.
  unfold find_best_empty_cell.
  destruct (fold_left _ _ _) as [[p' n]|] eqn:E; cbn; [done|].
  intros _ Hp. apply best_fold_None in E as [_ H]. apply H.
  by apply elem_of_positions.
Qed.

Lemma is_complete_true g :
  is_complete g = true ↔ ∀ p c, cell_at g p = Some c → value c ≠ None.
Proof.
  unfold is_complete. rewrite forallb_forall. split.
  - intros H [r k] c. unfold cell_at. cbn.
    destruct (cells g !! r) as [row|] eqn:Hrow; cbn; [|done]. intros Hc.
    specialize (H row). rewrite forallb_forall in H.
    assert (bool_decide (value c ≠ None) = true) as Hb.
    { apply H.
      - apply list_elem_of_In. by eapply list_elem_of_lookup_2.
      - apply list_elem_of_In. by eapply list_elem_of_lookup_2. }
    by apply bool_decide_eq_true in Hb.
  - intros H row Hrow%list_elem_of_In. rewrite forallb_forall.
    intros c Hc%list_elem_of_In. apply bool_decide_eq_true.
    apply list_elem_of_lookup in Hrow as [r Hr]. apply list_elem_of_lookup in Hc as [k Hk].
    apply (H (r, k)). unfold cell_at. cbn. by rewrite Hr.
Qed.

Lemma no_empty_complete g :
  (∀ p, is_empty_at g p = false) → is_complete g = true.
Proof.
  intros H. apply is_complete_true. intros p c Hc Hv.
  specialize (H p). unfold is_empty_at in H. rewrite Hc in H.
  by rewrite bool_decide_eq_true_2 in H.
Qed.

Lemma wf_find_best_None g :
  wf_grid g → find_best_empty_cell g = None → is_complete g = true.
Proof.
  intros Hwf Hnone. apply no_empty_complete. intros p.
  destruct (is_empty_at g p) eqn:E; [|done].
  rewrite <- (find_best_None g p Hnone); [done|]. by apply is_empty_at_in_grid.
Qed.

(** ** Candidates of a cell and the solutions of the board *)

Lemma discard_opt_NoDup ov s : NoDup s → NoDup (discard_opt ov s).
Proof. destruct ov; [|done]. apply NoDup_filter. Qed.

Lemma fold_discard_NoDup g (qs : list pos) s :
  NoDup s → NoDup (fold_left (λ s q, discard_opt (value_at g q) s) qs s).
Proof.
  revert s. induction qs as [|q qs IH]; intros s Hs; cbn; [done|].
  by apply IH, discard_opt_NoDup.
Qed.

Lemma get_candidates_NoDup g p : NoDup (get_candidates_for_cell g p).
Proof.
  unfold get_candidates_for_cell. do 2 apply fold_discard_NoDup. apply NoDup_seq.
Qed.

Lemma solution_candidate g p sol :
  wf_grid g → is_solution g sol → in_grid g p →
  sol p ∈ get_candidates_for_cell g p.
Proof.
  intros Hwf Hsol Hp. apply elem_of_get_candidates. split.
  - destruct (wf_group_of_in_grid g p Hwf Hp) as [G HG]. rewrite HG. cbn.
    apply wf_group_of in HG as [HG1 HG2]; [|done]. by eapply solution_range.
  - intros q Hrel Hv. pose proof Hsol as (Hval & _).
    apply Hval in Hv. by eapply solution_related.
Qed.

Lemma solution_fill g p v sol :
  is_empty_at g p = true →
  is_solution (upd g p (set_value (Some v))) sol ↔ is_solution g sol ∧ sol p = v.
Proof.
  intros He. pose proof He as (c & Hc & Hcv)%is_empty_at_Some.
  assert (Hnone : value_at g p = None) by (unfold value_at; by rewrite Hc).
  unfold is_solution. split.
  - intros (Hval & Hgr & Hadj). split; [split_and!; [|done..]|].
    + intros q w Hq. apply Hval. rewrite value_at_fill by eauto.
      case_decide; [subst; congruence|done].
    + apply Hval. rewrite value_at_fill by eauto. by rewrite decide_True.
  - intros [(Hval & Hgr & Hadj) Hp]. split_and!; [|done..].
    intros q w. rewrite value_at_fill by eauto.
    case_decide; [subst; congruence|]. apply Hval.
Qed.

Lemma consistent_fill g p v :
  wf_grid g → consistent g → is_empty_at g p = true →
  v ∈ get_candidates_for_cell g p →
  consistent (upd g p (set_value (Some v))).
Proof.
  intros Hwf Hcon He Hv.
  pose proof He as (c & Hc & Hcv)%is_empty_at_Some.
  pose proof (is_empty_at_in_grid g p Hwf He) as Hp.
  apply elem_of_get_candidates in Hv as [Hrange Hrel].
  intros q w. rewrite value_at_fill by eauto. case_decide as Hpq.
  - subst q. intros [= <-]. split.
    + intros G. rewrite group_of_upd by apply keeps_group_set_value.
      intros HG. by rewrite HG in Hrange.
    + intros r. rewrite related_upd by apply keeps_group_set_value.
      intros Hr. rewrite value_at_fill by eauto. case_decide; [subst r|by apply Hrel].
      by apply not_related_self in Hr.
  - intros Hq. destruct (Hcon q w Hq) as [Hr1 Hr2]. split.
    + intros G. rewrite group_of_upd by apply keeps_group_set_value. apply Hr1.
    + intros r. rewrite related_upd by apply keeps_group_set_value.
      intros Hr. rewrite value_at_fill by eauto. case_decide; [subst r|by apply Hr2].
      intros [= ->]. assert (in_grid g q) as Hqin.
      { apply wf_cell_at_in_grid; [done|]. unfold value_at in Hq.
        destruct (cell_at g q); [by eexists|done]. }
      apply wf_related_sym in Hr as [Hr _]; [|done..].
      by apply Hrel in Hr.
Qed.

(** A complete board whose values are consistent is its own, and only,
    solution. *)
Lemma complete_solution g :
  wf_grid g → consistent g → is_complete g = true →
  is_solution g (λ p, default 0 (value_at g p)).
Proof.
  intros Hwf Hcon Hcomp. rewrite is_complete_true in Hcomp.
  assert (Hfilled : ∀ p, in_grid g p → ∃ v, value_at g p = Some v).
  { intros p [c Hc]%wf_cell_at_in_grid; [|done]. unfold value_at. rewrite Hc. cbn.
    specialize (Hcomp p c Hc). destruct (value c); [by eexists|done]. }
  split_and!.
  - intros p v Hv. by rewrite Hv.
  - intros G HG. pose proof Hwf as (_ & _ & _ & _ & Hmem & Hsz).
    destruct (Hsz G HG) as [Hnd Hlen].
    apply submseteq_length_Permutation.
    + apply NoDup_submseteq.
      * apply NoDup_fmap_2_strong; [|done]. intros p q Hp Hq Heq.
        destruct (decide (p = q)) as [|Hne]; [done|exfalso].
        destruct (Hmem G p HG Hp) as (cp & Hcp & _).
        assert (in_grid g p) as Hpin by (apply wf_cell_at_in_grid; eauto).
        destruct (Hfilled p Hpin) as [v Hv].
        destruct (Hcon p v Hv) as [_ Hrel]. apply (Hrel q).
        -- left. apply wf_peers; [done|]. by exists G.
        -- destruct (Hmem G q HG Hq) as (cq & Hcq & _).
           assert (in_grid g q) as Hqin by (apply wf_cell_at_in_grid; eauto).
           destruct (Hfilled q Hqin) as [w Hw]. rewrite Hv, Hw in Heq. cbn in Heq.
           by subst.
      * intros x (p & -> & Hp)%list_elem_of_fmap.
        destruct (Hmem G p HG Hp) as (cp & Hcp & _).
        assert (in_grid g p) as Hpin by (apply wf_cell_at_in_grid; eauto).
        destruct (Hfilled p Hpin) as [v Hv]. rewrite Hv. cbn.
        destruct (Hcon p v Hv) as [Hr _]. apply Hr. apply wf_group_of; done.
    + rewrite length_fmap. unfold full_range. rewrite length_seq. lia.
  - intros p q Hp Hq Hadj Heq.
    destruct (Hfilled p Hp) as [v Hv]. destruct (Hfilled q Hq) as [w Hw].
    rewrite Hv, Hw in Heq. cbn in Heq. subst w.
    destruct (Hcon p v Hv) as [_ Hrel]. apply (Hrel q); [|done].
    right. by apply get_neighbors_spec.
Qed.

Lemma complete_unique g :
  wf_grid g → consistent g → is_complete g = true → unique_solution g.
Proof.
  intros Hwf Hcon Hcomp. exists (λ p, default 0 (value_at g p)).
  split; [by apply complete_solution|]. intros sol' (Hval & _) p Hp.
  rewrite is_complete_true in Hcomp.
  apply wf_cell_at_in_grid in Hp as [c Hc]; [|done].
  specialize (Hcomp p c Hc). unfold value_at at 1. rewrite Hc. cbn.
  destruct (value c) as [v|] eqn:Hv; [|done]. cbn. symmetry. apply Hval.
  unfold value_at. by rewrite Hc.
Qed.

(** ** The enumeration of [_count_solutions] *)

Lemma same_on_fill g p f s1 s2 : same_on (upd g p f) s1 s2 ↔ same_on g s1 s2.
Proof. done. Qed.

(** The loop leaves as soon as the limit is reached: the values that
    remain are not tried. *)
Lemma count_loop_abort rec limit p v vs g total_count count g1 :
  rec (upd g p (set_value (Some v))) = Ret (count, g1) →
  limit ≤ total_count + count →
  count_loop rec limit p (v :: vs) g total_count
  = Ret (limit, upd g1 p (set_value None)).
Proof.
  intros Hrec Hle. cbn. rewrite Hrec. cbn.
  destruct (Nat.leb_spec limit (total_count + count)); [done|lia].
Qed.

Lemma count_loop_spec rec g p :
  wf_grid g → is_empty_at g p = true →
  ∀ vs done tc,
    (∀ v, v ∈ vs →
       ∃ n, rec (upd g p (set_value (Some v)))
            = Ret (n, upd g p (set_value (Some v)))
            ∧ n ≤ 2 ∧ counts (upd g p (set_value (Some v))) n) →
    NoDup (done ++ vs) → tc < 2 → counts_in g p done tc →
    ∃ n, count_loop rec 2 p vs g tc = Ret (n, g) ∧ n ≤ 2
         ∧ counts_in g p (done ++ vs) n.
Proof.
  intros Hwf He. pose proof (is_empty_at_in_grid g p Hwf He) as Hp.
  induction vs as [|v vs IH]; intros done tc Hrec Hnd Htc Hcnt.
  { exists tc. rewrite app_nil_r. cbn. split_and!; [done|lia|done]. }
  destruct (Hrec v) as (n & Hr & Hn & Hc); [apply list_elem_of_here|].
  assert (v ∉ done) as Hv.
  { apply NoDup_app in Hnd as (_ & Hd & _). intros Hin. apply (Hd v Hin). apply list_elem_of_here. }
  cbn [count_loop]. rewrite Hr. cbn -[Nat.leb]. rewrite upd_restore by done.
  destruct (Nat.leb_spec 2 (tc + n)) as [Hle|Hlt].
  - exists 2. split_and!; [done..|]. right. right. split; [done|].
    destruct Hc as [[-> _]|[[-> Hu]|[-> (s1 & s2 & H1 & H2 & Hd)]]]; [lia| |].
    + destruct Hcnt as [[-> _]|[[_ (s1 & H1 & Hin & _)]|[-> _]]]; [lia| |lia].
      destruct Hu as (s2 & [H2 H2v]%solution_fill & _); [|done].
      exists s1, s2. split_and!; [done..|]. intros Hsame.
      apply Hv. rewrite <- H2v, <- (Hsame p Hp). done.
    + apply solution_fill in H1 as [H1 _]; [|done].
      apply solution_fill in H2 as [H2 _]; [|done].
      by exists s1, s2.
  - destruct (IH (done ++ [v]) (tc + n)) as (m & Hm & Hm2 & Hmc).
    + intros w Hw. apply Hrec. by right.
    + by rewrite <- app_assoc.
    + done.
    + destruct Hc as [[-> Hno]|[[-> Hu]|[-> _]]]; [| |lia].
      * rewrite Nat.add_0_r.
        destruct Hcnt as [[-> Hno']|[[-> (s1 & H1 & Hin & Hu1)]|[-> _]]]; [| |lia].
        -- left. split; [done|]. intros sol Hsol [Hin|Hin%list_elem_of_singleton]%elem_of_app.
           ++ by apply (Hno' sol).
           ++ apply Hno. exists sol. by apply solution_fill.
        -- right. left. split; [done|]. exists s1. split_and!; [done| |].
           ++ apply elem_of_app. by left.
           ++ intros sol Hsol [Hin'|Hin'%list_elem_of_singleton]%elem_of_app.
              ** by apply Hu1.
              ** exfalso. apply Hno. exists sol. by apply solution_fill.
      * destruct Hcnt as [[-> Hno']|[[-> _]|[-> _]]]; [|lia..].
        destruct Hu as (s2 & H2 & Hu2).
        pose proof H2 as [H2g H2v]%solution_fill; [|done].
        right. left. split; [done|]. exists s2. split_and!; [done| |].
        -- apply elem_of_app. right. by apply list_elem_of_singleton.
        -- intros sol Hsol [Hin'|Hin'%list_elem_of_singleton]%elem_of_app.
           ++ by apply Hno' in Hin'.
           ++ apply (Hu2 sol). by apply solution_fill.
    + exists m. by rewrite <- app_assoc in Hmc.
Qed.

Lemma counts_in_all g p n :
  wf_grid g → in_grid g p →
  counts_in g p (get_candidates_for_cell g p) n → counts g n.
Proof.
  intros Hwf Hp [[-> Hno]|[[-> (s & Hs & _ & Hu)]|H]].
  - left. split; [done|]. intros [sol Hsol]. apply (Hno sol Hsol).
    by apply solution_candidate.
  - right. left. split; [done|]. exists s. split; [done|]. intros sol' Hsol'.
    apply Hu; [done|]. by apply solution_candidate.
  - right. by right.
Qed.

(** With fuel beyond the number of empty cells the enumeration of a
    well-formed board with consistent values returns; it hands the board
    back as it received it, and the count says whether the board has no
    solution, one, or at least two. *)
Lemma count_solutions_spec fuel :
  ∀ g, wf_grid g → consistent g → num_empty g < fuel →
    ∃ n, count_solutions fuel g 2 = Ret (n, g) ∧ n ≤ 2 ∧ counts g n.
Proof.
  induction fuel as [|fuel IH]; intros g Hwf Hcon Hfuel; [lia|].
  cbn [count_solutions]. destruct (is_complete g) eqn:Hcomp.
  { exists 1. split_and!; [done|lia|]. right. left. split; [done|].
    by apply complete_unique. }
  destruct (find_best_empty_cell g) as [p|] eqn:Hbest.
  2:{ apply wf_find_best_None in Hbest; [congruence|done]. }
  apply find_best_Some in Hbest as [Hp He].
  destruct (count_loop_spec (λ g', count_solutions fuel g' 2) g p Hwf He
              (get_candidates_for_cell g p) [] 0) as (n & Hn & Hn2 & Hc).
  - intros v Hv. apply IH.
    + apply wf_upd; [apply keeps_group_set_value|done].
    + by apply consistent_fill.
    + pose proof (num_empty_fill g p v He). lia.
  - apply get_candidates_NoDup.
  - lia.
  - left. split; [done|]. by intros sol _ ?%elem_of_nil.
  - exists n. split_and!; [done..|]. by eapply counts_in_all.
Qed.

Lemma counts_unique g n : counts g n → n = 1 ↔ unique_solution g.
Proof.
  intros [[-> Hno]|[[-> Hu]|[-> (s1 & s2 & H1 & H2 & Hd)]]].
  - split; [done|]. intros (sol & Hsol & _). exfalso. apply Hno. by exists sol.
  - done.
  - split; [done|]. intros (sol & Hsol & Hu). exfalso. apply Hd.
    intros p Hp. rewrite <- (Hu s1 H1 p Hp). by apply Hu.
Qed.

Lemma has_unique_solution_spec g :
  wf_grid g → consistent g →
  ∃ b, has_unique_solution g = Ret b ∧ (b = true ↔ unique_solution g).
Proof.
  intros Hwf Hcon. unfold has_unique_solution. rewrite clone_wf by done.
  destruct (count_solutions_spec (S (num_empty g)) g Hwf Hcon) as (n & -> & _ & Hc);
    [lia|].
  exists (n =? 1). split; [done|]. rewrite Nat.eqb_eq. by apply counts_unique.
Qed.

(** ** Boards built from a layout *)

Lemma positions_concat nrows mcols :
  positions nrows mcols
  = concat (map (λ r, map (λ c, (r, c)) (seq 0 mcols)) (seq 0 nrows)).
Proof.
  unfold positions. induction (seq 0 nrows) as [|r rs IH]; [done|].
  cbn. rewrite <- IH. f_equal.
Qed.

Lemma positions_NoDup nrows mcols : NoDup (positions nrows mcols).
Proof.
  unfold positions. apply NoDup_bind.
  - intros r1 r2 p _ _ (c1 & Hp1 & _)%list_elem_of_bind (c2 & Hp2 & _)%list_elem_of_bind.
    apply list_elem_of_singleton in Hp1, Hp2. congruence.
  - intros r _. apply NoDup_bind.
    + intros c1 c2 p _ _ Hp1%list_elem_of_singleton Hp2%list_elem_of_singleton.
      congruence.
    + intros c _. apply NoDup_singleton.
    + apply NoDup_seq.
  - apply NoDup_seq.
Qed.

Lemma shaped_layout nrows mcols layout :
  shaped nrows mcols layout →
  layout = map (λ r, map (λ c, layout_at layout (r, c)) (seq 0 mcols)) (seq 0 nrows).
Proof.
  intros [Hlen Hrow]. apply list_eq. intros r.
  rewrite list_lookup_fmap. destruct (decide (r < nrows)) as [Hr|Hr].
  - rewrite lookup_seq_lt by done. cbn.
    destruct (lookup_lt_is_Some_2 layout r) as [row Hr']; [lia|]. rewrite Hr'.
    f_equal. apply list_eq. intros c. rewrite list_lookup_fmap.
    pose proof (Hrow row (list_elem_of_lookup_2 _ _ _ Hr')) as Hl.
    destruct (decide (c < mcols)) as [Hc|Hc].
    + rewrite lookup_seq_lt by done. cbn. unfold layout_at. cbn. rewrite Hr'. cbn.
      destruct (lookup_lt_is_Some_2 row c) as [x Hx]; [lia|]. by rewrite Hx.
    + rewrite lookup_seq_ge by lia. cbn. apply lookup_ge_None. lia.
  - rewrite lookup_seq_ge by lia. cbn. apply lookup_ge_None. lia.
Qed.

Lemma concat_fmap_fmap {A B} (f : A → B) (ll : list (list A)) :
  concat (map (map f) ll) = f <$> concat ll.
Proof.
  induction ll as [|l ll IH]; [done|]. cbn. by rewrite fmap_app, IH.
Qed.

Lemma shaped_concat nrows mcols layout :
  shaped nrows mcols layout →
  concat layout = layout_at layout <$> positions nrows mcols.
Proof.
  intros Hs. rewrite positions_concat, <- concat_fmap_fmap.
  rewrite (shaped_layout _ _ _ Hs) at 1. f_equal.
  rewrite map_map. apply map_ext. intros r. by rewrite map_map.
Qed.

(** *** The dictionary of group sizes *)

Lemma dict_get_incr k' k d :
  dict_get k' (dict_incr k d)
  = if decide (k' = k) then Some (S (default 0 (dict_get k d))) else dict_get k' d.
Proof.
  unfold dict_get. induction d as [|[k0 n] d IH]; cbn.
  - case_decide; [subst; by rewrite Nat.eqb_refl|].
    destruct (Nat.eqb_spec k k'); [congruence|done].
  - destruct (Nat.eqb_spec k0 k) as [->|Hne]; cbn.
    + destruct (Nat.eqb_spec k k') as [->|Hne']; cbn.
      * by rewrite decide_True.
      * by rewrite decide_False by congruence.
    + destruct (Nat.eqb_spec k0 k') as [->|Hne']; cbn.
      * by rewrite decide_False by congruence.
      * apply IH.
Qed.

Lemma dict_incr_keys k' k d :
  k' ∈ (dict_incr k d).*1 ↔ k' = k ∨ k' ∈ d.*1.
Proof.
  induction d as [|[k0 n] d IH]; cbn.
  - rewrite list_elem_of_singleton. split; [by left|].
    by intros [?|?%elem_of_nil].
  - destruct (Nat.eqb_spec k0 k) as [->|Hne]; cbn; rewrite !elem_of_cons.
    + tauto.
    + rewrite IH. tauto.
Qed.

Lemma dict_incr_NoDup k d : NoDup d.*1 → NoDup (dict_incr k d).*1.
Proof.
  induction d as [|[k0 n] d IH]; cbn.
  - intros _. apply NoDup_singleton.
  - intros [Hn Hd]%NoDup_cons. destruct (Nat.eqb_spec k0 k) as [->|Hne]; cbn.
    + by apply NoDup_cons.
    + apply NoDup_cons. split; [|by apply IH].
      rewrite dict_incr_keys. intros [?|?]; [congruence|done].
Qed.

Lemma dict_get_elem_of k n d :
  NoDup d.*1 → (k, n) ∈ d ↔ dict_get k d = Some n.
Proof.
  unfold dict_get. induction d as [|[k0 m] d IH]; cbn.
  - intros _. split; [by intros ?%elem_of_nil|done].
  - intros [Hn Hd]%NoDup_cons. rewrite elem_of_cons, (IH Hd).
    destruct (Nat.eqb_spec k0 k) as [->|Hne]; cbn.
    + split; [intros [[= ->]|Hin]; [done|]|intros [= ->]; by left].
      exfalso. apply Hn. destruct (List.find _ d) as [[k1 n1]|] eqn:E; [|done].
      apply find_some in E as [Hin1 Hk%Nat.eqb_eq]. cbn in Hk. subst k1.
      apply list_elem_of_fmap. exists (k, n1). split; [done|]. by apply list_elem_of_In.
    + split; [intros [[= ? ?]|?]; [congruence|done]|by right].
Qed.

Lemma occurrences_0 k ids : k ∉ ids → occurrences k ids = 0.
Proof.
  unfold occurrences. induction ids as [|x ids IH]; [done|].
  intros [Hne Hin]%not_elem_of_cons. rewrite filter_cons_False by congruence. auto.
Qed.

Lemma occurrences_fmap {A} (f : A → nat) k l :
  occurrences k (f <$> l) = length (filter (λ p, f p = k) l).
Proof.
  unfold occurrences. induction l as [|x l IH]; [done|]. rewrite fmap_cons.
  destruct (decide (f x = k)) as [Hx|Hx].
  - rewrite !filter_cons_True by done. cbn. by rewrite <- IH.
  - by rewrite !filter_cons_False by done.
Qed.

Lemma fold_dict_incr ids :
  NoDup (fold_left (λ d gid, dict_incr gid d) ids []).*1
  ∧ ∀ k, dict_get k (fold_left (λ d gid, dict_incr gid d) ids [])
         = if decide (k ∈ ids) then Some (occurrences k ids) else None.
Proof.
  induction ids as [|x ids IH] using rev_ind.
  - split; [apply NoDup_nil_2|]. intros k.
    by rewrite decide_False by apply not_elem_of_nil.
  - rewrite fold_left_app. cbn [fold_left]. destruct IH as [Hnd Hget]. split.
    + by apply dict_incr_NoDup.
    + intros k. rewrite dict_get_incr. unfold occurrences.
      rewrite filter_app, length_app. case_decide as Hk.
      * subst k. rewrite decide_True by (apply elem_of_app; right; apply list_elem_of_here).
        f_equal. rewrite Hget. rewrite filter_cons_True, filter_nil by done. cbn.
        case_decide as Hin; cbn; [unfold occurrences; lia|].
        pose proof (occurrences_0 x ids Hin) as H0. unfold occurrences in H0.
        by rewrite H0.
      * rewrite Hget. rewrite filter_cons_False, filter_nil by congruence. cbn.
        rewrite Nat.add_0_r. unfold occurrences.
        destruct (decide (k ∈ ids)) as [Hin|Hin].
        -- by rewrite decide_True by (apply elem_of_app; by left).
        -- rewrite decide_False; [done|].
           intros [?|?%list_elem_of_singleton]%elem_of_app; done.
Qed.

Lemma fold_group_append (f : pos → nat) (ps : list pos) (gs : list Group) :
  fold_left (λ gs p, map (group_append (f p) p) gs) ps gs
  = map (λ G, mkGroup (g_id G) (g_size G)
                (g_cells G ++ filter (λ p, f p = g_id G) ps)) gs.
Proof.
  revert gs. induction ps as [|p ps IH]; intros gs; cbn [fold_left].
  - rewrite <- (map_id gs) at 1. apply map_ext. intros [i s cs]. cbn.
    by rewrite app_nil_r.
  - rewrite IH, map_map. apply map_ext. intros [i s cs]. unfold group_append.
    cbn [g_id g_size g_cells].
    destruct (Nat.eqb_spec i (f p)) as [->|Hne]; cbn [g_id g_size g_cells].
    + rewrite filter_cons_True by done. by rewrite <- app_assoc.
    + by rewrite filter_cons_False by congruence.
Qed.

Lemma build_cells_groups nrows mcols layout :
  groups (build_cells nrows mcols layout)
  = map (λ kv, mkGroup kv.1 kv.2
                 (filter (λ p, layout_at layout p = kv.1) (positions nrows mcols)))
        (fold_left (λ d gid, dict_incr gid d) (concat layout) []).
Proof.
  unfold build_cells. cbn. rewrite fold_group_append, map_map. done.
Qed.

Lemma build_cells_cell_at nrows mcols layout p :
  cell_at (build_cells nrows mcols layout) p
  = if decide (p.1 < nrows ∧ p.2 < mcols)
    then Some (mkCell None [] (layout_at layout p)) else None.
Proof.
  destruct p as [r c]. unfold cell_at, build_cells. cbn.
  rewrite list_lookup_fmap. destruct (decide (r < nrows)) as [Hr|Hr].
  - rewrite lookup_seq_lt by done. cbn. rewrite list_lookup_fmap.
    destruct (decide (c < mcols)) as [Hc|Hc].
    + rewrite lookup_seq_lt by done. cbn. by rewrite decide_True.
    + rewrite lookup_seq_ge by lia. cbn. by rewrite decide_False by lia.
  - rewrite lookup_seq_ge by lia. cbn. by rewrite decide_False by lia.
Qed.

Lemma wf_build_cells nrows mcols layout :
  shaped nrows mcols layout → wf_grid (build_cells nrows mcols layout).
Proof.
  intros Hs. pose proof (shaped_concat _ _ _ Hs) as Hids.
  pose proof (fold_dict_incr (concat layout)) as [Hnd Hget].
  pose proof (build_cells_groups nrows mcols layout) as Hgs.
  set (g := build_cells nrows mcols layout) in *.
  set (d := fold_left _ (concat layout) []) in *.
  assert (Hin : ∀ G, G ∈ groups g ↔
             ∃ n, dict_get (g_id G) d = Some n ∧ g_size G = n
                  ∧ g_cells G = filter (λ p, layout_at layout p = g_id G)
                                       (positions nrows mcols)).
  { intros G. rewrite Hgs, list_elem_of_fmap. split.
    - intros ([k n] & -> & Hkn). cbn. exists n. split; [|done].
      by apply dict_get_elem_of.
    - intros (n & Hn & Hsz & Hcs). exists (g_id G, n). split.
      + destruct G as [i s cs]. cbn in *. by subst.
      + by apply dict_get_elem_of. }
  split_and!.
  - unfold g, build_cells. cbn. by rewrite length_map, length_seq.
  - unfold g, build_cells. cbn. intros row (r & -> & _)%list_elem_of_fmap.
    by rewrite length_map, length_seq.
  - rewrite Hgs. clear -Hnd. clearbody d.
    induction d as [|kv d IH]; [done|]. cbn in *.
    apply NoDup_cons in Hnd as [Hn Hd]. apply NoDup_cons. split; [|by apply IH].
    intros (G & HG & (kv' & -> & Hkv')%list_elem_of_fmap)%list_elem_of_fmap.
    apply Hn. apply list_elem_of_fmap. by exists kv'.
  - intros p c. unfold g. rewrite build_cells_cell_at. case_decide as Hp; [|done].
    intros [= <-]. cbn.
    assert (layout_at layout p ∈ concat layout) as Hk.
    { rewrite Hids. apply list_elem_of_fmap. exists p. split; [done|].
      by apply elem_of_positions. }
    exists (mkGroup (layout_at layout p) (occurrences (layout_at layout p) (concat layout))
              (filter (λ q, layout_at layout q = layout_at layout p)
                      (positions nrows mcols))).
    split_and!; [|done|].
    + apply Hin. cbn. eexists. split_and!; [|done..].
      rewrite Hget. by rewrite decide_True.
    + cbn. apply list_elem_of_filter. split; [done|]. by apply elem_of_positions.
  - intros G q (n & Hn & Hsz & Hcs)%Hin. rewrite Hcs.
    intros [Hq Hpos%elem_of_positions]%list_elem_of_filter.
    unfold g. rewrite build_cells_cell_at. rewrite decide_True by done.
    eexists. split; [done|]. done.
  - intros G (n & Hn & Hsz & Hcs)%Hin. rewrite Hcs. split.
    + apply NoDup_filter, positions_NoDup.
    + rewrite Hsz. rewrite Hget in Hn. case_decide; [|done].
      injection Hn as <-. rewrite Hids. apply occurrences_fmap.
Qed.

(** ** [random.shuffle] *)

Lemma swap_Permutation {A} (l : list A) i j : swap l i j ≡ₚ l.
Proof.
  unfold swap. destruct (l !! i) as [a|] eqn:Hi; [|done].
  destruct (l !! j) as [b|] eqn:Hj; [|done].
  by apply Permutation_insert_swap.
Qed.

Lemma shuffle_from_Permutation {A} i (l : list A) t : (shuffle_from i l t).1 ≡ₚ l.
Proof.
  revert l t. induction i as [|i IH]; intros l t; [done|]. cbn [shuffle_from].
  destruct (randbelow (S (S i)) t) as [j t']. rewrite IH. apply swap_Permutation.
Qed.

Lemma shuffle_Permutation {A} (l : list A) t : (shuffle l t).1 ≡ₚ l.
Proof. apply shuffle_from_Permutation. Qed.

(** ** The layouts of the region generator have the shape of the board *)

Lemma shaped_initial nrows mcols :
  shaped nrows mcols (GroupGenerator.initial_layout nrows mcols).
Proof.
  unfold GroupGenerator.initial_layout. split.
  - by rewrite length_map, length_seq.
  - intros row (r & -> & _)%list_elem_of_fmap. by rewrite length_map, length_seq.
Qed.

Lemma shaped_merge_groups nrows mcols l a b :
  shaped nrows mcols l → shaped nrows mcols (GroupGenerator.merge_groups l a b).
Proof.
  intros [Hl Hr]. unfold GroupGenerator.merge_groups. split.
  - by rewrite length_map.
  - intros row (row' & -> & Hin)%list_elem_of_fmap. rewrite length_map. by apply Hr.
Qed.

Lemma shaped_merge_pair nrows mcols max_size st pr :
  shaped nrows mcols st.1 →
  shaped nrows mcols (GroupGenerator.merge_pair max_size st pr).1.
Proof.
  destruct st as [l sizes]. unfold GroupGenerator.merge_pair. cbn [fst].
  intros Hs. repeat case_match; cbn [fst]; try done; by apply shaped_merge_groups.
Qed.

Lemma shaped_repair_group nrows mcols st gid :
  shaped nrows mcols st.1 →
  shaped nrows mcols (GroupGenerator.repair_group st gid).1.
Proof.
  destruct st as [l sizes]. unfold GroupGenerator.repair_group. cbn [fst].
  intros Hs. case_match; cbn [fst]; [by apply shaped_merge_groups|done].
Qed.

Lemma shaped_fold {A} (f : GroupGenerator.layout * list nat → A →
                          GroupGenerator.layout * list nat) nrows mcols xs st :
  (∀ st x, shaped nrows mcols st.1 → shaped nrows mcols (f st x).1) →
  shaped nrows mcols st.1 → shaped nrows mcols (fold_left f xs st).1.
Proof.
  intros Hf. revert st. induction xs as [|x xs IH]; intros st Hs; [done|].
  cbn. by apply IH, Hf.
Qed.

Lemma shaped_repair nrows mcols budget min_size st l :
  shaped nrows mcols st.1 →
  GroupGenerator.repair budget min_size st = Some l → shaped nrows mcols l.
Proof.
  revert st. induction budget as [|budget IH]; intros st Hs; cbn [GroupGenerator.repair].
  - destruct (GroupGenerator.small_groups _ _); intros Heq;
      [|discriminate Heq]. by injection Heq as <-.
  - destruct (GroupGenerator.small_groups _ _) as [|x xs] eqn:E.
    + intros Heq. by injection Heq as <-.
    + apply IH. apply shaped_fold; [|done]. intros. by apply shaped_repair_group.
Qed.

Lemma shaped_generate min_size max_size nrows mcols t l t' :
  GroupGenerator.generate min_size max_size nrows mcols t = (Some l, t') →
  shaped nrows mcols l.
Proof.
  unfold GroupGenerator.generate.
  destruct (shuffle (GroupGenerator.all_pairs nrows mcols) t) as [pairs t1].
  intros [= Hrep _]. eapply shaped_repair; [|done].
  apply shaped_fold; [|apply shaped_initial]. intros. by apply shaped_merge_pair.
Qed.

(** ** Boards that have a solution are consistent; built boards are empty *)

Lemma solution_consistent g sol : wf_grid g → is_solution g sol → consistent g.
Proof.
  intros Hwf Hsol p v Hv. pose proof Hsol as (Hval & _).
  assert (in_grid g p) as Hp.
  { apply wf_cell_at_in_grid; [done|]. unfold value_at in Hv.
    destruct (cell_at g p); [by eexists|done]. }
  pose proof (Hval p v Hv) as Hpv. split.
  - intros G [HG Hin]%wf_group_of; [|done]. rewrite <- Hpv. by eapply solution_range.
  - intros q Hrel Hq. apply Hval in Hq.
    apply (solution_related g sol p q); [done..|]. congruence.
Qed.

Lemma build_cells_value_at nrows mcols layout p :
  value_at (build_cells nrows mcols layout) p = None.
Proof.
  unfold value_at. rewrite build_cells_cell_at. by case_decide.
Qed.

Lemma build_cells_consistent nrows mcols layout :
  consistent (build_cells nrows mcols layout).
Proof. intros p v. by rewrite build_cells_value_at. Qed.

(** ** [_fill_grid] *)

Lemma fill_loop_post rec g p :
  is_empty_at g p = true →
  ∀ vs s,
    Generator.f_grid s = g →
    (∀ v s1, v ∈ vs →
       Generator.f_grid s1 = upd g p (set_value (Some v)) →
       fill_post (upd g p (set_value (Some v))) (rec s1)) →
    fill_post g (Generator.fill_loop rec p vs s).
Proof.
  intros He. induction vs as [|v vs IH]; intros s Hs Hrec; [done|].
  cbn [Generator.fill_loop]. rewrite Hs.
  specialize (Hrec v (Generator.mkFill (upd g p (set_value (Some v)))
                        (Generator.early_failures s) (Generator.f_tape s))
                (list_elem_of_here _ _) eq_refl) as Hv.
  destruct (rec _) as [[|] s2|s2|]; cbn in Hv; [done| |done..].
  apply IH.
  - cbn. rewrite Hv. by apply upd_restore.
  - intros w s1 Hw. apply Hrec. by right.
Qed.

Lemma fill_grid_recursive_post fuel :
  ∀ s, wf_grid (Generator.f_grid s) → consistent (Generator.f_grid s) →
    num_empty (Generator.f_grid s) < fuel →
    fill_post (Generator.f_grid s) (Generator.fill_grid_recursive fuel s).
Proof.
  induction fuel as [|fuel IH]; intros s Hwf Hcon Hfuel; [lia|].
  cbn [Generator.fill_grid_recursive].
  destruct (find_best_empty_cell (Generator.f_grid s)) as [p|] eqn:Hbest.
  2:{ cbn. split_and!; try done. by apply wf_find_best_None. }
  apply find_best_Some in Hbest as [Hp He].
  case_bool_decide as Hnil.
  { cbn [Generator.early_failures]. by case_match. }
  destruct (shuffle _ _) as [vs t'] eqn:Hsh.
  apply fill_loop_post; [done..|].
  intros v s1 Hv Hs1.
  assert (v ∈ get_candidates_for_cell (Generator.f_grid s) p) as Hcand.
  { pose proof (shuffle_Permutation (get_candidates_for_cell (Generator.f_grid s) p)
                  (Generator.f_tape s)) as Hperm.
    rewrite Hsh in Hperm. cbn in Hperm. by rewrite <- Hperm. }
  rewrite <- Hs1. specialize (IH s1). rewrite Hs1 in IH |- *.
  assert (fill_post (upd (Generator.f_grid s) p (set_value (Some v)))
            (Generator.fill_grid_recursive fuel s1)) as H.
  { apply IH.
    - apply wf_upd; [apply keeps_group_set_value|done].
    - by apply consistent_fill.
    - pose proof (num_empty_fill (Generator.f_grid s) p v He). lia. }
  done.
Qed.

Lemma fill_grid_post g t :
  wf_grid g → consistent g →
  ∃ b g1 t1, Generator.fill_grid g t = Ret (b, g1, t1)
    ∧ (b = true → wf_grid g1 ∧ consistent g1 ∧ is_complete g1 = true
                  ∧ rows g1 = rows g ∧ cols g1 = cols g).
Proof.
  intros Hwf Hcon. unfold Generator.fill_grid.
  pose proof (fill_grid_recursive_post (S (num_empty g)) (Generator.mkFill g 0 t)
                Hwf Hcon (Nat.lt_succ_diag_r _)) as H.
  destruct (Generator.fill_grid_recursive _ _) as [[|] s|s|]; cbn in H; [| | |done].
  - eexists _, _, _. split; [done|]. by intros _.
  - eexists _, _, _. split; [done|]. done.
  - eexists _, _, _. split; [done|]. done.
Qed.

(** ** [_remove_clues] *)

Lemma upd_reset g p :
  upd (upd g p (set_value None)) p (set_value (value_at g p)) = g.
Proof.
  rewrite upd_upd. apply upd_id. intros c Hc. unfold value_at. rewrite Hc.
  by destruct c.
Qed.

Lemma solution_blank g p sol :
  is_solution g sol → is_solution (upd g p (set_value None)) sol.
Proof.
  intros (Hval & Hgr & Hadj). split_and!; [|done..].
  intros q v. rewrite value_at_upd_set_value. case_decide; [|apply Hval].
  by destruct (cell_at g q).
Qed.

Lemma try_removal_post d g cell sol :
  wf_grid g → is_solution g sol →
  ∃ result unique,
    solve (clone (upd g cell (set_value None))) d = Ret result
    ∧ has_unique_solution (upd g cell (set_value None)) = Ret unique
    ∧ (unique = true ↔ unique_solution (upd g cell (set_value None)))
    ∧ Generator.try_removal d g cell
      = Ret (if solved result && unique then upd g cell (set_value None) else g,
             solved result && unique).
Proof.
  intros Hwf Hsol.
  assert (wf_grid (upd g cell (set_value None))) as Hwf1
    by (apply wf_upd; [apply keeps_group_set_value|done]).
  pose proof (solution_blank g cell sol Hsol) as Hsol1.
  destruct (solve_returns sol (upd g cell (set_value None)) d Hwf1 Hsol1)
    as (result & Hres & _).
  destruct (has_unique_solution_spec (upd g cell (set_value None)) Hwf1)
    as (unique & Hun & Hiff); [by eapply solution_consistent|].
  exists result, unique. rewrite clone_wf by done. split_and!; [done..|].
  unfold Generator.try_removal. rewrite clone_wf by done. rewrite Hres.
  cbn -[has_unique_solution].
  destruct (solved result); cbn -[has_unique_solution].
  - rewrite Hun. cbn. destruct unique; [done|]. by rewrite upd_reset.
  - by rewrite upd_reset.
Qed.


Lemma remove_loop_post d max_removals sol :
  ∀ filled_cells g k,
    wf_grid g → is_solution g sol →
    ∃ g' n, Generator.remove_loop d max_removals filled_cells g k = Ret (g', n)
            ∧ wf_grid g' ∧ is_solution g' sol
            ∧ k ≤ n ∧ (Z.of_nat n ≤ Z.max max_removals (Z.of_nat k))%Z.
Proof.
  induction filled_cells as [|cell rest IH]; intros g k Hwf Hsol.
  { exists g, k. split_and!; [done..|lia]. }
  cbn [Generator.remove_loop].
  destruct (Z.leb_spec max_removals (Z.of_nat k)) as [Hle|Hlt].
  { exists g, k. split_and!; [done..|lia]. }
  destruct (try_removal_post d g cell sol Hwf Hsol) as (result & unique & _ & _ & _ & ->).
  cbn. destruct (solved result && unique).
  - destruct (IH (upd g cell (set_value None)) (S k)) as (g' & n & -> & ? & ? & ? & ?).
    + apply wf_upd; [apply keeps_group_set_value|done].
    + by apply solution_blank.
    + exists g', n. split_and!; [done..|lia|lia].
  - destruct (IH g k Hwf Hsol) as (g' & n & -> & ? & ? & ? & ?).
    exists g', n. split_and!; [done..].
Qed.

Lemma remove_clues_post g d pct t sol :
  wf_grid g → is_solution g sol →
  ∃ g' n t', Generator.remove_clues g d pct t = Ret (g', n, t')
    ∧ wf_grid g' ∧ is_solution g' sol
    ∧ (Z.of_nat n ≤ Z.max 0
         (Generator.max_removals_of
            (length (filter (λ p, is_Some (value_at g p))
                            (positions (rows g) (cols g)))) pct))%Z.
Proof.
  intros Hwf Hsol. unfold Generator.remove_clues.
  pose proof (shuffle_Permutation
                (filter (λ p, is_Some (value_at g p)) (positions (rows g) (cols g))) t)
    as Hperm.
  destruct (shuffle _ t) as [filled_cells t'] eqn:Hsh. cbn in Hperm.
  destruct (remove_loop_post d
              (Generator.max_removals_of (length filled_cells) pct) sol
              filled_cells g 0 Hwf Hsol) as (g' & n & -> & ? & ? & _ & Hn).
  cbn. exists g', n, t'. split_and!; [done..|].
  rewrite <- (Permutation_length Hperm). lia.
Qed.

(** ** [rate] and the attempts of [generate] *)

Lemma rate_levels_returns g sol levels :
  wf_grid g → is_solution g sol → ∃ z, rate_levels g levels = Ret z.
Proof.
  intros Hwf Hsol. induction levels as [|level rest IH]; [by eexists|].
  cbn [rate_levels]. rewrite clone_wf by done.
  destruct (solve_returns sol g level Hwf Hsol) as (r & -> & _). cbn.
  destruct (solved r); [by eexists|done].
Qed.

Lemma rate_returns g sol : wf_grid g → is_solution g sol → ∃ z, rate g = Ret z.
Proof. apply rate_levels_returns. Qed.

Lemma attempt_returns cfg t : ∃ r t', Generator.attempt cfg t = Ret (r, t').
Proof.
  unfold Generator.attempt.
  destruct (GroupGenerator.generate _ _ _ _ t) as [[lay|] t1] eqn:Hgen;
    [|by eexists _, _].
  apply shaped_generate in Hgen.
  destruct (fill_grid_post (build_cells (Generator.cfg_rows cfg) (Generator.cfg_cols cfg) lay)
              t1 (wf_build_cells _ _ _ Hgen) (build_cells_consistent _ _ _))
    as (b & g1 & t2 & -> & Hb).
  cbn -[rate Generator.remove_clues].
  destruct b; cbn -[rate Generator.remove_clues]; [|by eexists _, _].
  destruct Hb as (Hwf1 & Hcon1 & Hcomp1 & _); [done|].
  pose proof (complete_solution g1 Hwf1 Hcon1 Hcomp1) as Hsol1.
  destruct (remove_clues_post g1 (Generator.cfg_difficulty cfg)
              (Generator.removal_percentage cfg) t2 _ Hwf1 Hsol1)
    as (g2 & n & t3 & -> & Hwf2 & Hsol2 & _).
  cbn -[rate]. destruct (rate_returns g2 _ Hwf2 Hsol2) as [z ->].
  cbn. case_match; by eexists _, _.
Qed.


Lemma attempts_Some n cfg board :
  ∀ t, Generator.attempts n cfg t = Ret (Some board)
       ↔ ∃ k t1 t2, k < n ∧ failed_attempts k cfg t t1
                    ∧ Generator.attempt cfg t1 = Ret (Some board, t2).
Proof.
  induction n as [|n IH]; intros t; cbn [Generator.attempts].
  { split; [done|]. intros (k & _ & _ & ? & _). lia. }
  destruct (attempt_returns cfg t) as (r & t1 & Hr). rewrite Hr. cbn.
  destruct r as [board'|].
  - split.
    + intros [= ->]. exists 0, t, t1. split_and!; [lia|done..].
    + intros ([|k] & t1' & t2 & _ & Hf & Ha); cbn in Hf.
      * subst t1'. rewrite Hr in Ha. by injection Ha as ->.
      * destruct Hf as (t3 & Hf & _). rewrite Hr in Hf. done.
  - rewrite IH. split.
    + intros (k & t1' & t2 & Hk & Hf & Ha). exists (S k), t1', t2.
      split_and!; [lia| |done]. cbn. by exists t1.
    + intros ([|k] & t1' & t2 & Hk & Hf & Ha); cbn in Hf.
      * subst t1'. rewrite Hr in Ha. done.
      * destruct Hf as (t3 & Hf3 & Hf). rewrite Hr in Hf3. injection Hf3 as <-.
        exists k, t1', t2. split_and!; [lia|done..].
Qed.

(** ** The board of the examples *)

Lemma pair_board_wf : wf_grid pair_board.
Proof.
  apply wf_build_cells. split; [done|].
  by intros row ->%list_elem_of_singleton.
Qed.

Lemma pair_board_solution : is_solution pair_board pair_solution.
Proof.
  split_and!.
  - intros p v. unfold pair_board. by rewrite build_cells_value_at.
  - intros G HG. vm_compute in HG. apply list_elem_of_singleton in HG as ->. done.
  - intros [r1 c1] [r2 c2] [H1 H2] [H3 H4] (Hne & _). cbn in *.
    unfold pair_solution. cbn.
    assert (c1 ≠ c2) by (intros ->; apply Hne; f_equal; lia).
    destruct c1 as [|c1], c2 as [|c2]; cbn; lia.
Qed.

Lemma pair_puzzle_wf : wf_grid pair_puzzle.
Proof. apply wf_upd; [apply keeps_group_set_value|apply pair_board_wf]. Qed.

Lemma pair_puzzle_solution : is_solution pair_puzzle pair_solution.
Proof.
  apply solution_fill; [done|]. split; [apply pair_board_solution|done].
Qed.

(** ** The claims about uniqueness, clue removal and failure *)

(** C1, as amended.  For every well-formed board whose values are
    consistent (each lies in [1 .. size] of its group and differs from the
    values of the other cells of the group and of the neighbours),
    [has_unique_solution] returns, and returns [True] if and only if exactly
    one complete assignment agrees with the values of the board and
    satisfies every constraint.  The enumeration leaves its loop as soon as
    the count reaches the limit: it returns the limit whatever values
    remain to be tried, without trying them. *)
Theorem has_unique_solution_correct (g : Grid) :
  wf_grid g → consistent g →
  (∃ b, has_unique_solution g = Ret b ∧ (b = true ↔ unique_solution g))
  ∧ (∀ rec limit best_cell value rest total_count count g1,
       rec (upd g best_cell (set_value (Some value))) = Ret (count, g1) →
       limit ≤ total_count + count →
       count_loop rec limit best_cell (value :: rest) g total_count
       = Ret (limit, upd g1 best_cell (set_value None))).
Proof.
  intros Hwf Hcon. split; [by apply has_unique_solution_spec|].
  intros rec limit p v vs tc count g1 Hrec Hle.
  by apply (count_loop_abort rec limit p v vs g tc count g1).
Qed.

Lemma has_unique_solution_correct_witness :
  wf_grid pair_puzzle ∧ consistent pair_puzzle
  ∧ ∃ b, has_unique_solution pair_puzzle = Ret b
         ∧ (b = true ↔ unique_solution pair_puzzle).
Proof.
  assert (Hwf := pair_puzzle_wf).
  assert (Hcon := solution_consistent _ _ pair_puzzle_wf pair_puzzle_solution).
  split; [done|]. split; [done|].
  exact (proj1 (has_unique_solution_correct pair_puzzle Hwf Hcon)).
Defined.

Lemma max_removals_binary64 :
  Generator.max_removals_of 100 (29 # 100) = 28%Z
  ∧ Generator.max_removals_of 5 (1 # 2) = 2%Z
  ∧ Generator.max_removals_of 36 1 = 36%Z.
Proof. by vm_compute. Qed.


(** The loop of the design document has one outcome. *)
Lemma removal_run_functional d max_removals filled_cells g k g1 n1 g2 n2 :
  removal_run d max_removals filled_cells g k g1 n1 →
  removal_run d max_removals filled_cells g k g2 n2 →
  g1 = g2 ∧ n1 = n2.
Proof.
  intros H1. revert g2 n2.
  induction H1 as [g n|cell rest g n Hle
                  |cell rest g n g' n' result Hlt Hres Hs Hun _ IH
                  |cell rest g n g' n' result Hlt Hres Hno _ IH];
    intros g2 n2 H2; inversion H2; subst; try done; try lia.
  - by apply IH.
  - exfalso. match goal with H : ¬ _ |- _ => apply H end.
    split; [congruence|done].
  - exfalso. apply Hno. split; [congruence|done].
  - by apply IH.
Qed.



(** C5, as amended.  [solve] has no handler: a [Contradiction] raised by
    [_place_value] reaches the caller of [solve].  [solve] ends on every
    board and every ceiling, and on a well-formed board that has a solution
    it never raises: it returns a result, and the board of the result still
    has that solution. *)
Theorem solve_returns_on_solvable (g : Grid) (max_difficulty : Z)
    (sol : pos → nat) :
  solve g max_difficulty ≠ OutOfFuel
  ∧ (wf_grid g → is_solution g sol →
     ∃ r, solve g max_difficulty = Ret r ∧ is_solution (result_grid r) sol).
Proof.
  split; [apply solve_ends|]. intros Hwf Hsol.
  destruct (solve_returns sol g max_difficulty Hwf Hsol) as (r & Hr & _ & Hs & _).
  by exists r.
Qed.

Lemma solve_returns_on_solvable_witness :
  wf_grid pair_puzzle ∧ is_solution pair_puzzle pair_solution
  ∧ ∃ r, solve pair_puzzle 1 = Ret r ∧ is_solution (result_grid r) pair_solution.
Proof.
  split; [exact pair_puzzle_wf|]. split; [exact pair_puzzle_solution|].
  exact (proj2 (solve_returns_on_solvable pair_puzzle 1 pair_solution)
           pair_puzzle_wf pair_puzzle_solution).
Defined.


(** * Further properties of the data model ([models.py]) *)

(** X1.  [build_cells] on a layout that has the shape of the board builds
    a well-formed board: every cell of the board is empty, has no candidate
    and carries the group id the layout gives it, no cell lies outside the
    board, and each group holds, in scan order, exactly the cells that carry
    its id, its size being their number, which is not zero. *)
Theorem build_cells_well_formed (nrows mcols : nat) (layout : list (list nat)) :
  shaped nrows mcols layout →
  let g := build_cells nrows mcols layout in
  wf_grid g
  ∧ (∀ p, in_grid g p → cell_at g p = Some (mkCell None [] (layout_at layout p)))
  ∧ (∀ p, ¬ in_grid g p → cell_at g p = None)
  ∧ (∀ G, G ∈ groups g →
       g_cells G = filter (λ p, layout_at layout p = g_id G) (positions nrows mcols)
       ∧ g_size G = length (g_cells G)
       ∧ 0 < g_size G).
Proof.
  intros Hs g. pose proof (wf_build_cells _ _ _ Hs) as Hwf. fold g in Hwf.
  split_and!; [done| | |].
  - intros p Hp. unfold g. rewrite build_cells_cell_at. by rewrite decide_True.
  - intros p Hp. unfold g. rewrite build_cells_cell_at. by rewrite decide_False.
  - intros G HG. pose proof Hwf as (_ & _ & _ & _ & _ & Hsz).
    destruct (Hsz G HG) as [_ Hlen].
    unfold g in HG. rewrite build_cells_groups in HG.
    apply list_elem_of_fmap in HG as ([k n] & HGeq & Hkn).
    assert (g_cells G = filter (λ p, layout_at layout p = g_id G)
                               (positions nrows mcols)) as Hcells by (by subst G).
    split_and!; [done..|].
    pose proof (fold_dict_incr (concat layout)) as [Hnd Hget].
    apply dict_get_elem_of in Hkn; [|done]. rewrite Hget in Hkn.
    case_decide as Hin; [|done]. injection Hkn as <-.
    assert (g_size G = occurrences k (concat layout)) as -> by (by subst G).
    unfold occurrences.
    assert (k ∈ filter (λ x, x = k) (concat layout)) as Hk
      by (by apply list_elem_of_filter).
    destruct (filter (λ x, x = k) (concat layout));
      [by apply elem_of_nil in Hk|cbn; lia].
Qed.

Lemma build_cells_well_formed_witness :
  let g := build_cells 1 2 [[0; 0]] in
  shaped 1 2 [[0; 0]] ∧ wf_grid g
  ∧ cell_at g (0, 1) = Some (mkCell None [] 0).
Proof.
  intros g.
  assert (shaped 1 2 [[0; 0]]) as Hs.
  { split; [done|]. by intros row ->%list_elem_of_singleton. }
  destruct (build_cells_well_formed 1 2 [[0; 0]] Hs) as (Hwf & Hc & _).
  split; [done|]. split; [done|]. apply (Hc (0, 1)). split; cbn; lia.
Defined.

Lemma length_filter_ne (l : list pos) (x : pos) :
  NoDup l →
  length (filter (λ y, y ≠ x) l) = length l - (if decide (x ∈ l) then 1 else 0).
Proof.
  induction l as [|a l IH]; intros Hnd; [done|].
  apply NoDup_cons in Hnd as [Ha Hnd]. specialize (IH Hnd).
  destruct (decide (a = x)) as [->|Hne].
  - rewrite filter_cons_False by (intros ?; done).
    rewrite decide_False in IH by done.
    rewrite decide_True by apply list_elem_of_here. cbn. lia.
  - rewrite filter_cons_True by done. cbn [length]. rewrite IH.
    destruct (decide (x ∈ l)) as [Hin|Hin].
    + rewrite decide_True; [|by right].
      destruct l; [by apply elem_of_nil in Hin|]. cbn. lia.
    + rewrite decide_False; [lia|]. by intros [?|?]%elem_of_cons.
Qed.

(** X2.  For a cell of a well-formed board, [get_group_peers] returns the
    other members of the group of the cell, each once and never the cell
    itself: [size - 1] cells, so that every slot of the preallocated list
    is filled. *)
Theorem get_group_peers_others (g : Grid) (p : pos) :
  wf_grid g → in_grid g p →
  ∃ G, group_of g p = Some G
       ∧ (∀ q, q ∈ get_group_peers g p ↔ q ∈ g_cells G ∧ q ≠ p)
       ∧ NoDup (get_group_peers g p)
       ∧ length (get_group_peers g p) = g_size G - 1.
Proof.
  intros Hwf Hp. destruct (wf_group_of_in_grid g p Hwf Hp) as [G HG].
  exists G. split; [done|]. unfold get_group_peers. rewrite HG.
  apply wf_group_of in HG as [HG Hin]; [|done].
  pose proof Hwf as (_ & _ & _ & _ & _ & Hsz). destruct (Hsz G HG) as [Hnd Hlen].
  split_and!.
  - intros q. rewrite list_elem_of_filter. tauto.
  - by apply NoDup_filter.
  - rewrite length_filter_ne by done. rewrite decide_True by done. lia.
Qed.

Lemma get_group_peers_others_witness :
  ∃ G, group_of pair_board (0, 0) = Some G
       ∧ length (get_group_peers pair_board (0, 0)) = g_size G - 1.
Proof.
  assert (in_grid pair_board (0, 0)) as Hp by (split; cbn; lia).
  destruct (get_group_peers_others pair_board (0, 0) pair_board_wf Hp)
    as (G & HG & _ & _ & Hlen).
  by exists G.
Defined.

(** X3.  On a well-formed board the constraint between cells is symmetric:
    if [q] is a group peer or a neighbour of the cell [p], then [q] is a
    cell of the board and [p] is a group peer or a neighbour of [q]; and no
    cell constrains itself. *)
Theorem related_symmetric (g : Grid) (p q : pos) :
  wf_grid g → in_grid g p →
  (q ∈ get_group_peers g p → in_grid g q ∧ p ∈ get_group_peers g q)
  ∧ (q ∈ get_neighbors g p → in_grid g q ∧ p ∈ get_neighbors g q)
  ∧ (p ∉ get_group_peers g p) ∧ (p ∉ get_neighbors g p).
Proof.
  intros Hwf Hp. split_and!.
  - intros Hq. apply wf_peers in Hq as (G & HG & Hpin & Hqin & Hne); [|done].
    split; [by eapply wf_member_in_grid|].
    apply wf_peers; [done|]. exists G. split_and!; [done..|congruence].
  - intros Hq. apply get_neighbors_spec in Hq as [Hq Hadj]; [|done].
    split; [done|]. apply get_neighbors_spec; [done|]. split; [done|].
    by apply adjacent_sym.
  - intros H. apply (not_related_self g p Hwf Hp). by left.
  - intros H. apply (not_related_self g p Hwf Hp). by right.
Qed.

Lemma related_symmetric_witness :
  (0, 0) ∈ get_neighbors pair_board (0, 1)
  ∧ ((0, 1) ∉ get_neighbors pair_board (0, 1)).
Proof.
  assert (in_grid pair_board (0, 0)) as Hp0 by (split; cbn; lia).
  assert (in_grid pair_board (0, 1)) as Hp1 by (split; cbn; lia).
  destruct (related_symmetric pair_board (0, 0) (0, 1) pair_board_wf Hp0)
    as (_ & Hn & _).
  destruct (related_symmetric pair_board (0, 1) (0, 1) pair_board_wf Hp1)
    as (_ & _ & _ & Hself).
  destruct Hn as [_ Hn]; [vm_compute; apply list_elem_of_here|]. by split.
Defined.

(** X4.  On a well-formed board, [get_candidates_for_cell] returns, each
    once, exactly the values of [1 .. size] of the group of the cell that
    no group peer and no neighbour of the cell holds. *)
Theorem get_candidates_for_cell_spec (g : Grid) (p : pos) (G : Group) :
  wf_grid g → in_grid g p → group_of g p = Some G →
  NoDup (get_candidates_for_cell g p)
  ∧ ∀ x, x ∈ get_candidates_for_cell g p
         ↔ (1 ≤ x ≤ g_size G)
           ∧ (∀ q, q ∈ get_group_peers g p → value_at g q ≠ Some x)
           ∧ (∀ q, q ∈ get_neighbors g p → value_at g q ≠ Some x).
Proof.
  intros _ _ HG. split; [apply get_candidates_NoDup|].
  intros x. rewrite elem_of_get_candidates, HG. cbn. unfold full_range, related.
  rewrite elem_of_seq. split.
  - intros [Hr Hrel]. split_and!; [lia..| |]; intros q Hq; apply Hrel; tauto.
  - intros ([H1 H2] & Hp & Hn). split; [lia|]. intros q [?|?]; auto.
Qed.

Lemma get_candidates_for_cell_spec_witness :
  2 ∈ get_candidates_for_cell pair_puzzle (0, 1)
  ∧ (1 ∉ get_candidates_for_cell pair_puzzle (0, 1)).
Proof.
  assert (group_of pair_puzzle (0, 1) = Some (mkGroup 0 2 [(0, 0); (0, 1)])) as HG
    by (by vm_compute).
  assert (in_grid pair_puzzle (0, 1)) as Hin by (split; cbn; lia).
  destruct (get_candidates_for_cell_spec pair_puzzle (0, 1) _ pair_puzzle_wf
              Hin HG) as [_ Hspec].
  split.
  - vm_compute. apply list_elem_of_here.
  - intros (_ & Hpeer & _)%Hspec.
    apply (Hpeer (0, 0)); [vm_compute; apply list_elem_of_here|by vm_compute].
Defined.

Lemma best_fold_min g ps st p n :
  (∀ q m, st = Some (q, m) → m = length (get_candidates_for_cell g q)) →
  fold_left (best_step g) ps st = Some (p, n) →
  n = length (get_candidates_for_cell g p)
  ∧ (∀ q m, st = Some (q, m) → n ≤ m)
  ∧ ∀ q, q ∈ ps → is_empty_at g q = true →
         n ≤ length (get_candidates_for_cell g q).
Proof.
  revert st. induction ps as [|a ps IH]; intros st Hst; cbn [fold_left].
  { intros ->. split_and!.
    - by apply (Hst p n).
    - by intros q m [= _ ->].
    - by intros q ?%elem_of_nil. }
  intros Hfold. apply IH in Hfold as (Hn & Hle & Hmin).
  2:{ intros q m. unfold best_step. destruct (is_empty_at g a); [|apply Hst].
      destruct st as [[q0 m0]|].
      - case_match; [by intros [= <- <-]|apply Hst].
      - by intros [= <- <-]. }
  split_and!; [done| |].
  - intros q m ->. unfold best_step in Hle.
    destruct (is_empty_at g a); [|by apply (Hle q m)].
    destruct (Nat.ltb_spec (length (get_candidates_for_cell g a)) m).
    + specialize (Hle _ _ eq_refl). lia.
    + by apply (Hle q m).
  - intros q [->|Hq]%elem_of_cons He; [|by apply Hmin].
    unfold best_step in Hle. rewrite He in Hle.
    destruct st as [[q0 m0]|].
    + destruct (Nat.ltb_spec (length (get_candidates_for_cell g a)) m0).
      * by apply (Hle a).
      * specialize (Hle _ _ eq_refl). lia.
    + by apply (Hle a).
Qed.

(** X5.  On a well-formed board, [find_best_empty_cell] returns [None]
    exactly when the board has no empty cell; otherwise it returns an empty
    cell of the board that has the fewest candidates among the empty cells
    (minimum remaining values). *)
Theorem find_best_empty_cell_mrv (g : Grid) :
  wf_grid g →
  (find_best_empty_cell g = None
   ↔ ∀ p, in_grid g p → is_empty_at g p = false)
  ∧ ∀ p, find_best_empty_cell g = Some p →
      in_grid g p ∧ is_empty_at g p = true
      ∧ ∀ q, in_grid g q → is_empty_at g q = true →
             length (get_candidates_for_cell g p)
             ≤ length (get_candidates_for_cell g q).
Proof.
  intros _. split.
  - split; [intros H p; by apply find_best_None|].
    intros Hall. destruct (find_best_empty_cell g) as [p|] eqn:E; [|done].
    apply find_best_Some in E as [Hp He]. by rewrite Hall in He.
  - intros p Hbest. destruct (find_best_Some g p Hbest) as [Hp He].
    split_and!; [done..|]. intros q Hq Hqe.
    unfold find_best_empty_cell in Hbest.
    destruct (fold_left _ _ _) as [[p' n]|] eqn:E; [|done].
    cbn in Hbest. injection Hbest as ->.
    apply best_fold_min in E as (-> & _ & Hmin); [|done].
    apply Hmin; [|done]. by apply elem_of_positions.
Qed.

Lemma find_best_empty_cell_mrv_witness :
  find_best_empty_cell pair_puzzle = Some (0, 1)
  ∧ in_grid pair_puzzle (0, 1) ∧ is_empty_at pair_puzzle (0, 1) = true.
Proof.
  assert (find_best_empty_cell pair_puzzle = Some (0, 1)) as Hbest by (by vm_compute).
  split; [exact Hbest|].
  destruct (proj2 (find_best_empty_cell_mrv pair_puzzle pair_puzzle_wf) (0, 1) Hbest)
    as (Hin & He & _).
  by split.
Defined.

(** X6.  The copy [clone] makes of a well-formed board has the same
    dimensions and, cell by cell, the same value, candidates and group id,
    and the same groups with the same members: in the arena model it is the
    same board. *)
Theorem clone_same_content (g : Grid) :
  wf_grid g →
  rows (clone g) = rows g ∧ cols (clone g) = cols g
  ∧ cells (clone g) = cells g ∧ groups (clone g) = groups g.
Proof. intros Hwf. by rewrite clone_wf. Qed.

Lemma clone_same_content_witness : cells (clone pair_puzzle) = cells pair_puzzle.
Proof.
  exact (proj1 (proj2 (proj2 (clone_same_content pair_puzzle pair_puzzle_wf)))).
Defined.

(** * Further properties of the solver ([solver.py]) *)

Lemma init_fold_filled ps g p :
  is_empty_at g p = false →
  is_empty_at (fold_left init_cell ps g) p = false
  ∧ cands_at (fold_left init_cell ps g) p = cands_at g p.
Proof.
  intros He.
  apply (fold_left_inv init_cell
           (λ g', is_empty_at g' p = false ∧ cands_at g' p = cands_at g p));
    [|done].
  intros g1 q _ [He1 Hc1]. rewrite init_cell_unfold.
  destruct (is_empty_at g1 q) eqn:Hq; [|done].
  assert (q ≠ p) by congruence.
  rewrite is_empty_at_upd_set_candidates. split; [done|].
  by rewrite cands_at_upd_ne.
Qed.

(** X7.  [_init_candidates] changes no value and no group of a well-formed
    board: it gives every empty cell the candidates [get_candidates_for_cell]
    computes on the board as it was received, and leaves the candidates of
    the filled cells as they were. *)
Theorem init_candidates_spec (g : Grid) :
  wf_grid g →
  let g' := init_candidates g in
  wf_grid g' ∧ rows g' = rows g ∧ cols g' = cols g ∧ groups g' = groups g
  ∧ (∀ p, value_at g' p = value_at g p)
  ∧ (∀ p, is_empty_at g p = true →
          cands_at g' p = get_candidates_for_cell g p)
  ∧ (∀ p, is_empty_at g p = false → cands_at g' p = cands_at g p).
Proof.
  intros Hwf g'.
  destruct (init_fold g (positions (rows g) (cols g)) g Hwf)
    as (W & R & C & GR & _ & V & _ & K); try done.
  split_and!; try done.
  - intros p He. apply K; [done|]. right.
    apply elem_of_positions. by apply is_empty_at_in_grid.
  - intros p He. by apply init_fold_filled.
Qed.

Lemma init_candidates_spec_witness :
  cands_at (init_candidates pair_puzzle) (0, 1)
  = get_candidates_for_cell pair_puzzle (0, 1).
Proof.
  destruct (init_candidates_spec pair_puzzle pair_puzzle_wf)
    as (_ & _ & _ & _ & _ & K & _).
  by apply K.
Defined.

Lemma level1_loop_reduct sol g0 fuel st changed :
  sound sol (grid st) → reduct g0 (grid st) →
  noraise (level1_loop fuel st changed)
          (λ r, sound sol (grid r.1) ∧ reduct g0 (grid r.1)).
Proof.
  revert st changed. induction fuel as [|fuel IH]; intros st changed Hs Hr; [done|].
  cbn [level1_loop].
  eapply noraise_bind; [by apply returns_noraise, naked_single_sound|].
  intros [st1 placed] [Hs1 Hr1]. cbn [fst snd] in *.
  assert (reduct g0 (grid st1)) by (by eapply reduct_trans).
  destruct placed; [by apply IH|].
  eapply noraise_bind; [by apply returns_noraise, hidden_single_sound|].
  intros [st2 placed2] [Hs2 Hr2]. cbn [fst snd] in *.
  assert (reduct g0 (grid st2)) by (by eapply reduct_trans).
  destruct placed2; [by apply IH|done].
Qed.

Lemma solve_pass_reduct sol g0 d st :
  sound sol (grid st) → reduct g0 (grid st) →
  noraise (solve_pass d st) (λ r, sound sol (grid r.1) ∧ reduct g0 (grid r.1)).
Proof.
  intros Hs Hr. unfold solve_pass.
  eapply noraise_bind; [by apply level1_loop_reduct|].
  intros [st1 ch1] [Hs1 Hr1]. cbn [fst snd] in *.
  destruct (is_complete (grid st1)); [done|].
  set (r2 := if (2 <=? d)%Z then _ else _).
  assert (sound sol (grid r2.1) ∧ reduct g0 (grid r2.1)) as [Hs2 Hr2].
  { subst r2. case_match; [|done].
    destruct (neighbor_elimination_sound sol st1 Hs1) as [? Hn]. split; [done|].
    eapply reduct_trans; [done|]. by apply narrowed_reduct. }
  clearbody r2. destruct r2 as [st2 ch2]. cbn [fst snd] in *.
  destruct (is_complete (grid st2)); [done|].
  set (r3 := if (3 <=? d)%Z then _ else _).
  assert (sound sol (grid r3.1) ∧ reduct g0 (grid r3.1)) as [Hs3 Hr3].
  { subst r3. case_match; [|done].
    pose proof (naked_subsets_sound sol st2 Hs2) as [Hn Hnn].
    assert (reduct g0 (grid (naked_subsets_generalized st2).1)) as Hrn.
    { eapply reduct_trans; [done|]. by apply narrowed_reduct. }
    destruct (naked_subsets_generalized st2) as [st3 b3]. cbn [fst snd] in *.
    destruct b3; [done|].
    destruct (hidden_pairs_sound sol st3 Hn) as [? Hh]. split; [done|].
    eapply reduct_trans; [done|]. by apply narrowed_reduct. }
  clearbody r3. destruct r3 as [st3 ch3]. cbn [fst snd] in *.
  by destruct (is_complete (grid st3)).
Qed.

Lemma solve_loop_reduct sol g0 fuel d st :
  sound sol (grid st) → reduct g0 (grid st) →
  noraise (solve_loop fuel d st)
          (λ st', sound sol (grid st') ∧ reduct g0 (grid st')).
Proof.
  revert st. induction fuel as [|fuel IH]; intros st Hs Hr; [done|].
  cbn [solve_loop].
  eapply noraise_bind; [by apply solve_pass_reduct|].
  intros [st' again] [Hs' Hr']. cbn [fst snd] in *.
  destruct again; [by apply IH|done].
Qed.

Lemma solve_result sol g d :
  wf_grid g → is_solution g sol →
  ∃ r, solve g d = Ret r ∧ sound sol (result_grid r)
       ∧ reduct (init_candidates g) (result_grid r)
       ∧ solved r = is_complete (result_grid r).
Proof.
  intros Hwf Hsol.
  pose proof (solve_ends g d) as Hends. unfold solve in *.
  rewrite (clone_wf g Hwf) in *.
  pose proof (solve_loop_reduct sol (init_candidates g)
                (S (measure (init_candidates g))) d
                (mkState (init_candidates g) [])
                (init_candidates_sound sol g Hwf Hsol) (reduct_refl _)) as Hnr.
  cbn [grid] in *.
  destruct (solve_loop _ _ _) as [st| |]; cbn in *; [|done..].
  destruct Hnr as [? ?]. eexists. split; [done|]. done.
Qed.

(** X8.  On a well-formed board that has a solution, whatever [solve]
    returns is part of that solution: the board of the result has the
    shape and groups of the input, keeps every value of the input, and
    every value it holds is the solution's.  When the result is marked
    solved, its board is the solution itself and the input has no other
    solution. *)
Theorem solve_solved_unique (g : Grid) (max_difficulty : Z) (sol : pos → nat)
    (r : SolveResult) :
  wf_grid g → is_solution g sol → solve g max_difficulty = Ret r →
  rows (result_grid r) = rows g ∧ cols (result_grid r) = cols g
  ∧ groups (result_grid r) = groups g
  ∧ (∀ p v, value_at (result_grid r) p = Some v → v = sol p)
  ∧ (∀ p v, value_at g p = Some v → value_at (result_grid r) p = Some v)
  ∧ (solved r = true →
     (∀ p, in_grid g p → value_at (result_grid r) p = Some (sol p))
     ∧ unique_solution g).
Proof.
  intros Hwf Hsol Hr.
  destruct (init_candidates_spec g Hwf) as (_ & Ri & Ci & Gi & Vi & _).
  assert (Hany : ∀ sol', is_solution g sol' →
            sound sol' (result_grid r)
            ∧ reduct (init_candidates g) (result_grid r)
            ∧ solved r = is_complete (result_grid r)).
  { intros sol' Hsol'.
    destruct (solve_result sol' g max_difficulty Hwf Hsol') as (r' & Hr' & ?).
    rewrite Hr in Hr'. by injection Hr' as <-. }
  destruct (Hany sol Hsol) as ((Hwfr & (Hval & _) & _) & (Rr & Cr & Gr & Er & _) & Hsv).
  assert (Hfull : solved r = true → ∀ sol', is_solution g sol' →
            ∀ p, in_grid g p → value_at (result_grid r) p = Some (sol' p)).
  { intros Hs sol' Hsol' p Hp.
    destruct (Hany sol' Hsol') as ((_ & (Hval' & _) & _) & _ & _).
    rewrite Hsv in Hs. rewrite is_complete_true in Hs.
    destruct (wf_cell_at (result_grid r) p Hwfr) as [c Hc].
    { unfold in_grid in *. by rewrite Rr, Cr, Ri, Ci. }
    specialize (Hs p c Hc). unfold value_at in *. rewrite Hc in *. cbn in *.
    destruct (value c) as [v|] eqn:Hv; [|done]. f_equal.
    symmetry. apply (Hval' p). by rewrite Hc. }
  split_and!.
  - by rewrite Rr.
  - by rewrite Cr.
  - by rewrite Gr.
  - intros p v Hv. symmetry. by apply Hval.
  - intros p v Hv.
    assert (in_grid g p) as Hp by (by eapply value_at_in_grid).
    destruct (wf_cell_at (result_grid r) p Hwfr) as [c Hc].
    { unfold in_grid in *. by rewrite Rr, Cr, Ri, Ci. }
    assert (is_empty_at (result_grid r) p = false) as Hne.
    { destruct (is_empty_at (result_grid r) p) eqn:E; [|done].
      apply Er in E. apply is_empty_at_Some in E as (c' & Hc' & Hv').
      specialize (Vi p). unfold value_at in Vi, Hv. rewrite Hc' in Vi. cbn in Vi.
      rewrite Hv' in Vi. congruence. }
    unfold is_empty_at in Hne. rewrite Hc in Hne.
    destruct (value c) as [w|] eqn:Hw; [|by rewrite bool_decide_eq_true_2 in Hne].
    assert (value_at (result_grid r) p = Some w) as Hrw
      by (unfold value_at; by rewrite Hc).
    rewrite Hrw. f_equal. pose proof (Hval p w Hrw) as Hw1.
    destruct Hsol as (Hg & _). specialize (Hg p v Hv). congruence.
  - intros Hs. split; [by apply Hfull|].
    exists sol. split; [done|]. intros sol' Hsol' p Hp.
    pose proof (Hfull Hs sol Hsol p Hp) as H1.
    pose proof (Hfull Hs sol' Hsol' p Hp) as H2. congruence.
Qed.

Lemma solve_solved_unique_witness :
  match solve pair_puzzle 1 with
  | Ret r => solved r = true → unique_solution pair_puzzle
  | _ => False
  end.
Proof.
  destruct (solve pair_puzzle 1) as [r| |] eqn:E.
  - intros Hs.
    exact (proj2 (proj2 (proj2 (proj2 (proj2 (proj2
             (solve_solved_unique pair_puzzle 1 pair_solution r
                pair_puzzle_wf pair_puzzle_solution E))))) Hs)).
  - by vm_compute in E.
  - by vm_compute in E.
Defined.

Lemma count_loop_restores rec limit g p :
  is_empty_at g p = true →
  (∀ v, ∃ n, rec (upd g p (set_value (Some v)))
             = Ret (n, upd g p (set_value (Some v))) ∧ n ≤ limit) →
  ∀ vs total_count, total_count < limit →
    ∃ n, count_loop rec limit p vs g total_count = Ret (n, g) ∧ n ≤ limit.
Proof.
  intros He Hrec. induction vs as [|v vs IH]; intros tc Htc.
  { exists tc. split; [done|lia]. }
  cbn [count_loop]. destruct (Hrec v) as (n & -> & Hn). cbn -[Nat.leb].
  rewrite upd_restore by done.
  destruct (Nat.leb_spec limit (tc + n)); [by exists limit|]. by apply IH.
Qed.

Lemma count_solutions_returns limit fuel :
  1 ≤ limit →
  ∀ g, num_empty g < fuel →
    ∃ n, count_solutions fuel g limit = Ret (n, g) ∧ n ≤ limit.
Proof.
  intros Hlimit. induction fuel as [|fuel IH]; intros g Hfuel; [lia|].
  cbn [count_solutions]. destruct (is_complete g); [by exists 1|].
  destruct (find_best_empty_cell g) as [p|] eqn:Hbest; [|by exists 1].
  apply find_best_Some in Hbest as [_ He].
  apply count_loop_restores; [done| |lia].
  intros v. apply IH. pose proof (num_empty_fill g p v He). lia.
Qed.

Lemma clashing_board_wf : wf_grid clashing_board.
Proof.
  apply wf_upd; [apply keeps_group_set_value|].
  apply wf_upd; [apply keeps_group_set_value|apply pair_board_wf].
Qed.

(** X9.  [_count_solutions] terminates on every well-formed board,
    whatever its values: with a limit of at least 1 it returns a count
    between 0 and the limit, raises nothing, and hands the board back
    exactly as it received it, every cell it filled blanked again.  So
    [has_unique_solution] returns on every well-formed board. *)
Theorem count_solutions_restores (g : Grid) (limit : nat) :
  wf_grid g → 1 ≤ limit →
  (∃ n, count_solutions (S (num_empty g)) g limit = Ret (n, g) ∧ n ≤ limit)
  ∧ ∃ b, has_unique_solution g = Ret b.
Proof.
  intros _ Hlimit. split; [apply count_solutions_returns; lia|].
  unfold has_unique_solution.
  destruct (count_solutions_returns 2 (S (num_empty (clone g))) (le_S _ _ (le_n 1))
              (clone g) (Nat.lt_succ_diag_r _)) as (n & -> & _).
  by eexists.
Qed.

Lemma count_solutions_restores_witness :
  wf_grid clashing_board
  ∧ ∃ n, count_solutions (S (num_empty clashing_board)) clashing_board 2
         = Ret (n, clashing_board).
Proof.
  split; [exact clashing_board_wf|].
  destruct (count_solutions_restores clashing_board 2 clashing_board_wf
              (le_S _ _ (le_n 1))) as [(n & Hn & _) _].
  by exists n.
Defined.

(** * Further properties of the rater ([difficulty.py]) *)

(** X10.  The level [rate] returns is one of 1, 2, 3, 4; the solver did
    not solve the board with any lower level as ceiling; and unless the
    level is 4 the solver solved the board with that level as ceiling. *)
Theorem rate_least_level (g : Grid) (level : Z) :
  rate g = Ret level →
  (1 ≤ level ≤ 4)%Z
  ∧ (∀ lower, (1 ≤ lower < level)%Z →
       ∃ r, solve (clone g) lower = Ret r ∧ solved r = false)
  ∧ (level ≠ 4%Z → ∃ r, solve (clone g) level = Ret r ∧ solved r = true).
Proof.
  unfold rate. intros Hrate.
  apply rate_levels_cons in Hrate as (r1 & H1 & [[S1 ->]|[S1 Hrate]]).
  { split; [lia|]. split; [intros; lia|by exists r1]. }
  apply rate_levels_cons in Hrate as (r2 & H2 & [[S2 ->]|[S2 Hrate]]).
  { split; [lia|]. split; [|by exists r2].
    intros lower ?. assert (lower = 1%Z) as -> by lia. by exists r1. }
  apply rate_levels_cons in Hrate as (r3 & H3 & [[S3 ->]|[S3 Hrate]]).
  { split; [lia|]. split; [|by exists r3].
    intros lower ?. assert (lower = 1 ∨ lower = 2)%Z as [-> | ->] by lia;
      by eexists. }
  apply rate_levels_cons in Hrate as (r4 & H4 & [[S4 ->]|[S4 Hrate]]).
  - split; [lia|]. split; [|done].
    intros lower ?.
    assert (lower = 1 ∨ lower = 2 ∨ lower = 3)%Z as [-> | [-> | ->]] by lia;
      by eexists.
  - cbn in Hrate. injection Hrate as <-. split; [lia|]. split; [|done].
    intros lower ?.
    assert (lower = 1 ∨ lower = 2 ∨ lower = 3)%Z as [-> | [-> | ->]] by lia;
      by eexists.
Qed.

Lemma rate_least_level_witness :
  match rate pair_puzzle with
  | Ret level => (1 ≤ level ≤ 4)%Z
  | _ => False
  end.
Proof.
  destruct (rate pair_puzzle) as [level| |] eqn:E.
  - exact (proj1 (rate_least_level pair_puzzle level E)).
  - by vm_compute in E.
  - by vm_compute in E.
Defined.

(** * Further properties of the generator ([generator.py]) *)

Lemma filled_from_refl g : filled_from g g.
Proof. by split_and!. Qed.

Lemma filled_from_trans g1 g2 g3 :
  filled_from g1 g2 → filled_from g2 g3 → filled_from g1 g3.
Proof.
  intros (R1 & C1 & G1 & I1 & V1) (R2 & C2 & G2 & I2 & V2).
  split_and!; [congruence..| |].
  - intros p. etrans; [apply I2|apply I1].
  - intros p v Hv. by apply V2, V1.
Qed.

Lemma filled_from_fill g p v :
  is_empty_at g p = true → filled_from g (upd g p (set_value (Some v))).
Proof.
  intros He. pose proof He as (c & Hc & Hv)%is_empty_at_Some.
  split_and!; try done.
  - intros q. rewrite cell_at_upd. case_decide; [subst|done]. by rewrite Hc.
  - intros q w Hq. rewrite value_at_fill by eauto. case_decide; [subst|done].
    unfold value_at in Hq. rewrite Hc in Hq. cbn in Hq. congruence.
Qed.

Lemma filled_from_blank g p : filled_from (upd g p (set_value None)) g.
Proof.
  split_and!; try done.
  - intros q. cbn. rewrite cell_at_upd. case_decide; [subst|done].
    by destruct (cell_at g q).
  - intros q w. rewrite value_at_upd_set_value. case_decide; [subst|done].
    by destruct (cell_at g q).
Qed.

Lemma fill_loop_from rec g p :
  is_empty_at g p = true →
  ∀ vs s,
    Generator.f_grid s = g →
    (∀ v s1, v ∈ vs →
       Generator.f_grid s1 = upd g p (set_value (Some v)) →
       fill_post (upd g p (set_value (Some v))) (rec s1)
       ∧ match rec s1 with
         | Generator.FillRet true s' =>
             filled_from (upd g p (set_value (Some v))) (Generator.f_grid s')
         | _ => True
         end) →
    match Generator.fill_loop rec p vs s with
    | Generator.FillRet true s' => filled_from g (Generator.f_grid s')
    | _ => True
    end.
Proof.
  intros He. induction vs as [|v vs IH]; intros s Hs Hrec; [done|].
  cbn [Generator.fill_loop]. rewrite Hs.
  pose proof (Hrec v (Generator.mkFill (upd g p (set_value (Some v)))
                        (Generator.early_failures s) (Generator.f_tape s))
                (list_elem_of_here _ _) eq_refl) as [Hpost Hfrom].
  destruct (rec _) as [[|] s2|s2|]; cbn in Hpost; [|  |done..].
  - eapply filled_from_trans; [|done]. by apply filled_from_fill.
  - apply IH.
    + cbn. rewrite Hpost. by apply upd_restore.
    + intros w s1 Hw. apply Hrec. by right.
Qed.

Lemma fill_grid_recursive_from fuel :
  ∀ s, wf_grid (Generator.f_grid s) → consistent (Generator.f_grid s) →
    num_empty (Generator.f_grid s) < fuel →
    match Generator.fill_grid_recursive fuel s with
    | Generator.FillRet true s' =>
        filled_from (Generator.f_grid s) (Generator.f_grid s')
    | _ => True
    end.
Proof.
  induction fuel as [|fuel IH]; intros s Hwf Hcon Hfuel; [lia|].
  cbn [Generator.fill_grid_recursive].
  destruct (find_best_empty_cell (Generator.f_grid s)) as [p|] eqn:Hbest;
    [|apply filled_from_refl].
  apply find_best_Some in Hbest as [Hp He].
  case_bool_decide as Hnil.
  { by destruct (100 <? _). }
  destruct (shuffle _ _) as [vs t'] eqn:Hsh.
  apply fill_loop_from; [done..|].
  intros v s1 Hv Hs1.
  assert (v ∈ get_candidates_for_cell (Generator.f_grid s) p) as Hcand.
  { pose proof (shuffle_Permutation (get_candidates_for_cell (Generator.f_grid s) p)
                  (Generator.f_tape s)) as Hperm.
    rewrite Hsh in Hperm. cbn in Hperm. by rewrite <- Hperm. }
  assert (wf_grid (Generator.f_grid s1)) as Hwf1.
  { rewrite Hs1. apply wf_upd; [apply keeps_group_set_value|done]. }
  assert (consistent (Generator.f_grid s1)) as Hcon1.
  { rewrite Hs1. by apply consistent_fill. }
  assert (num_empty (Generator.f_grid s1) < fuel) as Hfuel1.
  { rewrite Hs1. pose proof (num_empty_fill (Generator.f_grid s) p v He). lia. }
  pose proof (fill_grid_recursive_post fuel s1 Hwf1 Hcon1 Hfuel1) as H1.
  pose proof (IH s1 Hwf1 Hcon1 Hfuel1) as H2.
  rewrite Hs1 in H1, H2. done.
Qed.

(** X11.  [_fill_grid] returns on every well-formed board whose values are
    consistent, and raises nothing: [FillTimeout] is caught.  When it
    returns [True] the board is complete and is a valid solution: the board
    it was given with its empty cells filled, the cells of every group
    holding a permutation of [1 .. size] and no two adjacent cells the same
    value. *)
Theorem fill_grid_valid_solution (g : Grid) (t : tape) :
  wf_grid g → consistent g →
  ∃ filled g1 t1,
    Generator.fill_grid g t = Ret (filled, g1, t1)
    ∧ (filled = true →
       wf_grid g1 ∧ filled_from g g1 ∧ is_complete g1 = true
       ∧ is_solution g1 (λ p, default 0 (value_at g1 p))).
Proof.
  intros Hwf Hcon. unfold Generator.fill_grid.
  pose proof (fill_grid_recursive_post (S (num_empty g)) (Generator.mkFill g 0 t)
                Hwf Hcon (Nat.lt_succ_diag_r _)) as H.
  pose proof (fill_grid_recursive_from (S (num_empty g)) (Generator.mkFill g 0 t)
                Hwf Hcon (Nat.lt_succ_diag_r _)) as H'.
  destruct (Generator.fill_grid_recursive _ _) as [[|] s|s|]; cbn in H, H';
    [| | |done].
  - eexists _, _, _. split; [done|]. intros _.
    destruct H as (Hwf1 & Hcon1 & Hcomp1 & _).
    split_and!; [done..|]. by apply complete_solution.
  - eexists _, _, _. split; [done|]. done.
  - eexists _, _, _. split; [done|]. done.
Qed.

Lemma fill_grid_valid_solution_witness :
  ∃ filled g1 t1, Generator.fill_grid pair_board [] = Ret (filled, g1, t1).
Proof.
  destruct (fill_grid_valid_solution pair_board [] pair_board_wf
              (build_cells_consistent _ _ _)) as (b & g1 & t1 & H & _).
  by exists b, g1, t1.
Defined.

Lemma remove_loop_unique d max_removals sol :
  ∀ filled_cells g k,
    wf_grid g → is_solution g sol → unique_solution g →
    ∃ g' n, Generator.remove_loop d max_removals filled_cells g k = Ret (g', n)
            ∧ wf_grid g' ∧ is_solution g' sol ∧ unique_solution g'
            ∧ filled_from g' g.
Proof.
  induction filled_cells as [|cell rest IH]; intros g k Hwf Hsol Hun.
  { exists g, k. split_and!; [done..|apply filled_from_refl]. }
  cbn [Generator.remove_loop].
  destruct (Z.leb_spec max_removals (Z.of_nat k)) as [Hle|Hlt].
  { exists g, k. split_and!; [done..|apply filled_from_refl]. }
  destruct (try_removal_post d g cell sol Hwf Hsol)
    as (result & unique & _ & _ & Hiff & ->).
  cbn. destruct (solved result && unique) eqn:Hkept.
  - apply andb_true_iff in Hkept as [_ ->].
    destruct (IH (upd g cell (set_value None)) (S k)) as (g' & n & -> & ? & ? & ? & ?).
    + apply wf_upd; [apply keeps_group_set_value|done].
    + by apply solution_blank.
    + by apply Hiff.
    + exists g', n. split_and!; [done..|].
      eapply filled_from_trans; [done|]. apply filled_from_blank.
  - destruct (IH g k Hwf Hsol Hun) as (g' & n & -> & ? & ? & ? & ?).
    by exists g', n.
Qed.

(** X12.  Given a complete valid board, [_remove_clues] returns a puzzle
    that has exactly one solution, the board it was given: the puzzle is
    that board with some cells blanked and nothing else changed. *)
Theorem remove_clues_unique_puzzle (g : Grid) (target_difficulty : Z)
    (removal_percentage : Q) (t : tape) :
  wf_grid g → consistent g → is_complete g = true →
  ∃ g' removed t',
    Generator.remove_clues g target_difficulty removal_percentage t
    = Ret (g', removed, t')
    ∧ wf_grid g' ∧ filled_from g' g
    ∧ is_solution g' (λ p, default 0 (value_at g p))
    ∧ unique_solution g'.
Proof.
  intros Hwf Hcon Hcomp. unfold Generator.remove_clues.
  destruct (shuffle _ t) as [filled_cells t'].
  destruct (remove_loop_unique target_difficulty
              (Generator.max_removals_of (length filled_cells) removal_percentage)
              (λ p, default 0 (value_at g p)) filled_cells g 0 Hwf
              (complete_solution g Hwf Hcon Hcomp)
              (complete_unique g Hwf Hcon Hcomp))
    as (g' & n & -> & ? & ? & ? & ?).
  cbn. by exists g', n, t'.
Qed.

Lemma remove_clues_unique_puzzle_witness :
  let g := with_clues pair_board [((0, 0), 1); ((0, 1), 2)] in
  ∃ g' removed t', Generator.remove_clues g 1 1%Q [] = Ret (g', removed, t')
                   ∧ unique_solution g'.
Proof.
  intros g.
  assert (wf_grid g) as Hwf.
  { apply wf_upd; [apply keeps_group_set_value|apply pair_puzzle_wf]. }
  assert (is_solution g pair_solution) as Hsol.
  { apply solution_fill; [done|]. split; [apply pair_puzzle_solution|done]. }
  assert (is_complete g = true) as Hcomp by done.
  destruct (remove_clues_unique_puzzle g 1 1%Q [] Hwf
              (solution_consistent g _ Hwf Hsol) Hcomp)
    as (g' & n & t' & H & _ & _ & _ & Hun).
  by exists g', n, t'.
Defined.

Lemma attempt_puzzle cfg t g solution t' :
  Generator.attempt cfg t = Ret (Some (g, solution), t') →
  rows solution = Generator.cfg_rows cfg ∧ cols solution = Generator.cfg_cols cfg
  ∧ wf_grid solution ∧ is_complete solution = true
  ∧ is_solution solution (λ p, default 0 (value_at solution p))
  ∧ wf_grid g ∧ filled_from g solution
  ∧ is_solution g (λ p, default 0 (value_at solution p))
  ∧ unique_solution g.
Proof.
  unfold Generator.attempt.
  destruct (GroupGenerator.generate _ _ _ _ t) as [[lay|] t1] eqn:Hgen; [|done].
  apply shaped_generate in Hgen.
  destruct (fill_grid_valid_solution
              (build_cells (Generator.cfg_rows cfg) (Generator.cfg_cols cfg) lay)
              t1 (wf_build_cells _ _ _ Hgen) (build_cells_consistent _ _ _))
    as (b & g1 & t2 & -> & Hb).
  cbn -[rate Generator.remove_clues].
  destruct b; cbn -[rate Generator.remove_clues]; [|done].
  destruct Hb as (Hwf1 & (R1 & C1 & _) & Hcomp1 & Hsol1); [done|].
  assert (consistent g1) as Hcon1 by (by eapply solution_consistent).
  destruct (remove_clues_unique_puzzle g1 (Generator.cfg_difficulty cfg)
              (Generator.removal_percentage cfg) t2 Hwf1 Hcon1 Hcomp1)
    as (g2 & n & t3 & -> & Hwf2 & Hfrom & Hsol2 & Hun).
  cbn -[rate]. destruct (rate g2) as [z| |]; cbn; [|done..].
  case_match; [|done]. intros [= <- <- <-]. rewrite clone_wf by done.
  split_and!; done.
Qed.

(** X13.  The puzzle [generate] returns comes with its solution: the
    solution is a complete board of the requested dimensions that satisfies
    every constraint, the puzzle is that board with some cells blanked, and
    the puzzle has exactly one solution, the one returned with it. *)
Theorem generate_unique_puzzle (cfg : Generator.Config) (t : tape)
    (g solution : Grid) :
  Generator.generate cfg t = Ret (Some (g, solution)) →
  rows solution = Generator.cfg_rows cfg ∧ cols solution = Generator.cfg_cols cfg
  ∧ wf_grid solution ∧ is_complete solution = true
  ∧ is_solution solution (λ p, default 0 (value_at solution p))
  ∧ wf_grid g ∧ filled_from g solution
  ∧ is_solution g (λ p, default 0 (value_at solution p))
  ∧ unique_solution g.
Proof.
  unfold Generator.generate. intros (k & t1 & t2 & _ & _ & Ha)%attempts_Some.
  by eapply attempt_puzzle.
Qed.

Lemma generate_unique_puzzle_witness :
  match Generator.generate (Generator.mkConfig 2 2 1 1%Q 5 2) [] with
  | Ret (Some (g, _)) => unique_solution g
  | _ => False
  end.
Proof.
  destruct (Generator.generate (Generator.mkConfig 2 2 1 1%Q 5 2) [])
    as [[[g sol]|]| |] eqn:E.
  - exact (proj2 (proj2 (proj2 (proj2 (proj2 (proj2 (proj2 (proj2
             (generate_unique_puzzle _ _ g sol E))))))))).
  - by vm_compute in E.
  - by vm_compute in E.
  - by vm_compute in E.
Defined.

(** * Further properties of the region generator ([group_generator.py]) *)

Lemma length_positions nrows mcols : length (positions nrows mcols) = nrows * mcols.
Proof.
  rewrite positions_concat.
  assert (∀ rs : list nat,
            length (concat (map (λ r, map (λ c, (r, c)) (seq 0 mcols)) rs))
            = length rs * mcols) as H.
  { induction rs as [|r rs IH]; [done|]. cbn. rewrite length_app, IH.
    by rewrite length_map, length_seq. }
  by rewrite H, length_seq.
Qed.

Lemma concat_initial nrows mcols :
  concat (GroupGenerator.initial_layout nrows mcols) = seq 0 (nrows * mcols).
Proof.
  unfold GroupGenerator.initial_layout.
  induction nrows as [|n IH]; [done|].
  rewrite seq_S, map_app, concat_app, IH. cbn [map concat]. rewrite app_nil_r.
  replace (S n * mcols) with (n * mcols + mcols) by lia.
  rewrite seq_app. f_equal. cbn [Nat.add].
  pose proof (fmap_add_seq (n * mcols) 0 mcols) as H.
  rewrite Nat.add_0_r in H. rewrite <- H. done.
Qed.

Lemma occurrences_app k l1 l2 :
  occurrences k (l1 ++ l2) = occurrences k l1 + occurrences k l2.
Proof. unfold occurrences. by rewrite filter_app, length_app. Qed.

Lemma occurrences_pos k l : k ∈ l ↔ 0 < occurrences k l.
Proof.
  split.
  - intros Hin. unfold occurrences.
    assert (k ∈ filter (λ x, x = k) l) as Hk by (by apply list_elem_of_filter).
    destruct (filter (λ x, x = k) l); [by apply elem_of_nil in Hk|cbn; lia].
  - intros Hpos. destruct (decide (k ∈ l)) as [|Hn]; [done|].
    rewrite occurrences_0 in Hpos by done. lia.
Qed.

Lemma occurrences_seq k n :
  occurrences k (seq 0 n) = if decide (k < n) then 1 else 0.
Proof.
  induction n as [|n IH]; [done|].
  rewrite seq_S, occurrences_app, IH. cbn [Nat.add]. unfold occurrences.
  destruct (decide (n = k)) as [->|Hne].
  - rewrite filter_cons_True by done. cbn.
    rewrite decide_False by lia. by rewrite decide_True by lia.
  - rewrite filter_cons_False by done. cbn.
    destruct (decide (k < n)); [by rewrite decide_True by lia|].
    by rewrite decide_False by lia.
Qed.

Lemma size_of_lt sizes gid :
  0 < GroupGenerator.size_of sizes gid → gid < length sizes.
Proof.
  unfold GroupGenerator.size_of. intros H.
  destruct (sizes !! gid) eqn:E; [by eapply lookup_lt_Some|]. cbn in H. lia.
Qed.

Lemma size_of_update sizes a b n gid :
  a ≠ b → a < length sizes → b < length sizes →
  GroupGenerator.size_of (<[b:=0]> (<[a:=n]> sizes)) gid
  = if decide (gid = b) then 0
    else if decide (gid = a) then n else GroupGenerator.size_of sizes gid.
Proof.
  intros Hne Ha Hb. unfold GroupGenerator.size_of.
  destruct (decide (gid = b)) as [->|Hgb].
  { rewrite list_lookup_insert_eq; [done|]. by rewrite length_insert. }
  rewrite list_lookup_insert_ne by done.
  destruct (decide (gid = a)) as [->|Hga].
  { by rewrite list_lookup_insert_eq. }
  by rewrite list_lookup_insert_ne.
Qed.

Lemma occurrences_merge a b gid xs :
  a ≠ b →
  occurrences gid ((λ x, if x =? b then a else x) <$> xs)
  = if decide (gid = b) then 0
    else if decide (gid = a) then occurrences a xs + occurrences b xs
         else occurrences gid xs.
Proof.
  intros Hne. induction xs as [|x xs IH].
  { repeat case_decide; reflexivity. }
  rewrite fmap_cons. change (?y :: ?l) with ([y] ++ l).
  rewrite !(occurrences_app _ [_]), IH.
  assert (∀ k y, occurrences k [y] = if decide (y = k) then 1 else 0) as H1.
  { intros k y. unfold occurrences. rewrite filter_cons, filter_nil.
    repeat case_match; done. }
  rewrite !H1. destruct (Nat.eqb_spec x b) as [->|Hxb];
    repeat case_decide; subst; try done; lia.
Qed.

Lemma concat_merge_groups l a b :
  concat (GroupGenerator.merge_groups l a b)
  = (λ x, if x =? b then a else x) <$> concat l.
Proof. apply concat_fmap_fmap. Qed.

Lemma tracked_merge nrows mcols l sizes a b :
  tracked nrows mcols (l, sizes) → a ≠ b → a ∈ concat l → b ∈ concat l →
  tracked nrows mcols
    (GroupGenerator.merge_groups l a b,
     <[b:=0]> (<[a:=GroupGenerator.size_of sizes a + GroupGenerator.size_of sizes b]>
                 sizes)).
Proof.
  intros (Hs & Hlen & Hsz) Hne Ha Hb. cbn [fst snd] in *.
  assert (a < length sizes) as Hal.
  { apply size_of_lt. rewrite Hsz. by apply occurrences_pos. }
  assert (b < length sizes) as Hbl.
  { apply size_of_lt. rewrite Hsz. by apply occurrences_pos. }
  split_and!; cbn [fst snd].
  - by apply shaped_merge_groups.
  - by rewrite !length_insert.
  - intros gid. rewrite size_of_update by done.
    rewrite concat_merge_groups, occurrences_merge by done.
    by rewrite !Hsz.
Qed.

Lemma tracked_initial nrows mcols :
  tracked nrows mcols
    (GroupGenerator.initial_layout nrows mcols,
     map (λ _, 1) (positions nrows mcols)).
Proof.
  split_and!; cbn [fst snd].
  - apply shaped_initial.
  - by rewrite length_map, length_positions.
  - intros gid. rewrite concat_initial, occurrences_seq.
    unfold GroupGenerator.size_of. case_decide as Hlt.
    + destruct (lookup_lt_is_Some_2 (positions nrows mcols) gid) as [p Hp].
      { by rewrite length_positions. }
      change (map ?f ?l) with (f <$> l). by rewrite list_lookup_fmap, Hp.
    + change (map ?f ?l) with (f <$> l). rewrite list_lookup_fmap.
      rewrite (proj2 (lookup_ge_None _ _)); [done|]. rewrite length_positions. lia.
Qed.

Lemma layout_at_in_concat nrows mcols l p :
  shaped nrows mcols l → p.1 < nrows → p.2 < mcols → layout_at l p ∈ concat l.
Proof.
  intros Hs H1 H2. rewrite (shaped_concat _ _ _ Hs).
  apply list_elem_of_fmap. exists p. split; [done|]. by apply elem_of_positions.
Qed.

Lemma all_pairs_in_grid nrows mcols pr :
  pr ∈ GroupGenerator.all_pairs nrows mcols →
  (pr.1.1 < nrows ∧ pr.1.2 < mcols) ∧ (pr.2.1 < nrows ∧ pr.2.2 < mcols).
Proof.
  unfold GroupGenerator.all_pairs. rewrite elem_of_app, !list_elem_of_bind.
  intros [(r & (c & ->%list_elem_of_singleton & Hc%elem_of_seq)%list_elem_of_bind
             & Hr%elem_of_seq)
         |(r & (c & ->%list_elem_of_singleton & Hc%elem_of_seq)%list_elem_of_bind
             & Hr%elem_of_seq)]; cbn; lia.
Qed.

Lemma tracked_merge_pair nrows mcols max_size bound st pr :
  max_size ≤ bound →
  pr ∈ GroupGenerator.all_pairs nrows mcols →
  tracked nrows mcols st ∧ (∀ gid, GroupGenerator.size_of st.2 gid ≤ bound) →
  tracked nrows mcols (GroupGenerator.merge_pair max_size st pr)
  ∧ (∀ gid, GroupGenerator.size_of (GroupGenerator.merge_pair max_size st pr).2 gid
            ≤ bound).
Proof.
  intros Hmax Hpr [Htr Hb]. destruct st as [l sizes].
  pose proof Htr as (Hs & Hlen & Hsz). cbn [fst snd] in *.
  apply all_pairs_in_grid in Hpr as [[? ?] [? ?]].
  assert (layout_at l pr.1 ∈ concat l) as Ha by (by eapply layout_at_in_concat).
  assert (layout_at l pr.2 ∈ concat l) as Hc by (by eapply layout_at_in_concat).
  unfold GroupGenerator.merge_pair.
  destruct (Nat.eqb_spec (layout_at l pr.1) (layout_at l pr.2)) as [|Hne]; [done|].
  destruct (Nat.leb_spec (GroupGenerator.size_of sizes (layout_at l pr.1)
                          + GroupGenerator.size_of sizes (layout_at l pr.2))
                         max_size) as [Hle|]; [|done].
  assert (layout_at l pr.1 < length sizes ∧ layout_at l pr.2 < length sizes)
    as [Hal Hbl].
  { split; apply size_of_lt; rewrite Hsz; by apply occurrences_pos. }
  destruct (GroupGenerator.size_of sizes (layout_at l pr.1)
            <? GroupGenerator.size_of sizes (layout_at l pr.2)).
  - split.
    + apply tracked_merge; [done|congruence|done..].
    + intros gid. cbn [snd]. rewrite size_of_update by (done || congruence).
      repeat case_decide; [lia|lia|apply Hb].
  - split.
    + by apply tracked_merge.
    + intros gid. cbn [snd]. rewrite size_of_update by done.
      repeat case_decide; [lia|lia|apply Hb].
Qed.

(** X14.  The first pass of [generate], which merges the groups of
    adjacent cells pair by pair, never makes a group larger than
    [max_size], in whatever order the pairs come: after it the layout still
    has the shape of the grid, [group_sizes] still counts the cells of each
    id, and no id is carried by more than [max_size] cells.  Only the
    repair pass can exceed the bound. *)
Lemma tracked_first_pass nrows mcols max_size bound pairs :
  max_size ≤ bound → 1 ≤ bound →
  (∀ pr, pr ∈ pairs → pr ∈ GroupGenerator.all_pairs nrows mcols) →
  let st := fold_left (GroupGenerator.merge_pair max_size) pairs
              (GroupGenerator.initial_layout nrows mcols,
               map (λ _, 1) (positions nrows mcols)) in
  tracked nrows mcols st ∧ ∀ gid, GroupGenerator.size_of st.2 gid ≤ bound.
Proof.
  intros Hmax Hb Hpairs st.
  apply (fold_left_inv (GroupGenerator.merge_pair max_size)
           (λ st, tracked nrows mcols st
                  ∧ ∀ gid, GroupGenerator.size_of st.2 gid ≤ bound)).
  - intros st0 pr Hpr H0. apply tracked_merge_pair; [done| |done]. by apply Hpairs.
  - split; [apply tracked_initial|]. intros gid.
    destruct (tracked_initial nrows mcols) as (_ & _ & Hsz). cbn [snd fst] in *.
    rewrite Hsz, concat_initial, occurrences_seq. case_decide; lia.
Qed.

Theorem first_pass_within_max (max_size nrows mcols : nat) (t : tape) :
  1 ≤ max_size →
  let st := fold_left (GroupGenerator.merge_pair max_size)
              (shuffle (GroupGenerator.all_pairs nrows mcols) t).1
              (GroupGenerator.initial_layout nrows mcols,
               map (λ _, 1) (positions nrows mcols)) in
  shaped nrows mcols st.1
  ∧ (∀ gid, GroupGenerator.size_of st.2 gid = occurrences gid (concat st.1))
  ∧ (∀ gid, occurrences gid (concat st.1) ≤ max_size).
Proof.
  intros Hmax st.
  destruct (tracked_first_pass nrows mcols max_size max_size
              (shuffle (GroupGenerator.all_pairs nrows mcols) t).1)
    as [Htr Hb]; [done..| |].
  { intros pr Hpr.
    by rewrite <- (shuffle_Permutation (GroupGenerator.all_pairs nrows mcols) t). }
  fold st in Htr, Hb.
  destruct Htr as (Hs & _ & Hsz). split_and!; [done..|].
  intros gid. rewrite <- Hsz. apply Hb.
Qed.

Lemma first_pass_within_max_witness :
  let st := fold_left (GroupGenerator.merge_pair 2)
              (shuffle (GroupGenerator.all_pairs 1 3) []).1
              (GroupGenerator.initial_layout 1 3, map (λ _, 1) (positions 1 3)) in
  shaped 1 3 st.1 ∧ occurrences 0 (concat st.1) ≤ 2.
Proof.
  intros st.
  destruct (first_pass_within_max 2 1 3 [] (le_S _ _ (le_n 1))) as (Hs & _ & Hb).
  split; [exact Hs|exact (Hb 0)].
Defined.

Lemma shaped_positions nrows mcols l :
  shaped nrows mcols l →
  positions (length l) (length (default [] (head l))) = positions nrows mcols.
Proof.
  intros [Hlen Hrow]. rewrite Hlen. destruct l as [|row l].
  - cbn in Hlen. by subst.
  - cbn. f_equal. apply Hrow. apply list_elem_of_here.
Qed.

Lemma elem_of_orthogonal l p q :
  p.1 < length l → p.2 < length (default [] (head l)) →
  q ∈ GroupGenerator.orthogonal l p
  ↔ (q.1 < length l ∧ q.2 < length (default [] (head l))) ∧ orth_adjacent p q.
Proof.
  intros H1 H2. unfold GroupGenerator.orthogonal, orth_adjacent.
  destruct p as [r c], q as [r' c']. cbn [fst snd] in *.
  rewrite !elem_of_app.
  destruct (Nat.ltb_spec 0 r), (Nat.ltb_spec (r + 1) (length l)),
    (Nat.ltb_spec 0 c), (Nat.ltb_spec (c + 1) (length (default [] (head l))));
    rewrite ?list_elem_of_singleton, ?elem_of_nil;
    (split; [intros Hq; repeat destruct Hq as [Hq|Hq]; try done;
              injection Hq as -> ->; lia
            |intros [[? ?] Hadj];
             assert (r' = r - 1 ∧ c' = c ∨ r' = r + 1 ∧ c' = c
                     ∨ r' = r ∧ c' = c - 1 ∨ r' = r ∧ c' = c + 1)
               as [[-> ->]|[[-> ->]|[[-> ->]|[-> ->]]]] by lia;
             try lia; tauto]).
Qed.

Lemma elem_of_get_adjacent_groups nrows mcols l group_id x :
  shaped nrows mcols l →
  x ∈ GroupGenerator.get_adjacent_groups group_id l
  ↔ x ≠ group_id
    ∧ ∃ p q, p ∈ positions nrows mcols ∧ q ∈ positions nrows mcols
             ∧ orth_adjacent p q
             ∧ layout_at l p = group_id ∧ layout_at l q = x.
Proof.
  intros Hs. unfold GroupGenerator.get_adjacent_groups.
  rewrite elem_of_remove_dups, list_elem_of_bind.
  rewrite (shaped_positions _ _ _ Hs).
  assert (Hdims : ∀ p, p ∈ positions nrows mcols ↔
                       p.1 < length l ∧ p.2 < length (default [] (head l))).
  { intros p. by rewrite <- (shaped_positions _ _ _ Hs), elem_of_positions. }
  split.
  - intros (p & Hx & [Hp Hpin]%list_elem_of_filter).
    apply list_elem_of_filter in Hx as [Hne Hx].
    apply list_elem_of_In, in_map_iff in Hx as (q & <- & Hq%list_elem_of_In).
    apply Hdims in Hpin as Hpd. destruct Hpd as [? ?].
    apply elem_of_orthogonal in Hq as [Hqd Hadj]; [|done..].
    split; [done|]. exists p, q. split_and!; [done| |done..]. by apply Hdims.
  - intros (Hne & p & q & Hp & Hq & Hadj & Hpg & Hqx).
    exists p. split; [|by apply list_elem_of_filter].
    apply list_elem_of_filter. split; [done|].
    apply list_elem_of_In, in_map_iff. exists q. split; [done|].
    apply list_elem_of_In. apply Hdims in Hp as [? ?].
    apply elem_of_orthogonal; [done..|]. split; [by apply Hdims|done].
Qed.

(** X15.  [_get_adjacent_groups] returns, each once, exactly the ids other
    than [group_id] carried by a cell of the layout that is orthogonally
    adjacent to a cell of the group. *)
Theorem get_adjacent_groups_spec (nrows mcols : nat) (l : GroupGenerator.layout)
    (group_id : nat) :
  shaped nrows mcols l →
  NoDup (GroupGenerator.get_adjacent_groups group_id l)
  ∧ ∀ x, x ∈ GroupGenerator.get_adjacent_groups group_id l
         ↔ x ≠ group_id
           ∧ ∃ p q, p ∈ positions nrows mcols ∧ q ∈ positions nrows mcols
                    ∧ orth_adjacent p q
                    ∧ layout_at l p = group_id ∧ layout_at l q = x.
Proof.
  intros Hs. split; [apply NoDup_remove_dups|].
  intros x. by apply elem_of_get_adjacent_groups.
Qed.

Lemma get_adjacent_groups_spec_witness :
  NoDup (GroupGenerator.get_adjacent_groups 0 [[0; 1]])
  ∧ (0 ∉ GroupGenerator.get_adjacent_groups 0 [[0; 1]]).
Proof.
  assert (shaped 1 2 [[0; 1]]) as Hs.
  { split; [done|]. by intros row ->%list_elem_of_singleton. }
  destruct (get_adjacent_groups_spec 1 2 [[0; 1]] 0 Hs) as [Hnd Hspec].
  split; [done|]. by intros [? _]%Hspec.
Defined.

Lemma min_by_elem (key : nat → nat) (l : list nat) (best : option nat) (x : nat) :
  fold_left
    (λ best x,
       match best with
       | None => Some x
       | Some b => if key x <? key b then Some x else best
       end) l best = Some x →
  best = Some x ∨ x ∈ l.
Proof.
  revert best. induction l as [|y l IH]; intros best; cbn [fold_left]; [by left|].
  intros [Hb|Hin]%IH; [|right; by right].
  destruct best as [b|].
  - destruct (key y <? key b); [|by left]. injection Hb as ->. right.
    apply list_elem_of_here.
  - injection Hb as ->. right. apply list_elem_of_here.
Qed.

Lemma tracked_repair_group nrows mcols st gid :
  tracked nrows mcols st → tracked nrows mcols (GroupGenerator.repair_group st gid).
Proof.
  intros Htr. destruct st as [l sizes]. unfold GroupGenerator.repair_group.
  destruct (GroupGenerator.min_by _ _) as [nb|] eqn:Hmin; [|done].
  unfold GroupGenerator.min_by in Hmin.
  apply min_by_elem in Hmin as [?|Hnb]; [done|].
  pose proof Htr as (Hs & _).
  apply (elem_of_get_adjacent_groups nrows mcols) in Hnb
    as (Hne & p & q & Hp & Hq & _ & Hpg & Hqx); [|done].
  apply elem_of_positions in Hp as [? ?]. apply elem_of_positions in Hq as [? ?].
  apply tracked_merge; [done..| |].
  - rewrite <- Hqx. by eapply layout_at_in_concat.
  - rewrite <- Hpg. by eapply layout_at_in_concat.
Qed.

Lemma repair_post nrows mcols budget min_size st l :
  tracked nrows mcols st →
  GroupGenerator.repair budget min_size st = Some l →
  shaped nrows mcols l
  ∧ ∀ gid, gid ∈ concat l →
           gid < nrows * mcols ∧ min_size ≤ occurrences gid (concat l).
Proof.
  revert st. induction budget as [|budget IH]; intros st Htr;
    cbn [GroupGenerator.repair].
  - destruct (GroupGenerator.small_groups _ _) eqn:E; intros Heq;
      [|discriminate Heq]. injection Heq as <-.
    destruct Htr as (Hs & Hlen & Hsz). split; [done|]. intros gid Hin.
    apply occurrences_pos in Hin. rewrite <- Hsz in *.
    pose proof (size_of_lt _ _ Hin) as Hlt. split; [lia|].
    unfold GroupGenerator.small_groups in E.
    destruct (decide (min_size ≤ GroupGenerator.size_of st.2 gid)); [done|].
    exfalso. eapply (filter_nil_not_elem_of _ _ gid E); [lia|].
    apply elem_of_seq. lia.
  - destruct (GroupGenerator.small_groups _ _) as [|x xs] eqn:E.
    + intros Heq. injection Heq as <-.
      destruct Htr as (Hs & Hlen & Hsz). split; [done|]. intros gid Hin.
      apply occurrences_pos in Hin. rewrite <- Hsz in *.
      pose proof (size_of_lt _ _ Hin) as Hlt. split; [lia|].
      unfold GroupGenerator.small_groups in E.
      destruct (decide (min_size ≤ GroupGenerator.size_of st.2 gid)); [done|].
      exfalso. eapply (filter_nil_not_elem_of _ _ gid E); [lia|].
      apply elem_of_seq. lia.
    + apply IH. apply (fold_left_inv GroupGenerator.repair_group); [|done].
      intros st0 gid _. apply tracked_repair_group.
Qed.

Lemma group_cells_occurrences nrows mcols l gid :
  shaped nrows mcols l →
  length (GroupGenerator.group_cells l gid) = occurrences gid (concat l).
Proof.
  intros Hs. unfold GroupGenerator.group_cells.
  rewrite (shaped_positions _ _ _ Hs), (shaped_concat _ _ _ Hs).
  by rewrite occurrences_fmap.
Qed.

(** X16.  When [generate] returns a layout, the layout has the shape of
    the grid, so every cell carries exactly one group id; the ids are among
    the initial ones, [0 .. rows * cols - 1]; and every group has at least
    [min_size] cells.  (The upper bound [max_size] is not guaranteed: the
    repair pass merges without checking it.) *)
Theorem generate_layout_min_size (min_size max_size nrows mcols : nat)
    (t t' : tape) (l : GroupGenerator.layout) :
  GroupGenerator.generate min_size max_size nrows mcols t = (Some l, t') →
  shaped nrows mcols l
  ∧ ∀ gid, gid ∈ concat l →
           gid < nrows * mcols
           ∧ min_size ≤ length (GroupGenerator.group_cells l gid).
Proof.
  unfold GroupGenerator.generate.
  pose proof (shuffle_Permutation (GroupGenerator.all_pairs nrows mcols) t) as Hperm.
  destruct (shuffle (GroupGenerator.all_pairs nrows mcols) t) as [pairs t1].
  cbn [fst] in Hperm. intros Heq. injection Heq as Hrep _.
  destruct (tracked_first_pass nrows mcols max_size (max max_size 1) pairs)
    as [Htr _]; [lia..| |].
  { intros pr Hpr. by rewrite <- Hperm. }
  destruct (repair_post _ _ _ _ _ _ Htr Hrep) as [Hs Hmin].
  split; [done|]. intros gid Hin.
  rewrite (group_cells_occurrences nrows mcols) by done. by apply Hmin.
Qed.

Lemma generate_layout_min_size_witness :
  match GroupGenerator.generate 2 5 2 2 [] with
  | (Some l, _) => shaped 2 2 l
  | _ => False
  end.
Proof.
  destruct (GroupGenerator.generate 2 5 2 2 []) as [[l|] t'] eqn:E.
  - exact (proj1 (generate_layout_min_size 2 5 2 2 [] t' l E)).
  - by vm_compute in E.
Defined.

(** ** [_place_value] *)

Lemma cands_at_discard g q v p :
  cands_at (upd g q (map_candidates (discard v))) p
  = if decide (q = p) then discard v (cands_at g p) else cands_at g p.
Proof.
  case_decide as Hq; [subst q|by apply cands_at_upd_ne].
  unfold cands_at. rewrite cell_at_upd_eq. by destruct (cell_at g p).
Qed.

Lemma discard_idemp v s : discard v (discard v s) = discard v s.
Proof.
  unfold discard. induction s as [|x s IH]; [done|].
  rewrite (filter_cons (λ y, y ≠ v) x s). case_decide as Hx; [|done].
  rewrite filter_cons_True by done. by rewrite IH.
Qed.

Lemma starved_upd v g q0 q :
  starved v (upd g q0 (map_candidates (discard v))) q ↔ starved v g q.
Proof.
  unfold starved. rewrite is_empty_at_upd_candidates, cands_at_discard.
  case_decide; [by rewrite discard_idemp|done].
Qed.

Lemma starved_dec v g q : starved v g q ∨ ¬ starved v g q.
Proof.
  unfold starved. destruct (is_empty_at g q); [|right; by intros [? _]].
  destruct (discard v (cands_at g q)); [by left|right; by intros [_ ?]].
Qed.

Lemma propagate_cases v g q :
  (starved v g q → propagate v g q = Raise Contradiction)
  ∧ (¬ starved v g q →
     propagate v g q = Ret (upd g q (map_candidates (discard v)))).
Proof.
  unfold propagate, starved.
  rewrite is_empty_at_upd_candidates, cands_at_discard, decide_True by done.
  destruct (is_empty_at g q); cbn; [|split; [by intros [? _]|done]].
  destruct (discard v (cands_at g q)) as [|x s]; cbn.
  - split; [done|]. intros H. by destruct H.
  - split; [by intros [_ ?]|done].
Qed.

Lemma foldM_propagate_cases v qs :
  ∀ g,
    ((∃ q, q ∈ qs ∧ starved v g q) →
     foldM (propagate v) g qs = Raise Contradiction)
    ∧ ((∀ q, q ∈ qs → ¬ starved v g q) →
       foldM (propagate v) g qs = Ret (discard_all v qs g)).
Proof.
  induction qs as [|q0 qs IH]; intros g.
  { split; [by intros (q & ?%elem_of_nil & _)|done]. }
  cbn [foldM]. rewrite discard_all_cons.
  destruct (propagate_cases v g q0) as [Hr Hn].
  destruct (IH (upd g q0 (map_candidates (discard v)))) as [IHr IHn].
  split.
  - intros (q & Hq & Hst). destruct (starved_dec v g q0) as [H0|H0].
    { by rewrite Hr. }
    rewrite Hn by done. cbn. apply IHr.
    apply elem_of_cons in Hq as [->|Hq]; [done|].
    exists q. split; [done|]. by apply starved_upd.
  - intros Hall. rewrite Hn by (apply Hall; apply list_elem_of_here).
    cbn. apply IHn. intros q Hq Hst%starved_upd. apply (Hall q); [by right|done].
Qed.

Lemma starved_discard_all v qs g q :
  starved v (discard_all v qs g) q ↔ starved v g q.
Proof.
  revert g. induction qs as [|q0 qs IH]; intros g; [done|].
  by rewrite discard_all_cons, IH, starved_upd.
Qed.

Lemma starved_any_dec v g (qs : list pos) :
  (∃ q, q ∈ qs ∧ starved v g q) ∨ (∀ q, q ∈ qs → ¬ starved v g q).
Proof.
  induction qs as [|q0 qs [(q & Hq & Hst)|IH]].
  - right. by intros q ?%elem_of_nil.
  - left. exists q. split; [by right|done].
  - destruct (starved_dec v g q0) as [H0|H0].
    + left. exists q0. split; [apply list_elem_of_here|done].
    + right. intros q [->|Hq]%elem_of_cons; auto.
Qed.

Lemma cands_at_discard_all v qs g q :
  cands_at (discard_all v qs g) q
  = if decide (q ∈ qs) then discard v (cands_at g q) else cands_at g q.
Proof.
  revert g. induction qs as [|q0 qs IH]; intros g.
  { by rewrite decide_False by apply not_elem_of_nil. }
  rewrite discard_all_cons, IH, cands_at_discard.
  destruct (decide (q0 = q)) as [->|Hne].
  - rewrite (decide_True (P := q ∈ q :: qs)) by apply list_elem_of_here.
    case_decide; [apply discard_idemp|done].
  - destruct (decide (q ∈ qs)) as [Hin|Hin].
    + by rewrite decide_True by (by right).
    + rewrite decide_False; [done|]. intros [?|?]%elem_of_cons; congruence.
Qed.

(** X17.  [_place_value] on a cell of a well-formed board raises
    [Contradiction] exactly when some empty group peer or neighbour of the
    cell has no candidate other than the value placed.  Otherwise it
    returns the board with the value in the cell and the candidates of the
    cell cleared, the value removed from the candidates of every group peer
    and neighbour, and nothing else changed: no other value, no candidate
    set of another cell, no group. *)
Theorem place_value_spec (g : Grid) (p : pos) (v : nat) :
  wf_grid g → in_grid g p →
  ((∃ q, related g p q ∧ starved v g q) →
   place_value g p v = Raise Contradiction)
  ∧ ((∀ q, related g p q → ¬ starved v g q) →
     ∃ g', place_value g p v = Ret g'
       ∧ rows g' = rows g ∧ cols g' = cols g ∧ groups g' = groups g
       ∧ value_at g' p = Some v ∧ cands_at g' p = []
       ∧ (∀ q, q ≠ p → value_at g' q = value_at g q)
       ∧ (∀ q, related g p q → cands_at g' q = discard v (cands_at g q))
       ∧ (∀ q, q ≠ p → ¬ related g p q → cands_at g' q = cands_at g q)).
Proof.
  intros Hwf Hp. destruct (wf_cell_at g p Hwf Hp) as [c Hc].
  unfold place_value.
  set (fill := λ c : Cell, mkCell (Some v) [] (group_id c)).
  set (g0 := upd g p fill).
  assert (keeps_group fill) as Hfill by done.
  assert (∀ q, q ≠ p → cell_at g0 q = cell_at g q) as Hother.
  { intros q Hq. subst g0. by rewrite cell_at_upd_ne. }
  assert (cell_at g0 p = Some (fill c)) as Hself.
  { subst g0. by rewrite cell_at_upd_eq, Hc. }
  assert (∀ q, q ≠ p → starved v g0 q ↔ starved v g q) as Hst0.
  { intros q Hq. unfold starved, is_empty_at, cands_at. by rewrite Hother. }
  assert (∀ q, related g p q → q ≠ p) as Hrelne.
  { intros q Hq ->. by apply (not_related_self g p). }
  assert (get_group_peers g0 p = get_group_peers g p) as ->.
  { subst g0. by apply get_group_peers_upd. }
  destruct (foldM_propagate_cases v (get_group_peers g p) g0) as [Hr1 Hn1].
  set (g1 := discard_all v (get_group_peers g p) g0) in *.
  pose proof (discard_all_narrowed v (get_group_peers g p) g0)
    as (R1 & C1 & G1 & _). fold g1 in R1, C1, G1.
  assert (get_neighbors g1 p = get_neighbors g p) as Hnb.
  { by apply get_neighbors_frame. }
  destruct (foldM_propagate_cases v (get_neighbors g p) g1) as [Hr2 Hn2].
  split.
  - intros (q & [Hq|Hq] & Hst).
    + rewrite Hr1; [done|]. exists q. split; [done|].
      apply Hst0; [apply Hrelne; by left|done].
    + destruct (starved_any_dec v g0 (get_group_peers g p)) as [Hex|Hall].
      * by rewrite Hr1.
      * rewrite Hn1 by done. rewrite bind_Ret, Hnb. apply Hr2.
        exists q. split; [done|]. unfold g1. apply starved_discard_all.
        apply Hst0; [apply Hrelne; by right|done].
  - intros Hall. rewrite Hn1; last first.
    { intros q Hq Hst. apply (Hall q); [by left|].
      apply Hst0; [apply Hrelne; by left|done]. }
    rewrite bind_Ret, Hnb. rewrite Hn2; last first.
    { intros q Hq Hst. apply (Hall q); [by right|].
      apply Hst0; [apply Hrelne; by right|]. by apply starved_discard_all in Hst. }
    set (g2 := discard_all v (get_neighbors g p) g1).
    pose proof (discard_all_narrowed v (get_neighbors g p) g1)
      as (R2 & C2 & G2 & _). fold g2 in R2, C2, G2.
    exists g2. split; [done|].
    assert (∀ q, value_at g2 q = value_at g0 q) as Hval.
    { intros q. unfold g2, g1. by rewrite !discard_all_value. }
    assert (∀ q, cands_at g2 q
                 = if decide (related g p q) then discard v (cands_at g0 q)
                   else cands_at g0 q) as Hcands.
    { intros q. unfold g2, g1. rewrite !cands_at_discard_all. unfold related.
      destruct (decide (q ∈ get_group_peers g p)),
        (decide (q ∈ get_neighbors g p)).
      - rewrite decide_True by tauto. apply discard_idemp.
      - by rewrite decide_True by tauto.
      - by rewrite decide_True by tauto.
      - by rewrite decide_False by tauto. }
    split_and!.
    + by rewrite R2, R1.
    + by rewrite C2, C1.
    + by rewrite G2, G1.
    + rewrite Hval. unfold value_at. by rewrite Hself.
    + rewrite Hcands. assert (cands_at g0 p = []) as ->.
      { unfold cands_at. by rewrite Hself. }
      by case_decide.
    + intros q Hq. rewrite Hval. unfold value_at. by rewrite Hother.
    + intros q Hq. rewrite Hcands, decide_True by done.
      unfold cands_at. rewrite Hother; [done|]. by apply Hrelne.
    + intros q Hq Hnr. rewrite Hcands, decide_False by done.
      unfold cands_at. by rewrite Hother.
Qed.

Lemma place_value_spec_witness :
  place_value (init_candidates stuck_board) (0, 0) 2 = Raise Contradiction.
Proof.
  assert (wf_grid (init_candidates stuck_board)) as Hwf.
  { apply init_candidates_spec. apply wf_upd; [apply keeps_group_set_value|].
    apply wf_build_cells. split; [done|].
    intros row [->|[->|?%elem_of_nil]%elem_of_cons]%elem_of_cons; done. }
  assert (in_grid (init_candidates stuck_board) (0, 0)) as Hp
    by (split; vm_compute; lia).
  apply (proj1 (place_value_spec _ (0, 0) 2 Hwf Hp)).
  exists (0, 1). split.
  - left. vm_compute. apply list_elem_of_here.
  - split; by vm_compute.
Defined.

(** ** [is_valid] *)

Lemma NoDup_omap_inj {A B} (f : A → option B) (l : list A) x y v :
  NoDup (omap f l) → x ∈ l → y ∈ l → f x = Some v → f y = Some v → x = y.
Proof.
  induction l as [|a l IH]; intros Hnd Hx Hy Hfx Hfy; [by apply elem_of_nil in Hx|].
  cbn in Hnd. destruct (f a) as [w|] eqn:Hfa.
  - apply NoDup_cons in Hnd as [Hw Hnd].
    apply elem_of_cons in Hx as [->|Hx], Hy as [->|Hy]; [done| | |by apply IH].
    + exfalso. apply Hw. apply list_elem_of_omap. exists y. split; [done|congruence].
    + exfalso. apply Hw. apply list_elem_of_omap. exists x. split; [done|congruence].
  - apply elem_of_cons in Hx as [->|Hx]; [congruence|].
    apply elem_of_cons in Hy as [->|Hy]; [congruence|]. by apply IH.
Qed.

Lemma NoDup_omap {A B} (f : A → option B) (l : list A) :
  NoDup l →
  (∀ x y v, x ∈ l → y ∈ l → f x = Some v → f y = Some v → x = y) →
  NoDup (omap f l).
Proof.
  induction l as [|a l IH]; intros Hnd Hinj; [constructor|].
  apply NoDup_cons in Hnd as [Ha Hnd]. cbn.
  assert (NoDup (omap f l)) as IH'.
  { apply IH; [done|]. intros x y v Hx Hy. apply Hinj; by right. }
  destruct (f a) as [w|] eqn:Hfa; [|done].
  apply NoDup_cons. split; [|done].
  intros (y & Hy & Hfy)%list_elem_of_omap.
  apply Ha. rewrite (Hinj a y w); [done|apply list_elem_of_here|by right|done..].
Qed.

(** X18.  On a well-formed board [is_valid] returns [True] exactly when no
    cell holds the value of one of its group peers or of one of its
    neighbours.  It does not look at empty cells, nor at whether a value
    lies in [1 .. size]. *)
Theorem is_valid_spec (g : Grid) :
  wf_grid g →
  is_valid g = true
  ↔ ∀ p q v, value_at g p = Some v → related g p q → value_at g q ≠ Some v.
Proof.
  intros Hwf. unfold is_valid. rewrite andb_true_iff, !forallb_forall. split.
  - intros [Hgr Hnb] p q v Hp [Hq|Hq] Hqv.
    + apply wf_peers in Hq as (G & HG & Hpin & Hqin & Hne); [|done].
      specialize (Hgr G (proj1 (list_elem_of_In _ _) HG)).
      apply bool_decide_eq_true in Hgr.
      apply Hne. symmetry. by eapply (NoDup_omap_inj (value_at g) (g_cells G)).
    + assert (in_grid g p) as Hpin by (by eapply value_at_in_grid).
      specialize (Hnb p). rewrite Hp in Hnb.
      assert (bool_decide (v ∉ values_of g (get_neighbors g p)) = true) as Hb.
      { apply Hnb. apply list_elem_of_In. by apply elem_of_positions. }
      apply bool_decide_eq_true in Hb. apply Hb.
      apply list_elem_of_omap. by exists q.
  - intros Hall. split.
    + intros G HG%list_elem_of_In. apply bool_decide_eq_true.
      pose proof Hwf as (_ & _ & _ & _ & _ & Hsz). destruct (Hsz G HG) as [Hnd _].
      apply NoDup_omap; [done|]. intros x y v Hx Hy Hfx Hfy.
      destruct (decide (x = y)) as [|Hne]; [done|exfalso].
      apply (Hall x y v Hfx); [|done]. left. apply wf_peers; [done|].
      exists G. split_and!; [done..|congruence].
    + intros p _. destruct (value_at g p) as [v|] eqn:Hp; [|done].
      apply bool_decide_eq_true. intros (q & Hq & Hqv)%list_elem_of_omap.
      apply (Hall p q v Hp); [by right|done].
Qed.

Lemma is_valid_spec_witness :
  is_valid pair_puzzle = true ∧ is_valid clashing_board = false.
Proof.
  split.
  - apply (is_valid_spec pair_puzzle pair_puzzle_wf).
    intros p q v Hp Hq.
    destruct (solution_consistent pair_puzzle pair_solution pair_puzzle_wf
                pair_puzzle_solution p v Hp) as [_ H].
    by apply H.
  - by vm_compute.
Defined.

(** * Properties of the serializer ([serializer.py]) *)

Lemma matrix_at_fmap {A} (f : Cell → A) (g : Grid) p :
  matrix_at (map (map f) (cells g)) p = f <$> cell_at g p.
Proof.
  unfold matrix_at, cell_at. change (map ?h ?l) with (h <$> l).
  rewrite list_lookup_fmap. destruct (cells g !! p.1) as [row|]; [|done]. cbn.
  change (map ?h ?l) with (h <$> l). by rewrite list_lookup_fmap.
Qed.

Lemma read_matrix_wf {A} (f : Cell → A) (g : Grid) :
  wf_grid g → read_matrix g f = Some (map (map f) (cells g)).
Proof.
  intros (Hlen & Hrow & _). unfold read_matrix. apply mapM_Some_2.
  apply Forall2_same_length_lookup_2.
  { by rewrite length_seq, length_map. }
  intros r x frow [-> Hr]%lookup_seq Hfrow. cbn [Nat.add].
  change (map ?h ?l) with (h <$> l) in Hfrow. rewrite list_lookup_fmap in Hfrow.
  destruct (cells g !! r) as [row|] eqn:Hrw; [|done]. injection Hfrow as <-.
  pose proof (Hrow row (list_elem_of_lookup_2 _ _ _ Hrw)) as Hl.
  apply mapM_Some_2. apply Forall2_same_length_lookup_2.
  { by rewrite length_seq, length_map. }
  intros c y fc [-> Hc]%lookup_seq Hfc. cbn [Nat.add].
  change (map ?h ?l) with (h <$> l) in Hfc. rewrite list_lookup_fmap in Hfc.
  unfold cell_at. cbn. rewrite Hrw. cbn.
  destruct (row !! c) as [cl|]; [|done]. by injection Hfc as <-.
Qed.

Lemma shaped_fmap_cells {A} (f : Cell → A) (g : Grid) :
  wf_grid g →
  length (map (map f) (cells g)) = rows g
  ∧ ∀ row, row ∈ map (map f) (cells g) → length row = cols g.
Proof.
  intros (Hlen & Hrow & _). split; [by rewrite length_map|].
  intros row (row' & -> & Hin)%list_elem_of_fmap. rewrite length_map. by apply Hrow.
Qed.

Lemma set_values_fold values ps :
  ∀ g1,
    (∀ p, p ∈ ps → is_Some (matrix_at values p)) →
    ∃ g', fold_left (λ og p, g ← og; v ← matrix_at values p;
                             Some (upd g p (set_value v))) ps (Some g1) = Some g'
          ∧ rows g' = rows g1 ∧ cols g' = cols g1 ∧ groups g' = groups g1
          ∧ (wf_grid g1 → wf_grid g')
          ∧ ∀ p, cell_at g' p
                 = if decide (p ∈ ps)
                   then set_value (default None (matrix_at values p)) <$> cell_at g1 p
                   else cell_at g1 p.
Proof.
  induction ps as [|p0 ps IH]; intros g1 Hall.
  { exists g1. split_and!; done. }
  cbn [fold_left]. destruct (Hall p0 (list_elem_of_here _ _)) as [v0 Hv0].
  cbn. rewrite Hv0. cbn.
  destruct (IH (upd g1 p0 (set_value v0))) as (g' & -> & R & C & G & W & K).
  { intros p Hp. apply Hall. by right. }
  exists g'. split_and!; try done.
  - intros Hwf. apply W. apply wf_upd; [apply keeps_group_set_value|done].
  - intros p. rewrite K, cell_at_upd.
    destruct (decide (p0 = p)) as [->|Hne].
    + rewrite (decide_True (P := p ∈ p :: ps)) by apply list_elem_of_here.
      rewrite Hv0. cbn. case_decide; [|done].
      by destruct (cell_at g1 p).
    + destruct (decide (p ∈ ps)) as [Hin|Hin].
      * by rewrite decide_True by (by right).
      * rewrite decide_False; [done|]. intros [?|?]%elem_of_cons; congruence.
Qed.

Lemma load_board_wf (g : Grid) (d : PuzzleFile) (values : list (list (option nat))) :
  wf_grid g →
  file_rows d = rows g → file_cols d = cols g →
  file_layout d = map (map group_id) (cells g) →
  (∀ p, in_grid g p → is_Some (matrix_at values p)) →
  ∃ g', load_board d values = Some g'
        ∧ wf_grid g' ∧ rows g' = rows g ∧ cols g' = cols g
        ∧ groups g' = groups (build_cells (rows g) (cols g) (file_layout d))
        ∧ ∀ p, in_grid g p →
               cell_at g' p
               = (λ c, mkCell (default None (matrix_at values p)) [] (group_id c))
                 <$> cell_at g p.
Proof.
  intros Hwf Hr Hc Hl Hvals. unfold load_board, build_cells_checked.
  rewrite Hr, Hc, Hl.
  assert (shaped (rows g) (cols g) (map (map group_id) (cells g))) as Hs
    by (by apply shaped_fmap_cells).
  rewrite (proj2 (forallb_forall _ _)); last first.
  { intros p Hp%list_elem_of_In%elem_of_positions. apply bool_decide_eq_true.
    rewrite matrix_at_fmap. destruct (wf_cell_at g p Hwf Hp) as [c ->]. by eexists. }
  cbn [mbind option_bind]. unfold set_values.
  set (b := build_cells (rows g) (cols g) (map (map group_id) (cells g))).
  change (rows b) with (rows g). change (cols b) with (cols g).
  destruct (set_values_fold values (positions (rows g) (cols g)) b)
    as (g' & Hg' & R & C & G & W & K).
  { intros p Hp%elem_of_positions. by apply Hvals. }
  rewrite Hg'.
  exists g'. split; [done|]. split_and!; [|done..|].
  - apply W. by apply wf_build_cells.
  - intros p Hp. rewrite K. rewrite decide_True by (by apply elem_of_positions).
    unfold b. rewrite build_cells_cell_at. rewrite decide_True by done. cbn.
    destruct (wf_cell_at g p Hwf Hp) as [c Hcell]. rewrite Hcell. cbn.
    unfold set_value. cbn. do 2 f_equal.
    unfold layout_at. fold (matrix_at (map (map group_id) (cells g)) p).
    by rewrite matrix_at_fmap, Hcell.
Qed.

(** X19.  Loading what was saved gives back the puzzle: for a well-formed
    board that has a solution, [save_puzzle] returns, and [load_puzzle] on
    what it wrote returns a well-formed board of the same dimensions whose
    cells hold the same values and group ids, with no candidates; the
    solution board, when there is one of the same dimensions, comes back
    with its values and the group ids of the puzzle.  The difficulty
    [save_puzzle] computes is not written. *)
Theorem load_save_round_trip (g : Grid) (solution : option Grid)
    (sol : pos → nat) :
  wf_grid g → is_solution g sol →
  (∀ s, solution = Some s → wf_grid s ∧ rows s = rows g ∧ cols s = cols g) →
  ∃ d g' solution',
    save_puzzle g solution = Done d
    ∧ load_puzzle d = Done (g', solution')
    ∧ wf_grid g' ∧ rows g' = rows g ∧ cols g' = cols g
    ∧ (∀ p, cell_at g' p = stored_cell <$> cell_at g p)
    ∧ match solution, solution' with
      | None, None => True
      | Some s, Some s' =>
          rows s' = rows g ∧ cols s' = cols g
          ∧ ∀ p, in_grid g p →
                 value_at s' p = value_at s p
                 ∧ group_id <$> cell_at s' p = group_id <$> cell_at g p
      | _, _ => False
      end.
Proof.
  intros Hwf Hsol Hs. unfold save_puzzle.
  rewrite !read_matrix_wf by done.
  destruct (rate_returns g sol Hwf Hsol) as [z ->].
  set (d := mkFile _ _ _ _ _ _). exists d.
  unfold load_puzzle.
  destruct (load_board_wf g d (file_puzzle d) Hwf eq_refl eq_refl eq_refl)
    as (g' & Hg' & W & R & C & _ & K).
  { intros p Hp. cbn. rewrite matrix_at_fmap.
    destruct (wf_cell_at g p Hwf Hp) as [c ->]. by eexists. }
  rewrite Hg'.
  assert (∀ p, cell_at g' p = stored_cell <$> cell_at g p) as Hcells.
  { intros p. destruct (decide (in_grid g p)) as [Hp|Hp].
    - rewrite K by done. cbn. rewrite matrix_at_fmap.
      destruct (wf_cell_at g p Hwf Hp) as [c ->]. done.
    - assert (cell_at g p = None) as ->.
      { destruct (cell_at g p) eqn:E; [|done]. exfalso. apply Hp.
        apply wf_cell_at_in_grid; [done|by eexists]. }
      destruct (cell_at g' p) eqn:E; [|done]. exfalso. apply Hp.
      unfold in_grid. rewrite <- R, <- C.
      apply (wf_cell_at_in_grid g' p W). by eexists. }
  destruct solution as [s|]; cbn -[load_board].
  - destruct (Hs s eq_refl) as (Ws & Rs & Cs).
    destruct (load_board_wf g d (map (map value) (cells s)) Hwf eq_refl eq_refl eq_refl)
      as (s' & Hs' & _ & R' & C' & _ & K').
    { intros p Hp. rewrite matrix_at_fmap.
      destruct (wf_cell_at s p Ws) as [c ->]; [|by eexists].
      unfold in_grid in *. by rewrite Rs, Cs. }
    exists g', (Some s'). rewrite Hs'. split_and!; [done..|].
    intros p Hp. unfold value_at. rewrite (K' p Hp).
    rewrite matrix_at_fmap.
    destruct (wf_cell_at g p Hwf Hp) as [c ->].
    destruct (wf_cell_at s p Ws) as [cs ->].
    { unfold in_grid in *. by rewrite Rs, Cs. }
    done.
  - exists g', None. split_and!; done.
Qed.

Lemma load_save_round_trip_witness :
  ∃ d g', save_puzzle pair_puzzle None = Done d
          ∧ load_puzzle d = Done (g', None)
          ∧ ∀ p, cell_at g' p = stored_cell <$> cell_at pair_puzzle p.
Proof.
  destruct (load_save_round_trip pair_puzzle None pair_solution pair_puzzle_wf
              pair_puzzle_solution) as (d & g' & s' & Hsave & Hload & _ & _ & _ & K & Hm).
  { by intros s. }
  destruct s'; [done|]. by exists d, g'.
Defined.

Lemma set_values_fold_None values ps :
  fold_left (λ og p, g ← og; v ← matrix_at values p;
                     Some (upd g p (set_value v))) ps None = None.
Proof. induction ps as [|p ps IH]; [done|]. apply IH. Qed.

Lemma set_values_fold_missing values ps g1 p :
  p ∈ ps → matrix_at values p = None →
  fold_left (λ og p, g ← og; v ← matrix_at values p;
                     Some (upd g p (set_value v))) ps (Some g1) = None.
Proof.
  revert g1. induction ps as [|p0 ps IH]; intros g1 Hin Hnone;
    [by apply elem_of_nil in Hin|].
  cbn [fold_left]. cbn. destruct (matrix_at values p0) as [v0|] eqn:Hv0; cbn.
  - apply elem_of_cons in Hin as [->|Hin]; [congruence|]. by apply IH.
  - apply set_values_fold_None.
Qed.

(** X20.  [load_puzzle] fails with an [IndexError] exactly when the layout,
    the puzzle or the solution of the file lacks an entry for a cell of the
    [rows] x [cols] board; otherwise it returns a board of those dimensions,
    and a solution board exactly when the file has a solution. *)
Theorem load_puzzle_index_error (d : PuzzleFile) :
  ((∀ p, p.1 < file_rows d → p.2 < file_cols d →
         is_Some (matrix_at (file_layout d) p)
         ∧ is_Some (matrix_at (file_puzzle d) p)
         ∧ ∀ m, file_solution d = Some m → is_Some (matrix_at m p)) →
   ∃ g s, load_puzzle d = Done (g, s)
          ∧ rows g = file_rows d ∧ cols g = file_cols d
          ∧ (is_Some s ↔ is_Some (file_solution d)))
  ∧ ((∃ p, p.1 < file_rows d ∧ p.2 < file_cols d
           ∧ (matrix_at (file_layout d) p = None
              ∨ matrix_at (file_puzzle d) p = None
              ∨ ∃ m, file_solution d = Some m ∧ matrix_at m p = None)) →
     load_puzzle d = IndexError).
Proof.
  assert (Hok : ∀ values,
            (∀ p, p.1 < file_rows d → p.2 < file_cols d →
                  is_Some (matrix_at (file_layout d) p)
                  ∧ is_Some (matrix_at values p)) →
            ∃ g, load_board d values = Some g
                 ∧ rows g = file_rows d ∧ cols g = file_cols d).
  { intros values Hall. unfold load_board, build_cells_checked.
    rewrite (proj2 (forallb_forall _ _)); last first.
    { intros p [H1 H2]%list_elem_of_In%elem_of_positions.
      apply bool_decide_eq_true. by apply Hall. }
    cbn [mbind option_bind]. unfold set_values.
    set (b := build_cells _ _ _).
    change (rows b) with (file_rows d). change (cols b) with (file_cols d).
    destruct (set_values_fold values (positions (file_rows d) (file_cols d)) b)
      as (g' & Hg' & R & C & _).
    { intros p [H1 H2]%elem_of_positions. by apply Hall. }
    by exists g'. }
  assert (Hbad : ∀ values p,
            p.1 < file_rows d → p.2 < file_cols d →
            matrix_at (file_layout d) p = None ∨ matrix_at values p = None →
            load_board d values = None).
  { intros values p H1 H2 Hnone. unfold load_board, build_cells_checked.
    destruct (forallb _ _) eqn:Hcov; [|done].
    rewrite forallb_forall in Hcov.
    assert (p ∈ positions (file_rows d) (file_cols d)) as Hp
      by (by apply elem_of_positions).
    specialize (Hcov p (proj1 (list_elem_of_In _ _) Hp)).
    apply bool_decide_eq_true in Hcov as [x Hx].
    destruct Hnone as [Hl|Hv]; [congruence|].
    cbn [mbind option_bind]. unfold set_values.
    by apply (set_values_fold_missing values _ _ p). }
  split.
  - intros Hall. unfold load_puzzle.
    destruct (Hok (file_puzzle d)) as (g & -> & R & C).
    { intros p H1 H2. destruct (Hall p H1 H2) as (? & ? & _). done. }
    destruct (file_solution d) as [m|] eqn:Hm.
    + destruct (Hok m) as (s & -> & _).
      { intros p H1 H2. destruct (Hall p H1 H2) as (? & _ & Hs). split; [done|].
        by apply Hs. }
      exists g, (Some s). split_and!; [done..|]. split; by eexists.
    + exists g, None. split_and!; [done..|]. split; by intros [? ?].
  - intros (p & H1 & H2 & Hnone). unfold load_puzzle.
    destruct (load_board d (file_puzzle d)) as [g|] eqn:Hg; [|done].
    destruct Hnone as [Hl|[Hv|(m & Hm & Hmv)]].
    + rewrite (Hbad (file_puzzle d) p) in Hg; [done..|by left].
    + rewrite (Hbad (file_puzzle d) p) in Hg; [done..|by right].
    + rewrite Hm. rewrite (Hbad m p); [done..|by right].
Qed.

Lemma load_puzzle_index_error_witness :
  load_puzzle (mkFile 1 2 [(0, 2)] [[0; 0]] [[Some 1]] None) = IndexError.
Proof.
  apply (proj2 (load_puzzle_index_error _)).
  exists (0, 1). cbn. split; [lia|]. split; [lia|]. right. by left.
Defined.

(** * The techniques of the solver, one by one *)

(** X21.  The two level-1 techniques never place a wrong value.  On a
    board that satisfies the invariant of the solver for a solution (the
    solution's value is still a candidate of every empty cell, and no value
    on the board is a candidate of an empty cell it constrains),
    [_naked_single] and [_hidden_single] return without raising
    [Contradiction]; the board they leave satisfies the invariant for the
    same solution, and differs from the one they received only by cells
    filled and candidates removed. *)
Theorem level1_techniques_sound (sol : pos → nat) (st : SolverState) :
  sound sol (grid st) →
  returns (naked_single st)
          (λ r, sound sol (grid r.1) ∧ reduct (grid st) (grid r.1))
  ∧ returns (hidden_single st)
            (λ r, sound sol (grid r.1) ∧ reduct (grid st) (grid r.1)).
Proof.
  intros Hs. split; [by apply naked_single_sound|by apply hidden_single_sound].
Qed.

Lemma level1_techniques_sound_witness :
  returns (naked_single (mkState (init_candidates pair_puzzle) []))
          (λ r, sound pair_solution (grid r.1)).
Proof.
  pose proof (init_candidates_sound pair_solution pair_puzzle pair_puzzle_wf
                pair_puzzle_solution) as Hs.
  destruct (level1_techniques_sound pair_solution
              (mkState (init_candidates pair_puzzle) []) Hs) as [H _].
  eapply returns_weaken; [exact H|]. by intros r [? _].
Defined.

(** X22.  The techniques of levels 2 and 3 only remove candidates, and
    never the solution's.  On a board that satisfies the invariant of the
    solver for a solution, [_neighbor_elimination],
    [_naked_subsets_generalized] and [_hidden_pairs] leave a board that
    satisfies it for the same solution, with the same values, the same
    empty cells, the same groups and dimensions, and candidate sets that
    are subsets of the ones before. *)
Theorem elimination_techniques_sound (sol : pos → nat) (st : SolverState) :
  sound sol (grid st) →
  (sound sol (grid (neighbor_elimination st).1)
   ∧ narrowed (grid st) (grid (neighbor_elimination st).1))
  ∧ (sound sol (grid (naked_subsets_generalized st).1)
     ∧ narrowed (grid st) (grid (naked_subsets_generalized st).1))
  ∧ (sound sol (grid (hidden_pairs st).1)
     ∧ narrowed (grid st) (grid (hidden_pairs st).1)).
Proof.
  intros Hs. split; [|split].
  - by apply neighbor_elimination_sound.
  - by apply naked_subsets_sound.
  - by apply hidden_pairs_sound.
Qed.

Lemma elimination_techniques_sound_witness :
  sound pair_solution
        (grid (neighbor_elimination (mkState (init_candidates pair_puzzle) [])).1).
Proof.
  pose proof (init_candidates_sound pair_solution pair_puzzle pair_puzzle_wf
                pair_puzzle_solution) as Hs.
  exact (proj1 (proj1 (elimination_techniques_sound pair_solution
                         (mkState (init_candidates pair_puzzle) []) Hs))).
Defined.

(** X23.  A technique that reports progress has changed the board.  For
    each of the five techniques, on every board: the number of candidates
    plus the number of empty cells does not grow, and it is strictly
    smaller whenever the technique returns [True].  This is what makes the
    loops of [solve] stop. *)
Theorem techniques_progress (st : SolverState) :
  ensures (naked_single st) (progress (measure (grid st)))
  ∧ ensures (hidden_single st) (progress (measure (grid st)))
  ∧ progress (measure (grid st)) (neighbor_elimination st)
  ∧ progress (measure (grid st)) (naked_subsets_generalized st)
  ∧ progress (measure (grid st)) (hidden_pairs st).
Proof.
  split; [|split; [|split; [|split]]].
  - by apply naked_single_progress.
  - by apply hidden_single_progress.
  - by apply neighbor_elimination_progress.
  - by apply naked_subsets_progress.
  - by apply hidden_pairs_progress.
Qed.

(** * More on the generator *)

Lemma fill_loop_raise rec p :
  (∀ s, match rec s with
        | Generator.FillRaise s' => 100 < Generator.early_failures s'
        | _ => True
        end) →
  ∀ vs s,
    match Generator.fill_loop rec p vs s with
    | Generator.FillRaise s' => 100 < Generator.early_failures s'
    | _ => True
    end.
Proof.
  intros Hrec. induction vs as [|v vs IH]; intros s; [done|].
  cbn [Generator.fill_loop].
  match goal with |- context [rec ?s1] => pose proof (Hrec s1) as H1;
    destruct (rec s1) as [[|] s2|s2|] end; [done| |done..].
  apply IH.
Qed.

Lemma fill_grid_recursive_raise fuel :
  ∀ s, match Generator.fill_grid_recursive fuel s with
       | Generator.FillRaise s' => 100 < Generator.early_failures s'
       | _ => True
       end.
Proof.
  induction fuel as [|fuel IH]; intros s; [done|].
  cbn [Generator.fill_grid_recursive].
  destruct (find_best_empty_cell _) as [p|]; [|done].
  case_bool_decide.
  - cbn [Generator.early_failures].
    destruct (Nat.ltb_spec 100 (S (Generator.early_failures s))); [|done].
    cbn. lia.
  - destruct (shuffle _ _) as [vs t']. by apply fill_loop_raise.
Qed.

(** X24.  [_fill_grid_recursive] on a well-formed board with consistent
    values ends in one of three ways.  It returns [True] and the board is
    the board received with its empty cells filled, complete and
    consistent.  It returns [False] and the board is exactly the board
    received: every value tried was taken back.  Or it raises
    [FillTimeout], and then more than 100 dead ends were counted. *)
Theorem fill_grid_recursive_outcomes (fuel : nat) (s : Generator.FillState) :
  wf_grid (Generator.f_grid s) → consistent (Generator.f_grid s) →
  num_empty (Generator.f_grid s) < fuel →
  match Generator.fill_grid_recursive fuel s with
  | Generator.FillRet true s' =>
      is_complete (Generator.f_grid s') = true
      ∧ consistent (Generator.f_grid s')
      ∧ filled_from (Generator.f_grid s) (Generator.f_grid s')
  | Generator.FillRet false s' => Generator.f_grid s' = Generator.f_grid s
  | Generator.FillRaise s' => 100 < Generator.early_failures s'
  | Generator.FillFuel => False
  end.
Proof.
  intros Hwf Hcon Hfuel.
  pose proof (fill_grid_recursive_post fuel s Hwf Hcon Hfuel) as H1.
  pose proof (fill_grid_recursive_from fuel s Hwf Hcon Hfuel) as H2.
  pose proof (fill_grid_recursive_raise fuel s) as H3.
  destruct (Generator.fill_grid_recursive fuel s) as [[|] s'|s'|];
    cbn in H1; [|done..].
  destruct H1 as (_ & ? & ? & _). done.
Qed.

Lemma fill_grid_recursive_outcomes_witness :
  match Generator.fill_grid_recursive 3 (Generator.mkFill pair_board 0 []) with
  | Generator.FillRet true s' => is_complete (Generator.f_grid s') = true
  | _ => False
  end.
Proof.
  assert (num_empty pair_board < 3) as Hfuel by (vm_compute; lia).
  pose proof (fill_grid_recursive_outcomes 3 (Generator.mkFill pair_board 0 [])
                pair_board_wf (build_cells_consistent _ _ _) Hfuel) as H.
  destruct (Generator.fill_grid_recursive 3 (Generator.mkFill pair_board 0 []))
    as [[|] s'|s'|] eqn:E.
  - by destruct H.
  - by vm_compute in E.
  - by vm_compute in E.
  - done.
Defined.

Lemma rate_solved_at g level :
  rate g = Ret level → level ≠ 4%Z →
  ∃ r, solve (clone g) level = Ret r ∧ solved r = true.
Proof.
  unfold rate. intros Hrate Hne.
  apply rate_levels_cons in Hrate as (r1 & H1 & [[S1 ->]|[S1 Hrate]]);
    [by exists r1|].
  apply rate_levels_cons in Hrate as (r2 & H2 & [[S2 ->]|[S2 Hrate]]);
    [by exists r2|].
  apply rate_levels_cons in Hrate as (r3 & H3 & [[S3 ->]|[S3 Hrate]]);
    [by exists r3|].
  apply rate_levels_cons in Hrate as (r4 & H4 & [[S4 ->]|[S4 Hrate]]); [done|].
  cbn in Hrate. by injection Hrate as <-.
Qed.

(** X25.  A puzzle [generate] returns passes the checks of the solver:
    [has_unique_solution] answers [True] on it, and, unless the target
    difficulty is 4, [solve] with the target difficulty as ceiling solves it
    completely and ends on the solution returned with the puzzle. *)
Theorem generate_puzzle_passes_checks (cfg : Generator.Config) (t : tape)
    (g solution : Grid) :
  Generator.generate cfg t = Ret (Some (g, solution)) →
  has_unique_solution g = Ret true
  ∧ (Generator.cfg_difficulty cfg ≠ 4%Z →
     ∃ r, solve g (Generator.cfg_difficulty cfg) = Ret r
          ∧ solved r = true
          ∧ ∀ p, in_grid g p → value_at (result_grid r) p = value_at solution p).
Proof.
  intros Hgen.
  pose proof (attempts_match_difficulty _ _ _ _ _ Hgen) as Hrate.
  unfold Generator.generate in Hgen.
  apply attempts_Some in Hgen as (k & t1 & t2 & _ & _ & Ha).
  apply attempt_puzzle in Ha
    as (Rs & Cs & Ws & Hcomp & Hsols & Wg & (Rg & Cg & _) & Hsol & Hun).
  split.
  - destruct (has_unique_solution_spec g Wg) as (b & -> & Hb).
    { by eapply solution_consistent. }
    f_equal. by apply Hb.
  - intros Hne. destruct (rate_solved_at g _ Hrate Hne) as (r & Hr & Hsolved).
    rewrite clone_wf in Hr by done. exists r. split_and!; [done..|].
    destruct (solve_result _ g (Generator.cfg_difficulty cfg) Wg Hsol)
      as (r' & Hr' & (Wr & (Hval & _) & _) & (Rr & Cr & _) & Hsv).
    rewrite Hr in Hr'. injection Hr' as <-.
    destruct (init_candidates_spec g Wg) as (_ & Ri & Ci & _).
    intros p Hp. rewrite Hsv in Hsolved. rewrite is_complete_true in Hsolved.
    destruct (wf_cell_at (result_grid r) p Wr) as [c Hc].
    { unfold in_grid in *. by rewrite Rr, Cr, Ri, Ci. }
    specialize (Hsolved p c Hc).
    assert (∃ v, value_at (result_grid r) p = Some v) as [v Hv].
    { unfold value_at. rewrite Hc. cbn. destruct (value c); [by eexists|done]. }
    rewrite Hv. rewrite <- (Hval p v Hv).
    rewrite is_complete_true in Hcomp.
    destruct (wf_cell_at solution p Ws) as [cs Hcs].
    { unfold in_grid in *. by rewrite Rg, Cg. }
    specialize (Hcomp p cs Hcs). unfold value_at. rewrite Hcs. cbn.
    by destruct (value cs).
Qed.

Lemma generate_puzzle_passes_checks_witness :
  match Generator.generate (Generator.mkConfig 2 2 1 1%Q 5 2) [] with
  | Ret (Some (g, _)) => has_unique_solution g = Ret true
  | _ => False
  end.
Proof.
  destruct (Generator.generate (Generator.mkConfig 2 2 1 1%Q 5 2) [])
    as [[[g sol]|]| |] eqn:E.
  - exact (proj1 (generate_puzzle_passes_checks _ _ g sol E)).
  - by vm_compute in E.
  - by vm_compute in E.
  - by vm_compute in E.
Defined.

(** ** The groups of a generated layout are connected *)

Lemma orth_adjacent_sym p q : orth_adjacent p q → orth_adjacent q p.
Proof. unfold orth_adjacent. lia. Qed.

Lemma layout_at_initial nrows mcols p :
  p ∈ positions nrows mcols →
  layout_at (GroupGenerator.initial_layout nrows mcols) p = p.1 * mcols + p.2.
Proof.
  intros [Hr Hc]%elem_of_positions.
  unfold layout_at, GroupGenerator.initial_layout.
  change (map ?f ?x) with (f <$> x).
  rewrite list_lookup_fmap, lookup_seq_lt by done. cbn.
  change (map ?f ?x) with (f <$> x).
  by rewrite list_lookup_fmap, lookup_seq_lt by done.
Qed.

Lemma layout_at_merge nrows mcols l a b p :
  shaped nrows mcols l → p ∈ positions nrows mcols →
  layout_at (GroupGenerator.merge_groups l a b) p
  = if layout_at l p =? b then a else layout_at l p.
Proof.
  intros [Hlen Hrow] [Hr Hc]%elem_of_positions.
  unfold layout_at, GroupGenerator.merge_groups.
  change (map ?f ?x) with (f <$> x). rewrite list_lookup_fmap.
  destruct (lookup_lt_is_Some_2 l p.1) as [row Hrw]; [lia|]. rewrite Hrw. cbn.
  change (map ?f ?x) with (f <$> x). rewrite list_lookup_fmap.
  pose proof (Hrow row (list_elem_of_lookup_2 _ _ _ Hrw)) as Hl.
  destruct (lookup_lt_is_Some_2 row p.2) as [x Hx]; [lia|]. by rewrite Hx.
Qed.

Lemma connected_initial nrows mcols gid :
  connected_group nrows mcols (GroupGenerator.initial_layout nrows mcols) gid.
Proof.
  intros p q Hp Hq Hpg Hqg.
  rewrite layout_at_initial in Hpg, Hqg by done.
  apply elem_of_positions in Hp as [? ?]. apply elem_of_positions in Hq as [? ?].
  assert (p = q) as ->; [|apply rtc_refl].
  destruct p as [r c], q as [r' c']. cbn in *.
  assert (r = r') by nia. subst. f_equal. lia.
Qed.

Lemma group_step_merge nrows mcols l a b gid p q :
  shaped nrows mcols l → a ≠ b → gid ≠ b →
  group_step nrows mcols l gid p q →
  group_step nrows mcols (GroupGenerator.merge_groups l a b) gid p q.
Proof.
  intros Hs Hab Hg (Hadj & Hp & Hq & Hpg & Hqg).
  split_and!; [done..| |]; rewrite (layout_at_merge nrows mcols) by done.
  - rewrite Hpg. by destruct (Nat.eqb_spec gid b).
  - rewrite Hqg. by destruct (Nat.eqb_spec gid b).
Qed.

Lemma group_step_merged nrows mcols l a b p q :
  shaped nrows mcols l →
  group_step nrows mcols l b p q →
  group_step nrows mcols (GroupGenerator.merge_groups l a b) a p q.
Proof.
  intros Hs (Hadj & Hp & Hq & Hpg & Hqg).
  split_and!; [done..| |]; rewrite (layout_at_merge nrows mcols) by done.
  - rewrite Hpg. by rewrite Nat.eqb_refl.
  - rewrite Hqg. by rewrite Nat.eqb_refl.
Qed.

Lemma connected_merge nrows mcols l a b pa pb :
  shaped nrows mcols l → a ≠ b →
  pa ∈ positions nrows mcols → pb ∈ positions nrows mcols →
  orth_adjacent pa pb → layout_at l pa = a → layout_at l pb = b →
  (∀ gid, connected_group nrows mcols l gid) →
  ∀ gid, connected_group nrows mcols (GroupGenerator.merge_groups l a b) gid.
Proof.
  intros Hs Hab Hpa Hpb Hadj Ha Hb Hconn gid p q Hp Hq.
  rewrite !(layout_at_merge nrows mcols) by done.
  assert (Hold : ∀ g x y, g ≠ b →
            rtc (group_step nrows mcols l g) x y →
            rtc (group_step nrows mcols (GroupGenerator.merge_groups l a b) g) x y).
  { intros g x y Hg. apply rtc_subrel. intros u w. by apply group_step_merge. }
  assert (Holdb : ∀ x y,
            rtc (group_step nrows mcols l b) x y →
            rtc (group_step nrows mcols (GroupGenerator.merge_groups l a b) a) x y).
  { intros x y. apply rtc_subrel. intros u w. by apply group_step_merged. }
  assert (Hbridge : group_step nrows mcols (GroupGenerator.merge_groups l a b) a pa pb).
  { split_and!; [done..| |]; rewrite (layout_at_merge nrows mcols) by done.
    - rewrite Ha. by destruct (Nat.eqb_spec a b).
    - rewrite Hb. by rewrite Nat.eqb_refl. }
  assert (Hbridge' : group_step nrows mcols (GroupGenerator.merge_groups l a b) a pb pa).
  { destruct Hbridge as (? & ? & ? & ? & ?). split_and!; try done.
    by apply orth_adjacent_sym. }
  destruct (Nat.eqb_spec (layout_at l p) b) as [Hpb'|Hpb'],
           (Nat.eqb_spec (layout_at l q) b) as [Hqb'|Hqb']; intros Hpg Hqg;
    subst gid.
  - apply Holdb. by apply Hconn.
  - etrans; [apply Holdb, (Hconn b p pb); done|].
    etrans; [apply rtc_once, Hbridge'|].
    apply Hold; [done|]. by apply Hconn.
  - rewrite <- Hqg.
    etrans; [apply Hold; [done|]; apply (Hconn a p pa); done|].
    etrans; [apply rtc_once, Hbridge|].
    apply Holdb. by apply Hconn.
  - apply Hold; [done|]. by apply Hconn.
Qed.

Lemma all_pairs_adjacent nrows mcols pr :
  pr ∈ GroupGenerator.all_pairs nrows mcols → orth_adjacent pr.1 pr.2.
Proof.
  unfold GroupGenerator.all_pairs, orth_adjacent.
  rewrite elem_of_app, !list_elem_of_bind.
  intros [(r & (c & ->%list_elem_of_singleton & _)%list_elem_of_bind & _)
         |(r & (c & ->%list_elem_of_singleton & _)%list_elem_of_bind & _)];
    cbn; lia.
Qed.

Lemma connected_merge_pair nrows mcols max_size st pr :
  pr ∈ GroupGenerator.all_pairs nrows mcols →
  shaped nrows mcols st.1 ∧ (∀ gid, connected_group nrows mcols st.1 gid) →
  shaped nrows mcols (GroupGenerator.merge_pair max_size st pr).1
  ∧ ∀ gid, connected_group nrows mcols
             (GroupGenerator.merge_pair max_size st pr).1 gid.
Proof.
  intros Hpr [Hs Hconn]. split; [by apply shaped_merge_pair|].
  pose proof (all_pairs_adjacent _ _ _ Hpr) as Hadj.
  apply all_pairs_in_grid in Hpr as [H1 H2].
  apply elem_of_positions in H1, H2.
  destruct st as [l sizes]. cbn [fst] in *. unfold GroupGenerator.merge_pair.
  destruct (Nat.eqb_spec (layout_at l pr.1) (layout_at l pr.2)) as [|Hne]; [done|].
  destruct (_ <=? max_size); [|done].
  destruct (_ <? _); cbn [fst].
  - apply (connected_merge nrows mcols l (layout_at l pr.2) (layout_at l pr.1)
             pr.2 pr.1 Hs);
      [intros Heq; by apply Hne|done|done|by apply orth_adjacent_sym|done..].
  - by apply (connected_merge nrows mcols l (layout_at l pr.1) (layout_at l pr.2)
                pr.1 pr.2 Hs).
Qed.

Lemma connected_repair_group nrows mcols st gid0 :
  shaped nrows mcols st.1 ∧ (∀ gid, connected_group nrows mcols st.1 gid) →
  shaped nrows mcols (GroupGenerator.repair_group st gid0).1
  ∧ ∀ gid, connected_group nrows mcols (GroupGenerator.repair_group st gid0).1 gid.
Proof.
  intros [Hs Hconn]. split; [by apply shaped_repair_group|].
  destruct st as [l sizes]. cbn [fst] in *. unfold GroupGenerator.repair_group.
  destruct (GroupGenerator.min_by _ _) as [nb|] eqn:Hmin; [|done].
  unfold GroupGenerator.min_by in Hmin.
  apply min_by_elem in Hmin as [?|Hnb]; [done|].
  apply (elem_of_get_adjacent_groups nrows mcols) in Hnb
    as (Hne & p & q & Hp & Hq & Hadj & Hpg & Hqx); [|done].
  cbn [fst].
  apply (connected_merge nrows mcols l nb gid0 q p Hs);
    [done|done|done|by apply orth_adjacent_sym|done..].
Qed.

Lemma connected_repair nrows mcols budget min_size st l :
  shaped nrows mcols st.1 ∧ (∀ gid, connected_group nrows mcols st.1 gid) →
  GroupGenerator.repair budget min_size st = Some l →
  ∀ gid, connected_group nrows mcols l gid.
Proof.
  revert st. induction budget as [|budget IH]; intros st Hinv;
    cbn [GroupGenerator.repair].
  - destruct (GroupGenerator.small_groups _ _); intros Heq; [|discriminate Heq].
    injection Heq as <-. apply Hinv.
  - destruct (GroupGenerator.small_groups _ _) as [|x xs].
    + intros Heq. injection Heq as <-. apply Hinv.
    + apply IH.
      apply (fold_left_inv GroupGenerator.repair_group
               (λ st, shaped nrows mcols st.1
                      ∧ ∀ gid, connected_group nrows mcols st.1 gid)); [|done].
      intros st0 gid0 _. apply connected_repair_group.
Qed.

(** X26.  Every group of a layout [generate] returns is orthogonally
    connected: any two cells that carry the same id are joined by a path
    of up, down, left and right steps through cells carrying that id. *)
Theorem generate_groups_connected (min_size max_size nrows mcols : nat)
    (t t' : tape) (l : GroupGenerator.layout) (gid : nat) (p q : pos) :
  GroupGenerator.generate min_size max_size nrows mcols t = (Some l, t') →
  p ∈ positions nrows mcols → q ∈ positions nrows mcols →
  layout_at l p = gid → layout_at l q = gid →
  rtc (group_step nrows mcols l gid) p q.
Proof.
  unfold GroupGenerator.generate.
  pose proof (shuffle_Permutation (GroupGenerator.all_pairs nrows mcols) t) as Hperm.
  destruct (shuffle (GroupGenerator.all_pairs nrows mcols) t) as [pairs t1].
  cbn [fst] in Hperm. intros Heq. injection Heq as Hrep _.
  eapply (connected_repair nrows mcols); [|done].
  apply (fold_left_inv (GroupGenerator.merge_pair max_size)
           (λ st, shaped nrows mcols st.1
                  ∧ ∀ gid, connected_group nrows mcols st.1 gid)).
  - intros st pr Hpr. apply connected_merge_pair. by rewrite <- Hperm.
  - split; [apply shaped_initial|]. intros gid0. apply connected_initial.
Qed.

Lemma generate_groups_connected_witness :
  match GroupGenerator.generate 2 5 1 2 [] with
  | (Some l, _) => rtc (group_step 1 2 l (layout_at l (0, 0))) (0, 0) (0, 1)
  | _ => False
  end.
Proof.
  destruct (GroupGenerator.generate 2 5 1 2 []) as [[l|] t'] eqn:E.
  - apply (generate_groups_connected 2 5 1 2 [] t' l _ (0, 0) (0, 1) E).
    + apply elem_of_positions. cbn. lia.
    + apply elem_of_positions. cbn. lia.
    + done.
    + vm_compute in E. by injection E as <- <-.
  - by vm_compute in E.
Defined.

(** ** [_is_connected] *)

Lemma elem_of_bfs_neighbors p q : q ∈ bfs_neighbors p ↔ orth_adjacent p q.
Proof.
  unfold bfs_neighbors, orth_adjacent. destruct p as [r c], q as [r' c'].
  cbn [fst snd]. rewrite !elem_of_app.
  destruct (Nat.ltb_spec 0 r), (Nat.ltb_spec 0 c);
    rewrite ?list_elem_of_singleton, ?elem_of_nil;
    (split; [intros Hq; repeat destruct Hq as [Hq|Hq]; try done;
              injection Hq as -> ->; lia
            |intros Hadj;
             assert (r' = r - 1 ∧ c' = c ∧ 0 < r ∨ r' = r + 1 ∧ c' = c
                     ∨ r' = r ∧ c' = c - 1 ∧ 0 < c ∨ r' = r ∧ c' = c + 1)
               as [(-> & -> & ?)|[[-> ->]|[(-> & -> & ?)|[-> ->]]]] by lia;
             try lia; tauto]).
Qed.

Lemma length_bfs_neighbors p : length (bfs_neighbors p) ≤ 4.
Proof.
  unfold bfs_neighbors. rewrite !length_app.
  destruct (0 <? p.1), (0 <? p.2); cbn; lia.
Qed.

Lemma NoDup_subseteq_length (l k : list pos) :
  NoDup l → l ⊆ k → length l ≤ length (remove_dups k).
Proof.
  intros Hnd Hsub. apply submseteq_length, NoDup_submseteq; [done|].
  intros x Hx. apply elem_of_remove_dups. by apply Hsub.
Qed.

(** The loop ends within the fuel, and what it returns is the set of the
    cells that can be reached. *)
Lemma bfs_loop_spec cells first :
  first ∈ cells →
  ∀ fuel visited queue,
    NoDup visited →
    (∀ p, p ∈ visited → rtc (cell_step cells) first p) →
    (∀ p, p ∈ queue → rtc (cell_step cells) first p) →
    first ∈ visited ∨ first ∈ queue →
    (∀ v n, v ∈ visited → orth_adjacent v n → n ∈ cells →
            n ∈ visited ∨ n ∈ queue) →
    4 * (length (remove_dups cells) - length visited) + length queue < fuel →
    ∃ result, bfs_loop fuel cells visited queue = Some result
              ∧ NoDup result
              ∧ ∀ p, p ∈ result ↔ rtc (cell_step cells) first p.
Proof.
  intros Hfirst.
  assert (Hcells : ∀ p, rtc (cell_step cells) first p → p ∈ cells).
  { intros p Hp. apply rtc_inv_r in Hp as [<-|(y & _ & _ & _ & ?)]; done. }
  induction fuel as [|fuel IH]; intros visited queue Hnd Hv Hq Hstart Hclosed Hfuel;
    [lia|].
  cbn [bfs_loop]. destruct queue as [|current rest].
  { exists visited. split_and!; [done..|]. intros p. split; [apply Hv|].
    destruct Hstart as [Hstart|?%elem_of_nil]; [|done].
    assert (Hcl : ∀ x y, rtc (cell_step cells) x y → x ∈ visited → y ∈ visited).
    { intros x y Hxy. induction Hxy as [|x y z Hxy Hyz IHp]; [done|].
      intros Hx. apply IHp. destruct Hxy as (Hadj & _ & Hy).
      destruct (Hclosed x y Hx Hadj Hy) as [?|?%elem_of_nil]; done. }
    intros Hp. by apply (Hcl first p). }
  case_bool_decide as Hcur.
  - apply IH; try done.
    + intros p Hp. apply Hq. by right.
    + destruct Hstart as [?|[->|?]%elem_of_cons]; auto.
    + intros v n Hvin Hadj Hn.
      destruct (Hclosed v n Hvin Hadj Hn) as [?|[->|?]%elem_of_cons]; auto.
    + cbn [length] in Hfuel. lia.
  - assert (rtc (cell_step cells) first current) as Hreach
      by (apply Hq; apply list_elem_of_here).
    assert (current ∈ cells) as Hcin by (by apply Hcells).
    assert (NoDup (visited ++ [current])) as Hnd'.
    { apply NoDup_app. split_and!; [done| |apply NoDup_singleton].
      intros x Hx ->%list_elem_of_singleton. done. }
    assert (length (visited ++ [current]) ≤ length (remove_dups cells)) as Hle.
    { apply NoDup_subseteq_length; [done|].
      intros x [Hx| ->%list_elem_of_singleton]%elem_of_app; [|done].
      by apply Hcells, Hv. }
    apply IH; try done.
    + intros p [Hp| ->%list_elem_of_singleton]%elem_of_app; [by apply Hv|done].
    + intros p [Hp|Hp]%elem_of_app; [apply Hq; by right|].
      apply list_elem_of_filter in Hp as [[Hpc _] Hadj%elem_of_bfs_neighbors].
      eapply rtc_r; [done|]. by split_and!.
    + destruct Hstart as [?|[->|?]%elem_of_cons].
      * left. apply elem_of_app. by left.
      * left. apply elem_of_app. right. by apply list_elem_of_singleton.
      * right. apply elem_of_app. by left.
    + intros v n [Hvin| ->%list_elem_of_singleton]%elem_of_app Hadj Hn.
      * destruct (Hclosed v n Hvin Hadj Hn) as [?|[->|?]%elem_of_cons].
        -- left. apply elem_of_app. by left.
        -- left. apply elem_of_app. right. by apply list_elem_of_singleton.
        -- right. apply elem_of_app. by left.
      * destruct (decide (n ∈ visited ++ [current])) as [|Hnv]; [by left|].
        right. apply elem_of_app. right. apply list_elem_of_filter.
        split; [done|]. by apply elem_of_bfs_neighbors.
    + rewrite !length_app in *. cbn [length] in *.
      pose proof (length_filter (λ n, n ∈ cells ∧ n ∉ visited ++ [current])
                    (bfs_neighbors current)) as Hf.
      pose proof (length_bfs_neighbors current). lia.
Qed.

(** X27.  [_is_connected] returns [True] on the empty list; on a list
    without repetitions it returns [True] exactly when every cell of the
    list can be reached from the first one by up, down, left and right
    steps through cells of the list; and on a list in which a cell occurs
    twice it returns [False]. *)
Theorem is_connected_spec (cells : list pos) :
  is_connected [] = Some true
  ∧ ∀ first rest, cells = first :: rest →
      ∃ b, is_connected cells = Some b
           ∧ (b = true
              ↔ NoDup cells ∧ ∀ p, p ∈ cells → rtc (cell_step cells) first p).
Proof.
  split; [done|]. intros first rest ->.
  assert (first ∈ first :: rest) as Hfirst by apply list_elem_of_here.
  unfold is_connected.
  destruct (bfs_loop_spec (first :: rest) first Hfirst
              (4 * length (first :: rest) + 2) [] [first])
    as (visited & -> & Hnd & Hreach).
  - constructor.
  - by intros p ?%elem_of_nil.
  - intros p ->%list_elem_of_singleton. apply rtc_refl.
  - right. apply list_elem_of_here.
  - by intros v n ?%elem_of_nil.
  - pose proof (NoDup_subseteq_length (remove_dups (first :: rest)) (first :: rest)
                  (NoDup_remove_dups _)) as Hle.
    cbn [length] in *. 
    assert (length (remove_dups (first :: rest)) ≤ S (length rest)) as Hle'.
    { apply (submseteq_length (remove_dups (first :: rest)) (first :: rest)).
      apply NoDup_submseteq; [apply NoDup_remove_dups|].
      intros x Hx. by apply elem_of_remove_dups. }
    lia.
  - cbn. eexists. split; [done|]. rewrite Nat.eqb_eq.
    assert (visited ⊆+ first :: rest) as Hsub.
    { apply NoDup_submseteq; [done|]. intros p Hp%Hreach.
      apply rtc_inv_r in Hp as [<-|(y & _ & _ & _ & ?)]; done. }
    split.
    + intros Hlen.
      assert (visited ≡ₚ first :: rest) as Hperm
        by (apply submseteq_length_Permutation; [done|cbn [length]; lia]).
      split; [by rewrite <- Hperm|]. intros p Hp. apply Hreach. by rewrite Hperm.
    + intros [Hndc Hall].
      assert (first :: rest ⊆+ visited) as Hsup.
      { apply NoDup_submseteq; [done|]. intros p Hp. by apply Hreach, Hall. }
      apply submseteq_length in Hsub, Hsup. cbn [length] in *. lia.
Qed.

Lemma is_connected_spec_witness :
  ∃ b, is_connected [(0, 0); (0, 1)] = Some b
       ∧ (b = true ↔ NoDup [(0, 0); (0, 1)]
                     ∧ ∀ p, p ∈ [(0, 0); (0, 1)] →
                            rtc (cell_step [(0, 0); (0, 1)]) (0, 0) p).
Proof.
  exact (proj2 (is_connected_spec [(0, 0); (0, 1)]) (0, 0) [(0, 1)] eq_refl).
Defined.

(** ** Generated groups pass [_is_connected] *)

Lemma is_connected_reachable (first : pos) (rest : list pos) :
  NoDup (first :: rest) →
  (∀ p, p ∈ first :: rest → rtc (cell_step (first :: rest)) first p) →
  is_connected (first :: rest) = Some true.
Proof.
  intros Hnd Hall.
  assert (first ∈ first :: rest) as Hfirst by apply list_elem_of_here.
  unfold is_connected.
  destruct (bfs_loop_spec (first :: rest) first Hfirst
              (4 * length (first :: rest) + 2) [] [first])
    as (visited & -> & Hndv & Hreach).
  - constructor.
  - by intros p ?%elem_of_nil.
  - intros p ->%list_elem_of_singleton. apply rtc_refl.
  - right. apply list_elem_of_here.
  - by intros v n ?%elem_of_nil.
  - assert (length (remove_dups (first :: rest)) ≤ length (first :: rest)) as Hle.
    { apply submseteq_length, NoDup_submseteq; [apply NoDup_remove_dups|].
      intros x Hx. by apply elem_of_remove_dups. }
    cbn [length] in *. lia.
  - cbn [mbind option_bind]. f_equal. apply Nat.eqb_eq.
    assert (visited ⊆+ first :: rest) as Hsub.
    { apply NoDup_submseteq; [done|]. intros p Hp%Hreach.
      apply rtc_inv_r in Hp as [<-|(y & _ & _ & _ & ?)]; done. }
    assert (first :: rest ⊆+ visited) as Hsup.
    { apply NoDup_submseteq; [done|]. intros p Hp. by apply Hreach, Hall. }
    apply submseteq_length in Hsub, Hsup. lia.
Qed.

(** X28.  Every group of a layout [generate] returns passes
    [_is_connected]: for every id, the check returns [True] on the list of
    the cells carrying that id, collected row by row. *)
Theorem generate_groups_pass_is_connected
    (min_size max_size nrows mcols : nat) (t t' : tape)
    (l : GroupGenerator.layout) (gid : nat) :
  GroupGenerator.generate min_size max_size nrows mcols t = (Some l, t') →
  is_connected (cells_of_group l gid) = Some true.
Proof.
  intros Hgen. pose proof (shaped_generate _ _ _ _ _ _ _ Hgen) as Hshape.
  assert (∀ g, connected_group nrows mcols l g) as Hconn.
  { revert Hgen. unfold GroupGenerator.generate.
    pose proof (shuffle_Permutation (GroupGenerator.all_pairs nrows mcols) t)
      as Hperm.
    destruct (shuffle (GroupGenerator.all_pairs nrows mcols) t) as [pairs t1].
    cbn [fst] in Hperm. intros Heq. injection Heq as Hrep _.
    eapply (connected_repair nrows mcols); [|done].
    apply (fold_left_inv (GroupGenerator.merge_pair max_size)
             (λ st, shaped nrows mcols st.1
                    ∧ ∀ g, connected_group nrows mcols st.1 g)).
    - intros st pr Hpr. apply connected_merge_pair. by rewrite <- Hperm.
    - split; [apply shaped_initial|]. intros g. apply connected_initial. }
  unfold cells_of_group. rewrite (shaped_positions nrows mcols l Hshape).
  destruct (filter _ _) as [|first rest] eqn:Hcells; [done|].
  assert (∀ p, p ∈ first :: rest
               ↔ layout_at l p = gid ∧ p ∈ positions nrows mcols) as Hin.
  { intros p. rewrite <- Hcells. by rewrite list_elem_of_filter. }
  apply is_connected_reachable.
  - rewrite <- Hcells. apply NoDup_filter, positions_NoDup.
  - intros p Hp. apply Hin in Hp as [Hpg Hpp].
    destruct (proj1 (Hin first) (list_elem_of_here _ _)) as [Hfg Hfp].
    eapply rtc_subrel; [|exact (Hconn gid first p Hfp Hpp Hfg Hpg)].
    intros x y (Hadj & Hx & Hy & Hxg & Hyg). split; [done|].
    split; apply Hin; done.
Qed.

Lemma generate_groups_pass_is_connected_witness :
  match GroupGenerator.generate 2 5 1 2 [] with
  | (Some l, _) => is_connected (cells_of_group l (layout_at l (0, 0))) = Some true
  | _ => False
  end.
Proof.
  destruct (GroupGenerator.generate 2 5 1 2 []) as [[l|] t'] eqn:E.
  - exact (generate_groups_pass_is_connected 2 5 1 2 [] t' l _ E).
  - vm_compute in E. discriminate E.
Defined.

(** ** The techniques a run records *)

Section techniques.
Variable P : string → Prop.

Lemma recorded_tech_add name st :
  P name → recorded P st → recorded P (tech_add name st).
Proof.
  unfold recorded, tech_add. cbn [techniques_used]. intros Hn Hst.
  case_bool_decide; [done|]. apply Forall_app. split; [done|]. by constructor.
Qed.

Lemma foldM_ret_inv {A S} (body : S → A → outcome S) (I : S → Prop) l s r :
  (∀ s x s', I s → body s x = Ret s' → I s') → I s →
  foldM body s l = Ret r → I r.
Proof.
  intros Hbody. revert s. induction l as [|x l IH]; intros s Hs; cbn [foldM].
  - by intros [= <-].
  - intros (s' & Hs' & Hr)%bind_Ret_inv. eapply IH; [|done]. by eapply Hbody.
Qed.

Lemma naked_single_recorded st r :
  P "naked_single" → recorded P st → naked_single st = Ret r → recorded P r.1.
Proof.
  intros Hn Hst. unfold naked_single.
  apply (foldM_ret_inv naked_single_step (λ acc, recorded P acc.1)); [|done].
  intros acc p acc' Hacc. unfold naked_single_step.
  destruct (_ && _).
  - intros (g' & _ & [= <-])%bind_Ret_inv. cbn [fst].
    by apply recorded_tech_add.
  - by intros [= <-].
Qed.

Lemma hidden_single_recorded st r :
  P "hidden_single" → recorded P st → hidden_single st = Ret r → recorded P r.1.
Proof.
  intros Hn Hst. unfold hidden_single.
  apply (foldM_ret_inv hidden_single_group (λ acc, recorded P acc.1)); [|done].
  intros acc G acc' Hacc. unfold hidden_single_group.
  apply (foldM_ret_inv (hidden_single_value G) (λ acc, recorded P acc.1)); [|done].
  intros acc0 v acc1 Hacc0. unfold hidden_single_value.
  destruct (holders _ _ _) as [|q qs].
  - by intros [= <-].
  - intros (g' & _ & [= <-])%bind_Ret_inv. cbn [fst].
    by apply recorded_tech_add.
Qed.

Lemma neighbor_elimination_recorded st :
  P "neighbor_elimination" → recorded P st → recorded P (neighbor_elimination st).1.
Proof.
  intros Hn Hst. unfold neighbor_elimination.
  apply (fold_left_inv neighbor_elimination_group (λ acc, recorded P acc.1));
    [|done].
  intros acc G _ Hacc. unfold neighbor_elimination_group.
  apply (fold_left_inv neighbor_elimination_value (λ acc, recorded P acc.1));
    [|done].
  intros acc0 entry _ Hacc0. unfold neighbor_elimination_value.
  destruct (_ <? _); [|done].
  apply (fold_left_inv (eliminate entry.1) (λ acc, recorded P acc.1)); [|done].
  intros acc1 q _ Hacc1. unfold eliminate.
  destruct (_ && _); [|done]. cbn [fst]. by apply recorded_tech_add.
Qed.

Lemma strip_recorded name remove acc q :
  P name → recorded P acc.1 → recorded P (strip name remove acc q).1.
Proof.
  intros Hn Hacc. unfold strip. destruct (_ <? _); cbn [fst]; [|done].
  by apply recorded_tech_add.
Qed.

Lemma naked_subsets_recorded st :
  P "naked_subsets" → recorded P st → recorded P (naked_subsets_generalized st).1.
Proof.
  intros Hn Hst. unfold naked_subsets_generalized.
  apply (fold_left_inv (naked_subsets_group 3) (λ acc, recorded P acc.1)); [|done].
  intros acc G _ Hacc. unfold naked_subsets_group.
  apply (fold_left_inv _ (λ acc, recorded P acc.1)); [|done].
  intros acc0 size _ Hacc0.
  apply (fold_left_inv (naked_subsets_combo G size) (λ acc, recorded P acc.1));
    [|done].
  intros acc1 combo _ Hacc1. unfold naked_subsets_combo.
  destruct (_ =? _); [|done].
  apply (fold_left_inv _ (λ acc, recorded P acc.1)); [|done].
  intros acc2 q _ Hacc2. by apply strip_recorded.
Qed.

Lemma hidden_pairs_recorded st :
  P "hidden_pairs" → recorded P st → recorded P (hidden_pairs st).1.
Proof.
  intros Hn Hst. unfold hidden_pairs.
  apply (fold_left_inv (hidden_pairs_group 3) (λ acc, recorded P acc.1)); [|done].
  intros acc G _ Hacc. unfold hidden_pairs_group.
  apply (fold_left_inv _ (λ acc, recorded P acc.1)); [|done].
  intros acc0 entry _ Hacc0. unfold hidden_pairs_key.
  destruct (_ <? _); [done|]. destruct (negb _); [done|].
  apply (fold_left_inv _ (λ acc, recorded P acc.1)); [|done].
  intros acc1 q _ Hacc1. by apply strip_recorded.
Qed.

Lemma level1_loop_recorded fuel st changed r :
  P "naked_single" → P "hidden_single" → recorded P st →
  level1_loop fuel st changed = Ret r → recorded P r.1.
Proof.
  intros Hn Hh. revert st changed.
  induction fuel as [|fuel IH]; intros st changed Hst; [done|].
  cbn [level1_loop].
  intros ([st1 placed] & H1 & Hr)%bind_Ret_inv.
  pose proof (naked_single_recorded st _ Hn Hst H1) as Hst1. cbn [fst] in Hst1.
  destruct placed; [by eapply IH|].
  apply bind_Ret_inv in Hr as ([st2 placed2] & H2 & Hr).
  pose proof (hidden_single_recorded st1 _ Hh Hst1 H2) as Hst2. cbn [fst] in Hst2.
  destruct placed2; [by eapply IH|]. by injection Hr as <-.
Qed.

End techniques.

Lemma within_ceiling_level1 max_difficulty name :
  name = "naked_single" ∨ name = "hidden_single" →
  within_ceiling max_difficulty name.
Proof.
  intros H. left. rewrite !elem_of_cons. tauto.
Qed.

Lemma within_ceiling_level3 max_difficulty name :
  (3 ≤ max_difficulty)%Z →
  name = "naked_subsets" ∨ name = "hidden_pairs" →
  within_ceiling max_difficulty name.
Proof.
  intros Hmd H. right. right. split; [done|]. rewrite !elem_of_cons. tauto.
Qed.

Lemma solve_pass_recorded max_difficulty st r :
  recorded (within_ceiling max_difficulty) st →
  solve_pass max_difficulty st = Ret r →
  recorded (within_ceiling max_difficulty) r.1.
Proof.
  intros Hst. unfold solve_pass.
  intros ([st1 ch1] & H1 & Hr)%bind_Ret_inv.
  assert (recorded (within_ceiling max_difficulty) st1) as Hst1.
  { apply (level1_loop_recorded _ _ _ _ _ (within_ceiling_level1 _ _ (or_introl eq_refl))
             (within_ceiling_level1 _ _ (or_intror eq_refl)) Hst H1). }
  cbn [fst snd] in Hr.
  destruct (is_complete (grid st1)); [by injection Hr as <-|].
  set (r2 := if (2 <=? max_difficulty)%Z then _ else _) in Hr.
  assert (recorded (within_ceiling max_difficulty) r2.1) as Hst2.
  { subst r2. destruct (Z.leb_spec 2 max_difficulty); [|done]. cbn [fst].
    apply neighbor_elimination_recorded; [|done]. right. left. done. }
  destruct (is_complete (grid r2.1)); [by injection Hr as <-|].
  set (r3 := if (3 <=? max_difficulty)%Z then _ else _) in Hr.
  assert (recorded (within_ceiling max_difficulty) r3.1) as Hst3.
  { subst r3. destruct (Z.leb_spec 3 max_difficulty); [|done].
    assert (recorded (within_ceiling max_difficulty)
              (naked_subsets_generalized r2.1).1) as Hns.
    { apply naked_subsets_recorded; [|done].
      apply within_ceiling_level3; auto. }
    destruct (naked_subsets_generalized r2.1).2; [done|]. cbn [fst].
    apply hidden_pairs_recorded; [|done].
    apply within_ceiling_level3; auto. }
  destruct (is_complete (grid r3.1)); by injection Hr as <-.
Qed.

Lemma solve_loop_recorded fuel max_difficulty st r :
  recorded (within_ceiling max_difficulty) st →
  solve_loop fuel max_difficulty st = Ret r →
  recorded (within_ceiling max_difficulty) r.
Proof.
  revert st. induction fuel as [|fuel IH]; intros st Hst; [done|].
  cbn [solve_loop]. intros ([st' again] & Hp & Hr)%bind_Ret_inv.
  pose proof (solve_pass_recorded _ _ _ Hst Hp) as Hst'. cbn [fst] in Hst'.
  destruct again; [by eapply IH|]. by injection Hr as <-.
Qed.

(** X29.  The techniques a result of [solve] reports are within the
    ceiling: [naked_single] and [hidden_single] at every ceiling,
    [neighbor_elimination] only from ceiling 2, [naked_subsets] and
    [hidden_pairs] only from ceiling 3, and no other name. *)
Theorem solve_techniques_within_ceiling (g : Grid) (max_difficulty : Z)
    (r : SolveResult) :
  solve g max_difficulty = Ret r →
  Forall (within_ceiling max_difficulty) (result_techniques r).
Proof.
  unfold solve. intros (st & Hloop & [= <-])%bind_Ret_inv.
  cbn [result_techniques].
  eapply solve_loop_recorded; [|exact Hloop]. apply Forall_nil_2.
Qed.

Lemma solve_techniques_within_ceiling_witness :
  ∃ r, solve pair_puzzle 1 = Ret r
       ∧ Forall (within_ceiling 1) (result_techniques r).
Proof.
  eexists. split; [vm_compute; reflexivity|].
  apply (solve_techniques_within_ceiling pair_puzzle 1). vm_compute. reflexivity.
Defined.
